(** * Submodular diversity selection (src/utils/submodular-optimization.ts)

    A shallow embedding of the lazy-greedy facility-location selection used by
    the [deduplicate_strings] and [deduplicate_images] tools, and the
    properties of it stated in the specification.

    The TypeScript code computes on JavaScript numbers.  The functions below
    are written once over a small interface of the arithmetic they use
    ([JsNumber]); the interface is instantiated twice:

    - [float_number]: IEEE-754 binary64 through Rocq's primitive floats, which
      is the arithmetic the program runs on; every definition evaluates there
      (module [Float64]);
    - [real_number]: the real numbers, the arithmetic the specification
      reasons in (module [Exact]).

    Properties that only depend on the control flow are proved for every
    instance of the interface.  Properties that depend on the laws of an
    ordered field are proved over the real numbers; where rounding makes the
    program differ, module [Float64] evaluates it.  Properties of the order
    of the computed values are proved on the doubles themselves (module
    [Doubles]), from the specification of the primitive floats; that
    rounding is monotone is proved in module [Rounding].

    The file also embeds the code around the selection: the handlers of
    [deduplicate_strings] and [deduplicate_images], for a parameter [k] that
    is any number (module [AnyNumber]), [downloadImages]
    (src/utils/image-downloader.ts), and the filter of duplicate queries of
    the parallel tools.  After the properties stated in the specification
    come further ones: how the two selection functions relate (section
    [Composition]), the filter, the downloads and the answers of the two
    tools, the selection on doubles (module [Doubles]) and, in exact
    arithmetic, the submodularity of the objective and the bound of greedy
    selection (module [Optimality]) and the invariance under scaling
    (module [Scaling]). *)

From Stdlib Require Import List ZArith QArith Qround Reals Lra Lia PrimFloat Uint63 Permutation String Ascii Floats.
From stdpp Require Import gmap.
From Equations Require Import Equations.
Import ListNotations.

(** ** The arithmetic of the program *)

(** The operations on numbers that the source uses: the literal [0], [+],
    binary and unary [-], [*], [/], [Math.sqrt], [<] (and [>], its converse),
    [===], the conversion of an array length to a number, and the literal
    [1e-2] (the default [threshold]). *)
Class JsNumber (N : Type) := {
  zero : N;
  add : N -> N -> N;
  sub : N -> N -> N;
  mul : N -> N -> N;
  div : N -> N -> N;
  opp : N -> N;
  sqrt : N -> N;
  ltb : N -> N -> bool;
  eqb : N -> N -> bool;
  of_nat : nat -> N;
  defaultThreshold : N
}.

Definition gtb {N} `{JsNumber N} (x y : N) : bool := ltb y x.

Section Selection.
Context {N : Type} `{JsNumber N}.

(** ** cosineSimilarity *)

(** An array is a list and [a[i]] is [nth i a zero].  The default is never
    read by the selection functions: [cosineSimilarity] reads below the
    common length of its arguments, and the rows of the matrix and the
    coverage vector have [n] entries each, the bound of every other loop. *)

(** One pass of the [for] loop of [cosineSimilarity]: the three accumulators
    [dotProduct], [normA], [normB] are updated with the [i]-th components. *)
Definition cosineStep (a b : list N) (acc : N * N * N) (i : nat) : N * N * N :=
  let '(dotProduct, normA, normB) := acc in
  (add dotProduct (mul (nth i a zero) (nth i b zero)),
   add normA (mul (nth i a zero) (nth i a zero)),
   add normB (mul (nth i b zero) (nth i b zero))).

Definition cosineSimilarity (a b : list N) : N :=
  if negb (length a =? length b) then zero
  else
    let '(dotProduct, normA, normB) :=
      fold_left (cosineStep a b) (seq 0 (length a)) (zero, zero, zero) in
    if eqb normA zero || eqb normB zero then zero
    else div dotProduct (mul (sqrt normA) (sqrt normB)).

(** ** computeMarginalGainDiversity *)

Definition computeMarginalGainDiversity
    (newIdx : nat) (currentCoverage : list N) (similarityMatrix : list (list N)) : N :=
  let n := length similarityMatrix in
  let row := nth newIdx similarityMatrix [] in
  fold_left
    (fun marginalGain i =>
       let newCoverage :=
         if gtb (nth i row zero) (nth i currentCoverage zero)
         then nth i row zero else nth i currentCoverage zero in
       add marginalGain (sub newCoverage (nth i currentCoverage zero)))
    (seq 0 n) zero.

(** ** The state shared by the two selection functions *)

(** The pre-computed similarity matrix: entry [(i, j)] is the cosine
    similarity of embeddings [i] and [j], replaced by [0] unless it is
    greater than [0]. *)
Definition similarityMatrix (embeddings : list (list N)) : list (list N) :=
  let n := length embeddings in
  map (fun i =>
         map (fun j =>
                let sim := cosineSimilarity (nth i embeddings []) (nth j embeddings []) in
                if gtb sim zero then sim else zero)
             (seq 0 n))
      (seq 0 n).

(** A queue entry, the triple [[negGain, lastUpdated, bestIdx]] of the source:
    the negated marginal gain, the iteration at which it was computed, and
    the index of the item. *)
Record entry := Entry {
  negGain : N;
  lastUpdated : nat;
  bestIdx : nat
}.

(** [pq.sort((a, b) => a[0] - b[0])].  [Array.prototype.sort] is a stable
    sort: [a] is moved behind [b] only when the comparator is greater than
    [0].  It is modelled by stable insertion sort. *)
Definition compareEntries (a b : entry) : N := sub (negGain a) (negGain b).

Fixpoint insertEntry (a : entry) (l : list entry) : list entry :=
  match l with
  | [] => [a]
  | b :: l' =>
      if gtb (compareEntries a b) zero then b :: insertEntry a l' else a :: l
  end.

Definition sortQueue (l : list entry) : list entry := fold_right insertEntry [] l.

(** The queue after the initialisation loop and the first sort. *)
Definition initialQueue (n : nat) (currentCoverage : list N) (matrix : list (list N))
  : list entry :=
  sortQueue
    (map (fun i => Entry (opp (computeMarginalGainDiversity i currentCoverage matrix)) 0 i)
         (seq 0 n)).

(** The coverage update of an accepted item:
    [if (row[i] > currentCoverage[i]) currentCoverage[i] = row[i]] for
    [i = 0 .. n-1], on an array of length [n]. *)
Definition updateCoverage (n : nat) (row currentCoverage : list N) : list N :=
  map (fun i =>
         if gtb (nth i row zero) (nth i currentCoverage zero)
         then nth i row zero else nth i currentCoverage zero)
      (seq 0 n).

(** The number of queue entries plus the number of those whose epoch is not
    the current iteration: every pass of the [while] loop that does not
    leave it makes this smaller. *)
Definition stale (iteration : nat) (e : entry) : bool :=
  negb (lastUpdated e =? iteration).

Definition queueWeight (iteration : nat) (l : list entry) : nat :=
  length l + length (List.filter (stale iteration) l).

Lemma insertEntry_perm a l : Permutation (a :: l) (insertEntry a l).
Proof.
  induction l as [|b l IH]; simpl; [reflexivity|].
  destruct (gtb _ _); [|reflexivity].
  rewrite perm_swap. now apply perm_skip.
Qed.

Lemma sortQueue_perm l : Permutation l (sortQueue l).
Proof.
  induction l as [|a l IH]; simpl; [constructor|].
  rewrite <- insertEntry_perm. now apply perm_skip.
Qed.

Lemma queueWeight_perm iteration l l' :
  Permutation l l' -> queueWeight iteration l = queueWeight iteration l'.
Proof.
  intros HP. unfold queueWeight.
  rewrite (Permutation_length HP).
  f_equal. apply Permutation_length.
  clear -HP. induction HP; simpl.
  - constructor.
  - destruct (stale iteration x); [apply perm_skip|]; assumption.
  - destruct (stale iteration x), (stale iteration y);
      try apply perm_swap; reflexivity.
  - etransitivity; eassumption.
Qed.

Lemma queueWeight_pop iteration e rest :
  queueWeight iteration rest < queueWeight iteration (e :: rest).
Proof.
  unfold queueWeight. simpl. destruct (stale iteration e); simpl; lia.
Qed.

Lemma queueWeight_repush iteration e g rest :
  lastUpdated e <> iteration ->
  queueWeight iteration (sortQueue (rest ++ [Entry g iteration (bestIdx e)]))
  < queueWeight iteration (e :: rest).
Proof.
  intros Hne.
  rewrite <- (queueWeight_perm iteration _ _ (sortQueue_perm _)).
  unfold queueWeight. rewrite List.filter_app, !length_app.
  cbn [List.filter length].
  assert (Hfresh : stale iteration (Entry g iteration (bestIdx e)) = false)
    by (unfold stale; simpl; now rewrite Nat.eqb_refl).
  assert (Hstale : stale iteration e = true)
    by (unfold stale; now destruct (Nat.eqb_spec (lastUpdated e) iteration)).
  rewrite Hfresh, Hstale. simpl. lia.
Qed.

(** ** lazyGreedySelection *)

Record state := {
  selected : list nat;
  remaining : gset nat;
  currentCoverage : list N;
  pq : list entry
}.

(** The [while (pq.length > 0)] loop of one iteration of [lazyGreedySelection]. *)
Equations? whileLoop (matrix : list (list N)) (n iteration : nat) (st : state) : state
  by wf (queueWeight iteration (pq st)) lt :=
whileLoop matrix n iteration (Build_state sel rem cov []) := Build_state sel rem cov [];
whileLoop matrix n iteration
    (Build_state sel rem cov (Entry negGain lastUpdated bestIdx :: rest))
  with bool_decide (bestIdx ∈ rem) := {
  | false := whileLoop matrix n iteration (Build_state sel rem cov rest);
  | true with Nat.eq_dec lastUpdated iteration := {
    | left _ :=
        Build_state (sel ++ [bestIdx]) (rem ∖ {[bestIdx]})
                    (updateCoverage n (nth bestIdx matrix []) cov) rest;
    | right _ :=
        let currentGain := computeMarginalGainDiversity bestIdx cov matrix in
        whileLoop matrix n iteration
          (Build_state sel rem cov
             (sortQueue (rest ++ [Entry (opp currentGain) iteration bestIdx]))) } }.
Proof.
  - match goal with
    | |- _ < queueWeight _ (?e :: _) => apply (queueWeight_repush iteration e)
    end.
    assumption.
  - apply queueWeight_pop.
Qed.

(** [for (let iteration = 0; iteration < k; iteration++)]: [count] passes
    remain and the counter is [iteration]. *)
Fixpoint forLoop (matrix : list (list N)) (n count iteration : nat) (st : state) : state :=
  match count with
  | 0 => st
  | S count' => forLoop matrix n count' (S iteration) (whileLoop matrix n iteration st)
  end.

(** The same [while] loop, pass by pass: one pass either stays in the loop
    ([inl]) or leaves it ([inr]), and [whilePasses] makes at most [fuel]
    passes.  It is used to count the passes of [whileLoop]. *)
Definition whilePass (matrix : list (list N)) (n iteration : nat) (st : state)
  : state + state :=
  match pq st with
  | [] => inr st
  | e :: rest =>
      if bool_decide (bestIdx e ∈ remaining st) then
        if lastUpdated e =? iteration then
          inr (Build_state (selected st ++ [bestIdx e]) (remaining st ∖ {[bestIdx e]})
                 (updateCoverage n (nth (bestIdx e) matrix []) (currentCoverage st)) rest)
        else
          let currentGain :=
            computeMarginalGainDiversity (bestIdx e) (currentCoverage st) matrix in
          inl (Build_state (selected st) (remaining st) (currentCoverage st)
                 (sortQueue (rest ++ [Entry (opp currentGain) iteration (bestIdx e)])))
      else inl (Build_state (selected st) (remaining st) (currentCoverage st) rest)
  end.

Fixpoint whilePasses (fuel : nat) (matrix : list (list N)) (n iteration : nat) (st : state)
  : option state :=
  match fuel with
  | 0 => None
  | S fuel' =>
      match whilePass matrix n iteration st with
      | inr st' => Some st'
      | inl st' => whilePasses fuel' matrix n iteration st'
      end
  end.

Definition initialState (n : nat) (matrix : list (list N)) : state :=
  let currentCoverage := repeat zero n in
  {| selected := [];
     remaining := list_to_set (seq 0 n);
     currentCoverage := currentCoverage;
     pq := initialQueue n currentCoverage matrix |}.

(** [k] is an integer here; [AnyNumber.lazyGreedySelection] below is the
    function for any number [k], and it is this one when [k] is an integer
    ([lazyGreedySelection_integer]).  The function has no [throw]: for
    [k >= n] its first statement returns the indices [0 .. n-1], and for
    [k <= 0] the [for] loop makes no pass. *)
Definition lazyGreedySelection (embeddings : list (list N)) (k : Z) : list nat :=
  let n := length embeddings in
  if (Z.of_nat n <=? k)%Z then seq 0 n
  else
    let matrix := similarityMatrix embeddings in
    selected (forLoop matrix n (Z.to_nat k) 0 (initialState n matrix)).

(** ** lazyGreedySelectionWithSaturation *)

(** The second function keeps the same four variables, which it updates by
    the same statements, and two more: the objective [values] collected so
    far and [earlyStopK]. *)
Record satState := {
  core : state;
  values : list N;
  earlyStopK : option nat
}.

(** [currentCoverage.reduce((sum, val) => sum + val, 0) / n] *)
Definition functionValue (n : nat) (currentCoverage : list N) : N :=
  div (fold_left (fun sum val => add sum val) currentCoverage zero) (of_nat n).

(** The early-stop test made after [values.push(functionValue)]. *)
Definition earlyStopAfter (threshold : N) (values : list N) (earlyStopK : option nat)
  : option nat :=
  if 2 <=? length values then
    let delta := sub (nth (length values - 1) values zero)
                     (nth (length values - 2) values zero) in
    if ltb delta threshold then Some (length values) else earlyStopK
  else earlyStopK.

(** The [while (pq.length > 0)] loop of one iteration of
    [lazyGreedySelectionWithSaturation]. *)
Equations? whileLoopSat (matrix : list (list N)) (n iteration : nat) (threshold : N)
    (st : satState) : satState
  by wf (queueWeight iteration (pq (core st))) lt :=
whileLoopSat matrix n iteration threshold
    (Build_satState (Build_state sel rem cov []) vals early) :=
  Build_satState (Build_state sel rem cov []) vals early;
whileLoopSat matrix n iteration threshold
    (Build_satState (Build_state sel rem cov (Entry negGain lastUpdated bestIdx :: rest))
                    vals early)
  with bool_decide (bestIdx ∈ rem) := {
  | false :=
      whileLoopSat matrix n iteration threshold
        (Build_satState (Build_state sel rem cov rest) vals early);
  | true with Nat.eq_dec lastUpdated iteration := {
    | left _ :=
        let cov' := updateCoverage n (nth bestIdx matrix []) cov in
        let vals' := vals ++ [functionValue n cov'] in
        Build_satState
          (Build_state (sel ++ [bestIdx]) (rem ∖ {[bestIdx]}) cov' rest)
          vals' (earlyStopAfter threshold vals' early);
    | right _ :=
        let currentGain := computeMarginalGainDiversity bestIdx cov matrix in
        whileLoopSat matrix n iteration threshold
          (Build_satState
             (Build_state sel rem cov
                (sortQueue (rest ++ [Entry (opp currentGain) iteration bestIdx])))
             vals early) } }.
Proof.
  - match goal with
    | |- _ < queueWeight _ (?e :: _) => apply (queueWeight_repush iteration e)
    end.
    assumption.
  - apply queueWeight_pop.
Qed.

(** [for (let iteration = 0; iteration < n; iteration++)] with
    [if (earlyStopK !== null) break;] after the [while] loop. *)
Fixpoint forLoopSat (matrix : list (list N)) (n : nat) (threshold : N)
    (count iteration : nat) (st : satState) : satState :=
  match count with
  | 0 => st
  | S count' =>
      let st' := whileLoopSat matrix n iteration threshold st in
      match earlyStopK st' with
      | Some _ => st'
      | None => forLoopSat matrix n threshold count' (S iteration) st'
      end
  end.

(** The object [{ selected: finalSelected, optimalK, values }]. *)
Record saturationResult := {
  result_selected : list nat;
  result_optimalK : nat;
  result_values : list N
}.

Definition initialSatState (n : nat) (matrix : list (list N)) : satState :=
  {| core := initialState n matrix; values := []; earlyStopK := None |}.

Definition lazyGreedySelectionWithSaturation (embeddings : list (list N)) (threshold : N)
  : saturationResult :=
  let n := length embeddings in
  let matrix := similarityMatrix embeddings in
  let st := forLoopSat matrix n threshold n 0 (initialSatState n matrix) in
  let optimalK :=
    match earlyStopK st with
    | Some k => k
    | None => length (values st)
    end in
  {| result_selected := firstn optimalK (selected (core st));
     result_optimalK := optimalK;
     result_values := values st |}.

(** ** The callers: the checks of the [deduplicate_strings] tool *)

(** What the tool answers: an error response, or the selected strings with
    their indices. *)
Inductive toolError :=
| MissingApiKey
| NoStringsProvided
| InvalidK (k : Z) (n : nat)
| ApiFailure (status : nat)
| InvalidResponseFormat.

(** What the embeddings service answers to the request. *)
Inductive embeddingsReply :=
| HttpFailure (status : nat)
| MalformedBody
| EmbeddingsOf (embeddings : list (list N)).

(** [checkBearerToken]: the token is missing when it is undefined or empty. *)
Definition checkBearerToken (bearerToken : option string) : option toolError :=
  match bearerToken with
  | None => Some MissingApiKey
  | Some t => if String.eqb t EmptyString then Some MissingApiKey else None
  end.

(** The handler of [deduplicate_strings] after its checks: the request to
    the embeddings service, which is a parameter, and the selection.  [k] is
    [None] when the caller leaves it out. *)
Definition selectStrings (service : list string -> embeddingsReply)
    (strings : list string) (k : option Z) : toolError + list (nat * option string) :=
  match service strings with
  | HttpFailure status => inl (ApiFailure status)
  | MalformedBody => inl InvalidResponseFormat
  | EmbeddingsOf embeddings =>
      let selectedIndices :=
        match k with
        | Some k => lazyGreedySelection embeddings k
        | None =>
            result_selected (lazyGreedySelectionWithSaturation embeddings defaultThreshold)
        end in
      inr (map (fun idx => (idx, nth_error strings idx)) selectedIndices)
  end.

(** The handler of [deduplicate_strings]: the three checks, in the order of
    the source, then the selection.  An error thrown in the handler is caught
    by it and answered as an error response, like the error it returns.  The
    handler of [deduplicate_images] makes the same checks on its images. *)
Definition deduplicate_strings (service : list string -> embeddingsReply)
    (bearerToken : option string) (strings : list string) (k : option Z)
  : toolError + list (nat * option string) :=
  match checkBearerToken bearerToken with
  | Some tokenError => inl tokenError
  | None =>
      if length strings =? 0 then inl NoStringsProvided
      else
        match k with
        | Some k' =>
            if ((k' <=? 0) || (Z.of_nat (length strings) <? k'))%Z
            then inl (InvalidK k' (length strings))
            else selectStrings service strings k
        | None => selectStrings service strings k
        end
  end.

End Selection.

Arguments entry N : clear implicits.
Arguments state N : clear implicits.
Arguments satState N : clear implicits.
Arguments saturationResult N : clear implicits.
Arguments embeddingsReply N : clear implicits.

(** ** More of the tools *)

(** *** The filter of the parallel tools *)

(** [self.findIndex(p)]: the first index at which [p] holds; [None] stands
    for the [-1] of the source, which is no index. *)
Fixpoint findIndex {A : Type} (p : A -> bool) (l : list A) : option nat :=
  match l with
  | [] => None
  | x :: l' => if p x then Some 0 else option_map S (findIndex p l')
  end.

(** [searches.filter((search, index, self) =>
       index === self.findIndex(s => s.query === search.query))]
    of [parallel_search_web] and [parallel_search_arxiv]; [parallel_read_url]
    makes the same filter on the [url] of its entries.  [query] reads the
    field that is compared. *)
Definition uniqueSearches {A : Type} (query : A -> string) (searches : list A) : list A :=
  map snd
    (List.filter
       (fun '(index, search) =>
          match findIndex (fun s => String.eqb (query s) (query search)) searches with
          | Some first => index =? first
          | None => false
          end)
       (combine (seq 0 (length searches)) searches)).

(** *** downloadImages *)

(** Strings are sequences of bytes.  [toLowerCase] is modelled on the
    letters [A-Z]; the patterns below are made of ASCII characters that no
    other character is lowered to. *)
Definition lowerAscii (c : ascii) : ascii :=
  let n := nat_of_ascii c in
  if (65 <=? n) && (n <=? 90) then ascii_of_nat (n + 32) else c.

Fixpoint toLowerCase (s : string) : string :=
  match s with
  | EmptyString => EmptyString
  | String c s' => String (lowerAscii c) (toLowerCase s')
  end.

Fixpoint includes (s pattern : string) : bool :=
  String.prefix pattern s ||
  match s with
  | EmptyString => false
  | String _ s' => includes s' pattern
  end.

Definition endsWith (s pattern : string) : bool :=
  (String.length pattern <=? String.length s) &&
  String.eqb
    (String.substring (String.length s - String.length pattern) (String.length pattern) s)
    pattern.

(** [url.toLowerCase().endsWith('.svg') || url.toLowerCase().includes('.svg?')] *)
Definition isSvg (url : string) : bool :=
  endsWith (toLowerCase url) ".svg" || includes (toLowerCase url) ".svg?".

(** What [fetch(url, ...)] does for one image: a response that is [ok], with
    its body in base64, a response that is not, or an exception.  The
    network is a parameter of the model: [fetch i url] is the outcome of the
    request for the URL at position [i] of [urls] (two requests for the same
    URL need not end the same way). *)
Inductive fetchOutcome :=
| FetchOk (base64Image : string)
| FetchNotOk (status : nat) (statusText : string)
| FetchThrows (message : string).

(** The [error] of a result, before it is formatted as text. *)
Inductive downloadError :=
| SvgNotSupported
| HttpError (status : nat) (statusText : string)
| Thrown (message : string).

Record ProcessedImageResult := {
  url : string;
  success : bool;
  data : option string;
  mimeType : string;
  error : option downloadError
}.

(** The function mapped over one batch, for the URL at position [i]. *)
Definition processImage (fetch : nat -> string -> fetchOutcome) (i : nat) (url : string)
  : ProcessedImageResult :=
  if isSvg url then
    {| url := url; success := false; data := None; mimeType := "image/jpeg";
       error := Some SvgNotSupported |}
  else
    match fetch i url with
    | FetchNotOk status statusText =>
        {| url := url; success := false; data := None; mimeType := "image/jpeg";
           error := Some (HttpError status statusText) |}
    | FetchOk base64Image =>
        {| url := url; success := true; data := Some base64Image;
           mimeType := "image/jpeg"; error := None |}
    | FetchThrows message =>
        {| url := url; success := false; data := None; mimeType := "image/jpeg";
           error := Some (Thrown message) |}
    end.

(** [Promise.all(batch.map(...))]: the results of a batch, in the order of
    the batch; [first] is the position of its first URL. *)
Definition processBatch (fetch : nat -> string -> fetchOutcome) (first : nat)
    (batch : list string) : list ProcessedImageResult :=
  map (fun '(i, url) => processImage fetch i url)
      (combine (seq first (length batch)) batch).

(** The [while (queue.length > 0)] loop of the download promise:
    [queue.splice(0, concurrencyLimit)] takes the batch off the queue and the
    results of the batch are pushed on [results].  [passes] bounds the
    passes of the loop, and [first] counts the URLs taken off the queue. *)
Fixpoint downloadLoop (passes : nat) (fetch : nat -> string -> fetchOutcome)
    (concurrencyLimit first : nat) (queue : list string)
    (results : list ProcessedImageResult) : list ProcessedImageResult :=
  match passes with
  | 0 => results
  | S passes' =>
      match queue with
      | [] => results
      | _ :: _ =>
          let batch := firstn concurrencyLimit queue in
          downloadLoop passes' fetch concurrencyLimit (first + length batch)
            (skipn concurrencyLimit queue)
            (results ++ processBatch fetch first batch)
      end
  end.

(** [downloadImages(urls, concurrencyLimit, timeoutMs)].  The timer is not
    modelled by its duration but by what it does: [timedOutAfter] is [None]
    when the downloads end first, and [Some b] when the timer fires after
    [b] batches, in which case the function returns the results it has so
    far.  The array that is returned then is the one the loop goes on
    pushing to; the callers read it at once, in the same turn of the event
    loop, so they see the results of these [b] batches.  With
    [concurrencyLimit = 0] the loop of the source takes nothing off the
    queue and does not end; the callers pass [3] and [1]. *)
Definition downloadImages (fetch : nat -> string -> fetchOutcome) (urls : list string)
    (concurrencyLimit : nat) (timedOutAfter : option nat) : list ProcessedImageResult :=
  let passes :=
    match timedOutAfter with
    | None => length urls
    | Some batches => batches
    end in
  downloadLoop passes fetch concurrencyLimit 0 urls [].

(** *** The parameter k *)

(** [k] has the type [number] of the source, and the schema of the tools
    accepts any number for it: it need not be an integer.  A number is
    [NaN], an infinity or a finite value, which is a rational number.  The
    handlers and [lazyGreedySelection] only compare [k]: with [0], with the
    length of an array and with the loop counter.  These are integers that a
    double holds exactly, so that the comparisons are those of the rational
    numbers; each of them is false when [k] is [NaN]. *)
Inductive number :=
| NaN
| Infinity (negative : bool)
| Finite (value : Q).

(** [i < k] and [i <= k] for an integer [i >= 0] (the source writes
    [k > i] and [k >= i]), and [k <= 0]. *)
Definition lessThan (i : nat) (k : number) : bool :=
  match k with
  | NaN => false
  | Infinity negative => negb negative
  | Finite value => negb (Qle_bool value (inject_Z (Z.of_nat i)))
  end.

Definition atMost (i : nat) (k : number) : bool :=
  match k with
  | NaN => false
  | Infinity negative => negb negative
  | Finite value => Qle_bool (inject_Z (Z.of_nat i)) value
  end.

Definition nonPositive (k : number) : bool :=
  match k with
  | NaN => false
  | Infinity negative => negative
  | Finite value => Qle_bool value 0
  end.

(** *** The handler of deduplicate_images *)

Inductive imageToolError :=
| ImageMissingApiKey
| NoImagesProvided
| ImageInvalidK (k : number) (n : nat)
| ImageApiFailure (status : nat)
| ImageInvalidResponseFormat
| NoImagesToReturn.

(** An item of the answer: an image, or the text
    [Failed to download image at index ...: ...] with its two holes. *)
Inductive imageContentItem :=
| ImageItem (data : option string) (mimeType : string)
| FailedItem (index : nat) (error : option downloadError).

(** [/^https?:\/\//i.test(source)]; a [source] that is [undefined] is
    tested as the text [undefined]. *)
Definition isHttpUrl (source : option string) : bool :=
  match source with
  | None => false
  | Some s =>
      String.prefix "http://" (toLowerCase s) || String.prefix "https://" (toLowerCase s)
  end.

Definition sourceEqb (a b : option string) : bool :=
  match a, b with
  | Some x, Some y => String.eqb x y
  | None, None => true
  | _, _ => false
  end.

(** One pass of the loop over [downloadResults]: [i] is the position in the
    list of downloads. *)
Definition downloadItem (selectedImages : list (nat * option string))
    (urlsToDownload : list (option string)) (i : nat) (result : ProcessedImageResult)
  : imageContentItem :=
  let selectedImage :=
    find (fun image => sourceEqb (snd image) (nth i urlsToDownload None)) selectedImages in
  match success result, data result with
  | true, Some (String c d) => ImageItem (Some (String c d)) (mimeType result)
  | _, _ =>
      let index :=
        match selectedImage with
        | Some (S index, _) => S index
        | _ => i
        end in
      let reported :=
        match error result with
        | Some (Thrown EmptyString) => None
        | e => e
        end in
      FailedItem index reported
  end.

(** The handler from the selection on: [selectedIndices] are split into
    URLs, which are downloaded, and the other inputs, which are returned as
    they are. *)
Definition imageContent (fetch : nat -> string -> fetchOutcome)
    (timedOutAfter : option nat)
    (images : list string) (selectedIndices : list nat)
  : imageToolError + list imageContentItem :=
  let selectedImages := map (fun idx => (idx, nth_error images idx)) selectedIndices in
  let urlsToDownload :=
    map snd (List.filter (fun image => isHttpUrl (snd image)) selectedImages) in
  let base64Images :=
    map snd (List.filter (fun image => negb (isHttpUrl (snd image))) selectedImages) in
  let downloaded :=
    if length urlsToDownload =? 0 then []
    else
      let downloadResults :=
        downloadImages fetch (map (fun source => default EmptyString source) urlsToDownload)
          3 timedOutAfter in
      map (fun '(i, result) => downloadItem selectedImages urlsToDownload i result)
          (combine (seq 0 (length downloadResults)) downloadResults) in
  let contentItems :=
    downloaded ++ map (fun base64Image => ImageItem base64Image "image/jpeg") base64Images in
  if length contentItems =? 0 then inl NoImagesToReturn else inr contentItems.

(** *** The selection and the handlers, for any number k *)

Module AnyNumber.

(** The errors of [deduplicate_strings]; [Invalid k value] names the [k] of
    the request. *)
Inductive toolError :=
| MissingApiKey
| NoStringsProvided
| InvalidK (k : number) (n : nat)
| ApiFailure (status : nat)
| InvalidResponseFormat.

Section Tools.
Context {N : Type} `{JsNumber N}.

(** [for (let iteration = 0; iteration < k; iteration++)], with the test of
    the source.  [fuel] bounds the passes; the loop is reached when
    [k >= n] is false, and then [n] passes are enough for it to end by its
    test ([forLoop_ends] below). *)
Fixpoint forLoop (matrix : list (list N)) (n : nat) (k : number) (fuel iteration : nat)
    (st : state N) : state N :=
  match fuel with
  | 0 => st
  | S fuel' =>
      if lessThan iteration k
      then forLoop matrix n k fuel' (S iteration) (whileLoop matrix n iteration st)
      else st
  end.

Definition lazyGreedySelection (embeddings : list (list N)) (k : number) : list nat :=
  let n := length embeddings in
  if atMost n k then seq 0 n
  else
    let matrix := similarityMatrix embeddings in
    selected (forLoop matrix n k n 0 (initialState n matrix)).

(** [if (k !== undefined) ... else ...]: the selection of the two handlers. *)
Definition selectedIndices (embeddings : list (list N)) (k : option number) : list nat :=
  match k with
  | Some k' => lazyGreedySelection embeddings k'
  | None => result_selected (lazyGreedySelectionWithSaturation embeddings defaultThreshold)
  end.

(** [k !== undefined && (k <= 0 || k > n)] *)
Definition invalidK (n : nat) (k : option number) : bool :=
  match k with
  | Some k' => nonPositive k' || lessThan n k'
  | None => false
  end.

(** The handler of [deduplicate_strings]: the three checks, in the order of
    the source, the request to the embeddings service and the selection. *)
Definition deduplicate_strings (service : list string -> embeddingsReply N)
    (bearerToken : option string) (strings : list string) (k : option number)
  : toolError + list (nat * option string) :=
  match checkBearerToken bearerToken with
  | Some _ => inl MissingApiKey
  | None =>
      if length strings =? 0 then inl NoStringsProvided
      else if invalidK (length strings) k
      then inl (InvalidK (default NaN k) (length strings))
      else
        match service strings with
        | HttpFailure status => inl (ApiFailure status)
        | MalformedBody => inl InvalidResponseFormat
        | EmbeddingsOf embeddings =>
            inr (map (fun idx => (idx, nth_error strings idx))
                     (selectedIndices embeddings k))
        end
  end.

(** The handler of [deduplicate_images]: the checks of [deduplicate_strings]
    on the images, the request to the embeddings service, the selection and
    the downloads. *)
Definition deduplicate_images (service : list string -> embeddingsReply N)
    (fetch : nat -> string -> fetchOutcome) (timedOutAfter : option nat)
    (bearerToken : option string) (images : list string) (k : option number)
  : imageToolError + list imageContentItem :=
  match checkBearerToken bearerToken with
  | Some _ => inl ImageMissingApiKey
  | None =>
      if length images =? 0 then inl NoImagesProvided
      else if invalidK (length images) k
      then inl (ImageInvalidK (default NaN k) (length images))
      else
        match service images with
        | HttpFailure status => inl (ImageApiFailure status)
        | MalformedBody => inl ImageInvalidResponseFormat
        | EmbeddingsOf embeddings =>
            imageContent fetch timedOutAfter images (selectedIndices embeddings k)
        end
  end.

End Tools.

End AnyNumber.

(** ** The two arithmetics *)

(** IEEE-754 binary64, the numbers of the program.  [0x1.47ae147ae147bp-7] is
    the double that the literal [1e-2] denotes. *)
#[export] Instance float_number : JsNumber float := {|
  zero := 0%float;
  add := PrimFloat.add;
  sub := PrimFloat.sub;
  mul := PrimFloat.mul;
  div := PrimFloat.div;
  opp := PrimFloat.opp;
  sqrt := PrimFloat.sqrt;
  ltb := PrimFloat.ltb;
  eqb := PrimFloat.eqb;
  of_nat := fun n => PrimFloat.of_uint63 (Uint63.of_Z (Z.of_nat n));
  defaultThreshold := 0x1.47ae147ae147bp-7%float
|}.

(** The real numbers: the same operations without rounding. *)
Definition Rltb (x y : R) : bool := if Rlt_dec x y then true else false.
Definition Reqb (x y : R) : bool := if Req_dec_T x y then true else false.

#[export] Instance real_number : JsNumber R := {|
  zero := 0%R;
  add := Rplus;
  sub := Rminus;
  mul := Rmult;
  div := Rdiv;
  opp := Ropp;
  sqrt := R_sqrt.sqrt;
  ltb := Rltb;
  eqb := Reqb;
  of_nat := INR;
  defaultThreshold := (1 / 100)%R
|}.

(** * Properties of the control flow, for every arithmetic *)

Section Structure.
Context {N : Type} `{JsNumber N}.

(** ** How one [while] loop ends *)

(** Until the loop accepts an item only the queue changes.  Whatever holds of
    the queue at the start, and is kept when an entry is discarded or pushed
    again, holds when the loop ends: either the queue ran empty, or the head
    [e] of the queue was accepted with an up-to-date epoch. *)
Lemma whileLoop_rule matrix n iteration (P : list (entry N) -> Prop) sel rem cov :
  (forall e rest, P (e :: rest) -> bestIdx e ∉ rem -> P rest) ->
  (forall e rest, P (e :: rest) -> bestIdx e ∈ rem -> lastUpdated e <> iteration ->
     P (sortQueue
          (rest ++ [Entry (opp (computeMarginalGainDiversity (bestIdx e) cov matrix))
                          iteration (bestIdx e)]))) ->
  forall q, P q ->
  (whileLoop matrix n iteration (Build_state sel rem cov q) = Build_state sel rem cov []
   /\ P [])
  \/ (exists e rest,
        P (e :: rest) /\ bestIdx e ∈ rem /\ lastUpdated e = iteration /\
        whileLoop matrix n iteration (Build_state sel rem cov q)
        = Build_state (sel ++ [bestIdx e]) (rem ∖ {[bestIdx e]})
                      (updateCoverage n (nth (bestIdx e) matrix []) cov) rest).
Proof.
  intros Hdiscard Hrepush q.
  remember (queueWeight iteration q) as w eqn:Hw.
  revert q Hw. induction w as [w IH] using lt_wf_ind. intros q -> HP.
  destruct q as [|[g u i] rest]; simp whileLoop.
  - left. split; [reflexivity | assumption].
  - destruct (bool_decide (i ∈ rem)) eqn:Hin; simp whileLoop.
    + apply bool_decide_eq_true in Hin.
      destruct (Nat.eq_dec u iteration) as [Heq|Hne]; simp whileLoop.
      * right. exists (Entry g u i), rest. auto.
      * cbn zeta. eapply IH; [|reflexivity|].
        -- apply (queueWeight_repush iteration (Entry g u i)). exact Hne.
        -- apply (Hrepush (Entry g u i) rest); auto.
    + apply bool_decide_eq_false in Hin.
      eapply IH; [apply queueWeight_pop|reflexivity|].
      apply (Hdiscard (Entry g u i) rest); auto.
Qed.

(** The saturation loop makes the steps of [whileLoop] on the four shared
    variables, and records a value when an item was accepted. *)
Definition recordValue (n : nat) (threshold : N) (st : satState N) (core' : state N)
  : satState N :=
  if length (selected core') =? length (selected (core st))
  then {| core := core'; values := values st; earlyStopK := earlyStopK st |}
  else
    let vals' := values st ++ [functionValue n (currentCoverage core')] in
    {| core := core'; values := vals';
       earlyStopK := earlyStopAfter threshold vals' (earlyStopK st) |}.

(** One [while] loop either accepts one item, or leaves the three other
    variables as they are and the queue empty. *)
Lemma whileLoop_cases matrix n iteration (st : state N) :
  whileLoop matrix n iteration st
  = Build_state (selected st) (remaining st) (currentCoverage st) []
  \/ exists (e : entry N) rest,
       whileLoop matrix n iteration st
       = Build_state (selected st ++ [bestIdx e]) (remaining st ∖ {[bestIdx e]})
           (updateCoverage n (nth (bestIdx e) matrix []) (currentCoverage st)) rest.
Proof.
  destruct st as [sel rem cov q].
  destruct (whileLoop_rule matrix n iteration (fun _ => True) sel rem cov
              ltac:(auto) ltac:(auto) q I) as [[-> _]|(e & rest & _ & _ & _ & ->)];
    [left; reflexivity|right]. exists e, rest. reflexivity.
Qed.

(** [whileLoop] is left after at most [queueWeight + 1] passes. *)
Lemma whileLoop_passes matrix n iteration (st : state N) fuel :
  queueWeight iteration (pq st) < fuel ->
  whilePasses fuel matrix n iteration st = Some (whileLoop matrix n iteration st).
Proof.
  destruct st as [sel rem cov q]. cbn [pq].
  revert q. induction fuel as [|fuel IH]; intros q Hfuel; [lia|].
  cbn [whilePasses]. unfold whilePass. cbn [pq selected remaining currentCoverage].
  destruct q as [|[g u i] rest]; simp whileLoop; [reflexivity|].
  cbn [bestIdx lastUpdated].
  destruct (bool_decide (i ∈ rem)) eqn:Hin; simp whileLoop.
  - destruct (Nat.eq_dec u iteration) as [Heq|Hne]; simp whileLoop.
    + subst u. now rewrite Nat.eqb_refl.
    + destruct (Nat.eqb_spec u iteration) as [|_]; [contradiction|].
      cbn zeta. apply IH.
      pose proof (queueWeight_repush iteration (Entry g u i)
                    (opp (computeMarginalGainDiversity i cov matrix)) rest Hne).
      cbn [bestIdx] in *. lia.
  - apply IH. pose proof (queueWeight_pop iteration (Entry g u i) rest). lia.
Qed.

Lemma whileLoopSat_whileLoop matrix n iteration threshold st :
  whileLoopSat matrix n iteration threshold st
  = recordValue n threshold st (whileLoop matrix n iteration (core st)).
Proof.
  destruct st as [[sel rem cov q] vals early]. cbn [core].
  remember (queueWeight iteration q) as w eqn:Hw.
  revert q Hw. induction w as [w IH] using lt_wf_ind. intros q ->.
  destruct q as [|[g u i] rest]; simp whileLoopSat whileLoop.
  - unfold recordValue. simpl. now rewrite Nat.eqb_refl.
  - destruct (bool_decide (i ∈ rem)) eqn:Hin; simp whileLoopSat whileLoop.
    + destruct (Nat.eq_dec u iteration) as [Heq|Hne]; simp whileLoopSat whileLoop.
      * unfold recordValue. cbn [selected core currentCoverage values earlyStopK].
        rewrite length_app. cbn [length].
        destruct (Nat.eqb_spec (length sel + 1) (length sel)); [lia|reflexivity].
      * cbn zeta. erewrite IH; [reflexivity| |reflexivity].
        apply (queueWeight_repush iteration (Entry g u i)). exact Hne.
    + erewrite IH; [reflexivity|apply queueWeight_pop|reflexivity].
Qed.

(** ** The queue holds the remaining items *)

(** Every item that is still to be selected has exactly one entry in the
    queue, and the queue has no other entry. *)
Definition queueCovers (rem : gset nat) (q : list (entry N)) : Prop :=
  List.NoDup (map bestIdx q) /\ forall i, In i (map bestIdx q) <-> i ∈ rem.

Lemma queueCovers_head rem e rest : queueCovers rem (e :: rest) -> bestIdx e ∈ rem.
Proof. intros [_ Hin]. apply Hin. now left. Qed.

Lemma queueCovers_perm rem q q' :
  Permutation (map bestIdx q) (map bestIdx q') -> queueCovers rem q -> queueCovers rem q'.
Proof.
  intros HP [Hnd Hin]. split.
  - eapply Permutation_NoDup; eassumption.
  - intros i. rewrite <- Hin. split; apply Permutation_in; [symmetry|]; assumption.
Qed.

Lemma queueCovers_repush rem e rest g iteration :
  queueCovers rem (e :: rest) ->
  queueCovers rem (sortQueue (rest ++ [Entry g iteration (bestIdx e)])).
Proof.
  apply queueCovers_perm.
  rewrite <- (Permutation_map bestIdx (sortQueue_perm _)).
  rewrite map_app. simpl. apply Permutation_cons_append.
Qed.

Lemma queueCovers_accept rem e rest :
  queueCovers rem (e :: rest) -> queueCovers (rem ∖ {[bestIdx e]}) rest.
Proof.
  intros [Hnd Hin]. simpl in Hnd. inversion Hnd as [|x l Hnotin Hnd' ]; subst.
  split; [assumption|].
  intros i. rewrite elem_of_difference, elem_of_singleton, <- Hin. simpl.
  split.
  - intros Hi. split; [now right|]. intros ->. contradiction.
  - intros [[Heq|Hi] Hne]; [congruence|assumption].
Qed.

Lemma NoDup_app_singleton (l : list nat) x :
  List.NoDup l -> ~ In x l -> List.NoDup (l ++ [x]).
Proof.
  intros Hnd Hx. eapply Permutation_NoDup; [apply Permutation_cons_append|].
  now constructor.
Qed.

(** The facts about a state that do not depend on the numbers in it. *)
Record wellFormed (n : nat) (st : state N) : Prop := {
  wf_nodup : List.NoDup (selected st);
  wf_selected : forall i, In i (selected st) -> i < n;
  wf_remaining : forall i, i ∈ remaining st <-> i < n /\ ~ In i (selected st);
  wf_queue : queueCovers (remaining st) (pq st);
  wf_coverage : length (currentCoverage st) = n
}.

Lemma updateCoverage_length n row cov : length (updateCoverage n row cov) = n.
Proof. unfold updateCoverage. now rewrite length_map, length_seq. Qed.

Lemma wellFormed_accept n sel rem cov e rest row :
  wellFormed n (Build_state sel rem cov (e :: rest)) ->
  wellFormed n (Build_state (sel ++ [bestIdx e]) (rem ∖ {[bestIdx e]})
                            (updateCoverage n row cov) rest).
Proof.
  intros [Hnd Hsel Hrem Hq Hcov]. simpl in *.
  pose proof (queueCovers_head _ _ _ Hq) as Hhead.
  apply Hrem in Hhead as [Hlt Hnotin].
  split; simpl.
  - apply NoDup_app_singleton; assumption.
  - intros i [Hi|[<-|[]]]%in_app_iff; auto.
  - intros i. rewrite elem_of_difference, elem_of_singleton, Hrem, in_app_iff. simpl.
    intuition congruence.
  - now apply queueCovers_accept.
  - apply updateCoverage_length.
Qed.

Lemma initialState_wellFormed n matrix : wellFormed n (initialState n matrix).
Proof.
  split; simpl.
  - constructor.
  - intros i [].
  - intros i. rewrite elem_of_list_to_set, list_elem_of_In, in_seq. simpl.
    intuition lia.
  - unfold initialQueue.
    eapply queueCovers_perm;
      [apply Permutation_map, sortQueue_perm|].
    unfold queueCovers. rewrite map_map. simpl. rewrite map_id. split.
    + apply seq_NoDup.
    + intros i. now rewrite elem_of_list_to_set, list_elem_of_In.
  - apply repeat_length.
Qed.

(** When fewer than [n] items are selected one is left. *)
Lemma missing_index (l : list nat) n :
  List.NoDup l -> length l < n -> exists i, i < n /\ ~ In i l.
Proof.
  intros Hnd Hlen.
  assert (Hdec : (exists i, i < n /\ ~ In i l) \/ (forall i, i < n -> In i l)).
  { clear. induction n as [|n [(i & Hi & Hnot)|Hall]].
    - right. intros i Hi. lia.
    - left. exists i. split; [lia|assumption].
    - destruct (in_dec Nat.eq_dec n l) as [Hin|Hnot].
      + right. intros i Hi. destruct (Nat.eq_dec i n) as [->|]; [assumption|].
        apply Hall. lia.
      + left. exists n. split; [lia|assumption]. }
  destruct Hdec as [|Hall]; [assumption|exfalso].
  assert (Hincl : incl (seq 0 n) l) by (intros i Hi; apply in_seq in Hi; apply Hall; lia).
  apply (NoDup_incl_length (seq_NoDup n 0)) in Hincl.
  rewrite length_seq in Hincl. lia.
Qed.

Lemma remaining_inhabited n st :
  wellFormed n st -> length (selected st) < n -> exists i, i ∈ remaining st.
Proof.
  intros [Hnd _ Hrem _ _] Hlen.
  destruct (missing_index _ _ Hnd Hlen) as [i Hi].
  exists i. now apply Hrem.
Qed.

(** A well-formed state with an item left: the loop accepts the head [e] of
    some queue, at the current epoch. *)
Lemma whileLoop_accepts matrix n iteration st :
  wellFormed n st -> (exists i, i ∈ remaining st) ->
  exists (e : entry N) rest,
    bestIdx e ∈ remaining st /\ lastUpdated e = iteration /\
    whileLoop matrix n iteration st
    = Build_state (selected st ++ [bestIdx e]) (remaining st ∖ {[bestIdx e]})
                  (updateCoverage n (nth (bestIdx e) matrix []) (currentCoverage st))
                  rest /\
    wellFormed n (whileLoop matrix n iteration st).
Proof.
  intros Hwf [i0 Hi0]. destruct st as [sel rem cov q]. simpl in *.
  assert (Hdiscard : forall e rest,
             queueCovers rem (e :: rest) -> bestIdx e ∉ rem -> queueCovers rem rest).
  { intros e rest HP Hnot. exfalso. apply Hnot. eapply queueCovers_head, HP. }
  assert (Hrepush : forall e rest,
             queueCovers rem (e :: rest) -> bestIdx e ∈ rem -> lastUpdated e <> iteration ->
             queueCovers rem
               (sortQueue
                  (rest ++ [Entry (opp (computeMarginalGainDiversity (bestIdx e) cov matrix))
                                  iteration (bestIdx e)]))).
  { intros e rest HP _ _. now apply queueCovers_repush. }
  destruct (whileLoop_rule matrix n iteration (queueCovers rem) sel rem cov
              Hdiscard Hrepush q (wf_queue _ _ Hwf))
    as [[_ Hempty]|(e & rest & HP & Hin & Hep & Heq)].
  - exfalso. apply Hempty in Hi0. destruct Hi0.
  - exists e, rest.
    split; [assumption|]. split; [assumption|]. split; [exact Heq|].
    rewrite Heq. apply wellFormed_accept.
    destruct Hwf as [Hnd Hsel Hrem _ Hcov]. split; assumption.
Qed.

(** In a well-formed state the queue has at most [n] entries, hence a
    weight of at most [2 * n]. *)
Lemma queueWeight_bound n iteration (st : state N) :
  wellFormed n st -> queueWeight iteration (pq st) <= 2 * n.
Proof.
  intros [_ _ Hrem [Hnd Hq] _].
  assert (Hlen : length (pq st) <= n).
  { rewrite <- (length_map bestIdx (pq st)).
    assert (Hincl : incl (map bestIdx (pq st)) (seq 0 n)).
    { intros i Hi. apply in_seq. apply Hq, Hrem in Hi. lia. }
    apply (NoDup_incl_length Hnd) in Hincl. now rewrite length_seq in Hincl. }
  unfold queueWeight.
  pose proof (List.filter_length_le (stale iteration) (pq st)). lia.
Qed.

(** ** The [for] loop of lazyGreedySelection *)

Lemma forLoop_selects matrix n count iteration st :
  wellFormed n st -> length (selected st) = iteration -> iteration + count <= n ->
  wellFormed n (forLoop matrix n count iteration st) /\
  length (selected (forLoop matrix n count iteration st)) = iteration + count.
Proof.
  revert iteration st. induction count as [|count IH]; intros iteration st Hwf Hlen Hle.
  - simpl. split; [assumption|lia].
  - simpl.
    destruct (whileLoop_accepts matrix n iteration st Hwf)
      as (e & rest & _ & _ & Heq & Hwf').
    { apply (remaining_inhabited n); [assumption|lia]. }
    destruct (IH (S iteration) (whileLoop matrix n iteration st)) as [Hwf'' Hlen''];
      [assumption| |lia|].
    + rewrite Heq. simpl. rewrite length_app. simpl. lia.
    + split; [assumption|lia].
Qed.

(** The first statement of the function: [if (k >= n) return [0 .. n-1]]. *)
Lemma lazyGreedySelection_shortcut (embeddings : list (list N)) (k : Z) :
  (Z.of_nat (length embeddings) <=? k)%Z = true ->
  lazyGreedySelection embeddings k = seq 0 (length embeddings).
Proof. intros Hk. unfold lazyGreedySelection. now rewrite Hk. Qed.

(** The passes of the [for] loop compose, and each pass only appends to
    [selected]. *)
Lemma forLoop_add matrix n count1 count2 iteration (st : state N) :
  forLoop matrix n (count1 + count2) iteration st
  = forLoop matrix n count2 (iteration + count1) (forLoop matrix n count1 iteration st).
Proof.
  revert iteration st. induction count1 as [|count1 IH]; intros iteration st; simpl.
  - now rewrite Nat.add_0_r.
  - rewrite IH. f_equal. lia.
Qed.

Lemma forLoop_appends matrix n count iteration (st : state N) :
  exists l, selected (forLoop matrix n count iteration st) = selected st ++ l.
Proof.
  revert iteration st. induction count as [|count IH]; intros iteration st; simpl.
  - exists []. now rewrite app_nil_r.
  - destruct (IH (S iteration) (whileLoop matrix n iteration st)) as [l ->].
    destruct (whileLoop_cases matrix n iteration st) as [->|(e & rest & ->)]; simpl.
    + now exists l.
    + exists (bestIdx e :: l). now rewrite <- app_assoc.
Qed.

(** C7 (amended).  For a non-empty input of [n] embeddings and
    [1 <= k <= n], [lazyGreedySelection] returns exactly [k] indices,
    pairwise distinct, each below [n].  When the loop runs ([k < n]) they
    are in the order of their selection: the result is the array [selected]
    after [k] passes of the [for] loop, pass [iteration] appends the entry
    [iteration] of the result to the entries before it, and a run that
    stops earlier returns a prefix.  For [k = n] the loop does not run: the
    first statement returns the indices in the order [0 .. n-1].  The
    function terminates: it is total, its [while] loop being defined by
    well-founded recursion on [queueWeight], which every pass that stays in
    the loop decreases; the [for] loop makes [k <= n] passes, and the
    [while] loop of each of them is left within [2 * n + 1] passes. *)
Theorem lazyGreedySelection_cardinality (embeddings : list (list N)) (k : Z) :
  (1 <= k <= Z.of_nat (length embeddings))%Z ->
  length (lazyGreedySelection embeddings k) = Z.to_nat k /\
  List.NoDup (lazyGreedySelection embeddings k) /\
  (forall i, In i (lazyGreedySelection embeddings k) -> i < length embeddings) /\
  (forall j, (1 <= j <= k)%Z -> (k < Z.of_nat (length embeddings))%Z ->
     lazyGreedySelection embeddings j
     = firstn (Z.to_nat j) (lazyGreedySelection embeddings k)) /\
  (let n := length embeddings in
   let matrix := similarityMatrix embeddings in
   forall iteration, iteration < Z.to_nat k ->
     let st := forLoop matrix n iteration 0 (initialState n matrix) in
     whilePasses (2 * n + 1) matrix n iteration st
     = Some (whileLoop matrix n iteration st)) /\
  (let n := length embeddings in
   let matrix := similarityMatrix embeddings in
   (k < Z.of_nat n)%Z ->
   lazyGreedySelection embeddings k
   = selected (forLoop matrix n (Z.to_nat k) 0 (initialState n matrix)) /\
   forall iteration, iteration < Z.to_nat k ->
     let st := forLoop matrix n iteration 0 (initialState n matrix) in
     selected st = firstn iteration (lazyGreedySelection embeddings k) /\
     selected (whileLoop matrix n iteration st)
     = selected st ++ [nth iteration (lazyGreedySelection embeddings k) 0]) /\
  (k = Z.of_nat (length embeddings) ->
   lazyGreedySelection embeddings k = seq 0 (length embeddings)).
Proof.
  intros Hk.
  set (n := length embeddings) in *. set (matrix := similarityMatrix embeddings).
  assert (Hrun : forall count, count <= n ->
             wellFormed n (forLoop matrix n count 0 (initialState n matrix)) /\
             length (selected (forLoop matrix n count 0 (initialState n matrix))) = count).
  { intros count Hcount.
    apply (forLoop_selects matrix n count 0); [apply initialState_wellFormed|reflexivity|lia]. }
  assert (Hloop : forall j, (j < Z.of_nat n)%Z ->
             lazyGreedySelection embeddings j
             = selected (forLoop matrix n (Z.to_nat j) 0 (initialState n matrix))).
  { intros j Hj. unfold lazyGreedySelection. fold n matrix.
    destruct (Z.leb_spec (Z.of_nat n) j); [lia|reflexivity]. }
  assert (Hcard : length (lazyGreedySelection embeddings k) = Z.to_nat k /\
                  List.NoDup (lazyGreedySelection embeddings k) /\
                  (forall i, In i (lazyGreedySelection embeddings k) -> i < n)).
  { destruct (Z.le_gt_cases (Z.of_nat n) k) as [Hge|Hlt].
    - rewrite lazyGreedySelection_shortcut by (apply Z.leb_le; exact Hge). fold n.
      assert (Z.to_nat k = n) as -> by lia.
      split; [apply length_seq|]. split; [apply seq_NoDup|].
      intros i Hi. apply in_seq in Hi. lia.
    - rewrite Hloop by lia.
      destruct (Hrun (Z.to_nat k) ltac:(lia)) as [Hwf Hlen].
      split; [exact Hlen|]. split; [apply Hwf|]. apply Hwf. }
  destruct Hcard as (Hlen & Hnodup & Hrange).
  split; [exact Hlen|]. split; [exact Hnodup|]. split; [exact Hrange|].
  split; [|split; [|split]].
  - intros j Hj Hlt. rewrite !Hloop by lia.
    replace (Z.to_nat k) with (Z.to_nat j + (Z.to_nat k - Z.to_nat j)) by lia.
    rewrite forLoop_add.
    destruct (forLoop_appends matrix n (Z.to_nat k - Z.to_nat j) (0 + Z.to_nat j)
                (forLoop matrix n (Z.to_nat j) 0 (initialState n matrix))) as [l ->].
    destruct (Hrun (Z.to_nat j) ltac:(lia)) as [_ Hlenj].
    rewrite firstn_app, Hlenj, Nat.sub_diag, firstn_all2 by lia.
    simpl. now rewrite app_nil_r.
  - cbn zeta. fold n matrix. intros iteration Hit.
    apply whileLoop_passes.
    destruct (Hrun iteration ltac:(lia)) as [Hwf _].
    pose proof (queueWeight_bound n iteration _ Hwf). lia.
  - cbn zeta. fold n matrix. intros Hlt. split; [apply Hloop; exact Hlt|].
    intros iteration Hit. rewrite Hloop by exact Hlt.
    set (st := forLoop matrix n iteration 0 (initialState n matrix)).
    destruct (Hrun iteration ltac:(lia)) as [Hwf Hleni]. fold st in Hwf, Hleni.
    destruct (whileLoop_accepts matrix n iteration st Hwf)
      as (e & rest & _ & _ & Heq & _).
    { apply (remaining_inhabited n); [assumption|lia]. }
    replace (Z.to_nat k) with (iteration + (1 + (Z.to_nat k - S iteration))) by lia.
    rewrite forLoop_add. fold st. rewrite forLoop_add. cbn [forLoop].
    destruct (forLoop_appends matrix n (Z.to_nat k - S iteration) (0 + iteration + 1)
                (whileLoop matrix n (0 + iteration) st)) as [l ->].
    cbn [Nat.add]. rewrite Heq. cbn [selected]. rewrite <- !app_assoc.
    split.
    + rewrite firstn_app, Hleni, Nat.sub_diag, firstn_all2 by lia.
      simpl. now rewrite app_nil_r.
    + rewrite app_nth2 by lia. rewrite Hleni, Nat.sub_diag. reflexivity.
  - intros ->. apply lazyGreedySelection_shortcut. apply Z.leb_refl.
Qed.

(** C5.  With [k >= n] the function returns the indices [0 .. n-1] in
    ascending order, without entering the loop: every index below [n] is in
    the result, once. *)
Theorem lazyGreedySelection_full (embeddings : list (list N)) (k : Z) :
  (Z.of_nat (length embeddings) <= k)%Z ->
  lazyGreedySelection embeddings k = seq 0 (length embeddings) /\
  List.NoDup (lazyGreedySelection embeddings k) /\
  (forall i, In i (lazyGreedySelection embeddings k) <-> i < length embeddings).
Proof.
  intros Hk. rewrite lazyGreedySelection_shortcut by now apply Z.leb_le.
  split; [reflexivity|]. split; [apply seq_NoDup|].
  intros i. rewrite in_seq. lia.
Qed.

Lemma lazyGreedySelection_nonpositive (embeddings : list (list N)) (k : Z) :
  (k <= 0)%Z -> lazyGreedySelection embeddings k = [].
Proof.
  intros Hk. unfold lazyGreedySelection.
  destruct (Z.leb_spec (Z.of_nat (length embeddings)) k) as [Hge|Hlt].
  - assert (length embeddings = 0) as -> by lia. reflexivity.
  - assert (Z.to_nat k = 0) as -> by lia. reflexivity.
Qed.

(** ** The [for] loop of lazyGreedySelectionWithSaturation *)

(** [delta vals t] is [value[t] - value[t-1]] for the [t]-th selection,
    counted from 1: the entries [t-1] and [t-2] of the array. *)
Definition delta (vals : list N) (t : nat) : N :=
  sub (nth (t - 1) vals zero) (nth (t - 2) vals zero).

(** What holds after [iteration] passes of the [for] loop. *)
Record satInvariant (n : nat) (threshold : N) (iteration : nat) (st : satState N)
  : Prop := {
  si_core : wellFormed n (core st);
  si_selected : length (selected (core st)) = iteration;
  si_values : length (values st) = iteration;
  si_before : forall t, 2 <= t -> t < iteration ->
              ltb (delta (values st) t) threshold = false;
  si_last : match earlyStopK st with
            | None => 2 <= iteration -> ltb (delta (values st) iteration) threshold = false
            | Some k => k = iteration /\ 2 <= iteration /\
                        ltb (delta (values st) iteration) threshold = true
            end
}.

Lemma delta_app vals x t : t <= length vals -> 1 <= t -> delta (vals ++ [x]) t = delta vals t.
Proof.
  intros Ht H1. unfold delta.
  destruct (Nat.eq_dec t 1) as [->|Hne].
  - simpl. destruct vals; [simpl in Ht; lia|reflexivity].
  - rewrite !app_nth1 by lia. reflexivity.
Qed.

Lemma whileLoopSat_invariant matrix n threshold iteration st :
  satInvariant n threshold iteration st -> earlyStopK st = None -> iteration < n ->
  satInvariant n threshold (S iteration) (whileLoopSat matrix n iteration threshold st).
Proof.
  intros [Hwf Hsel Hvals Hbefore Hlast] Hnone Hlt.
  rewrite Hnone in Hlast.
  rewrite whileLoopSat_whileLoop.
  destruct (whileLoop_accepts matrix n iteration (core st) Hwf)
    as (e & rest & _ & _ & Heq & Hwf').
  { apply (remaining_inhabited n); [assumption|lia]. }
  assert (Hlen' : length (selected (whileLoop matrix n iteration (core st))) = S iteration).
  { rewrite Heq. simpl. rewrite length_app. simpl. lia. }
  unfold recordValue. rewrite Hlen', Hsel.
  destruct (Nat.eqb_spec (S iteration) iteration) as [|_]; [lia|].
  cbn zeta.
  set (vals' := values st
                ++ [functionValue n
                      (currentCoverage (whileLoop matrix n iteration (core st)))]).
  assert (Hvals' : length vals' = S iteration)
    by (unfold vals'; rewrite length_app; simpl; lia).
  assert (Hbefore' : forall t, 2 <= t -> t < S iteration ->
                          ltb (delta vals' t) threshold = false).
  { intros t H2 Ht. unfold vals'. rewrite delta_app by lia.
    destruct (Nat.eq_dec t iteration) as [->|]; [auto|apply Hbefore; lia]. }
  split; cbn [core values earlyStopK]; try assumption.
  unfold earlyStopAfter. rewrite Hnone, Hvals'.
  destruct (Nat.leb_spec 2 (S iteration)) as [H2|H2].
  - replace (S iteration - 1) with (S iteration - 1) by reflexivity.
    fold (delta vals' (S iteration)).
    destruct (ltb (delta vals' (S iteration)) threshold) eqn:Hd; auto.
  - intros. lia.
Qed.

Lemma forLoopSat_invariant matrix n threshold count iteration st :
  satInvariant n threshold iteration st -> earlyStopK st = None ->
  iteration + count <= n ->
  exists iteration',
    satInvariant n threshold iteration'
      (forLoopSat matrix n threshold count iteration st) /\
    iteration <= iteration' <= iteration + count /\
    (1 <= count -> iteration < iteration') /\
    (earlyStopK (forLoopSat matrix n threshold count iteration st) = None ->
     iteration' = iteration + count).
Proof.
  revert iteration st. induction count as [|count IH]; intros iteration st Hinv Hnone Hle.
  - exists iteration. simpl. split; [assumption|]. repeat split; lia.
  - simpl.
    pose proof (whileLoopSat_invariant matrix n threshold iteration st Hinv Hnone
                  ltac:(lia)) as Hinv'.
    destruct (earlyStopK (whileLoopSat matrix n iteration threshold st)) eqn:Hearly.
    + exists (S iteration). split; [assumption|].
      repeat split; try lia. rewrite Hearly. discriminate.
    + destruct (IH (S iteration) _ Hinv' Hearly ltac:(lia))
        as (it' & Hinv'' & Hle' & _ & Hnone').
      exists it'. split; [assumption|]. repeat split; try lia.
      intros Hn. specialize (Hnone' Hn). lia.
Qed.

Lemma initialSatState_invariant n threshold matrix :
  satInvariant n threshold 0 (initialSatState n matrix).
Proof.
  split; simpl; try reflexivity.
  - apply initialState_wellFormed.
  - intros. lia.
  - intros. lia.
Qed.

(** The shape of the result of [lazyGreedySelectionWithSaturation]: the loop
    stops at the first selection [t >= 2] whose delta is below the
    threshold, or after [n] selections. *)
Lemma saturation_structure (embeddings : list (list N)) (threshold : N) :
  1 <= length embeddings ->
  let r := lazyGreedySelectionWithSaturation embeddings threshold in
  let K := result_optimalK r in
  1 <= K <= length embeddings /\
  length (result_selected r) = K /\
  length (result_values r) = K /\
  List.NoDup (result_selected r) /\
  (forall i, In i (result_selected r) -> i < length embeddings) /\
  (forall t, 2 <= t -> t < K -> ltb (delta (result_values r) t) threshold = false) /\
  ((2 <= K /\ ltb (delta (result_values r) K) threshold = true) \/
   (K = length embeddings /\
    (2 <= K -> ltb (delta (result_values r) K) threshold = false))).
Proof.
  intros Hn. unfold lazyGreedySelectionWithSaturation. cbn zeta.
  set (n := length embeddings) in *.
  set (matrix := similarityMatrix embeddings).
  destruct (forLoopSat_invariant matrix n threshold n 0 (initialSatState n matrix))
    as (it & Hinv & Hle & Hlt & Hnone).
  { apply initialSatState_invariant. }
  { reflexivity. }
  { lia. }
  specialize (Hlt Hn).
  set (st := forLoopSat matrix n threshold n 0 (initialSatState n matrix)) in *.
  destruct Hinv as [Hwf Hsel Hvals Hbefore Hlast].
  cbn [result_optimalK result_selected result_values].
  assert (HK : match earlyStopK st with Some k => k | None => length (values st) end = it).
  { destruct (earlyStopK st); [apply Hlast|assumption]. }
  rewrite HK.
  assert (Hfirst : firstn it (selected (core st)) = selected (core st))
    by (apply firstn_all2; lia).
  rewrite Hfirst.
  split; [lia|]. split; [assumption|]. split; [assumption|].
  split; [apply Hwf|]. split; [apply Hwf|]. split; [assumption|].
  destruct (earlyStopK st) eqn:Hearly.
  - left. destruct Hlast as (_ & H2 & Hd). auto.
  - right. split; [|assumption]. specialize (Hnone eq_refl). lia.
Qed.

(** C2 (amended).  For a non-empty input the saturation loop stops at the
    first selection [t >= 2] whose delta [value[t] - value[t-1]] is below
    the threshold and returns [optimalK = t]; when there is none it makes
    [n] selections and returns [optimalK = n], the number of values
    collected.  In both cases [1 <= optimalK <= n], the selection and the
    trajectory have length [optimalK], and no delta before [optimalK] is
    below the threshold: the test [delta < threshold] is false for it.  This
    holds for every arithmetic, the doubles of the program included, where
    the test is also false for a delta or a threshold that is not a
    number. *)
Theorem saturation_stopping_rule (embeddings : list (list N)) (threshold : N) :
  1 <= length embeddings ->
  let r := lazyGreedySelectionWithSaturation embeddings threshold in
  let K := result_optimalK r in
  1 <= K <= length embeddings /\
  length (result_selected r) = K /\
  length (result_values r) = K /\
  (forall t, 2 <= t -> t < K -> ltb (delta (result_values r) t) threshold = false) /\
  ((2 <= K /\ ltb (delta (result_values r) K) threshold = true) \/
   (K = length embeddings /\
    (2 <= K -> ltb (delta (result_values r) K) threshold = false))).
Proof.
  intros Hn. cbn zeta.
  destruct (saturation_structure embeddings threshold Hn)
    as (HK & Hsel & Hvals & _ & _ & Hbefore & Hlast).
  split; [exact HK|]. split; [exact Hsel|]. split; [exact Hvals|].
  split; [exact Hbefore|exact Hlast].
Qed.

(** ** The checks made by the caller *)

(** [lazyGreedySelection] contains no [throw] and calls nothing that throws:
    what its caller observes is always a returned array. *)
Definition selectFixedK (embeddings : list (list N)) (k : Z) : toolError + list nat :=
  inr (lazyGreedySelection embeddings k).

(** C4 (amended).  An out-of-range [k] is rejected by the caller, not by the
    selection: [deduplicate_strings], given an API key and at least one
    string, answers the error [InvalidK] for [k <= 0] and for [k > n]; the
    function itself returns all [n] indices for [k > n] and the empty
    selection for [k <= 0]. *)
Theorem invalid_k_rejected_by_caller
    (service : list string -> embeddingsReply N) (bearerToken : option string)
    (strings : list string) (embeddings : list (list N)) (k : Z) :
  checkBearerToken bearerToken = None ->
  strings <> [] ->
  (deduplicate_strings service bearerToken strings (Some k)
     = inl (InvalidK k (length strings))
   <-> (k <= 0 \/ Z.of_nat (length strings) < k)%Z) /\
  ((Z.of_nat (length embeddings) < k)%Z ->
   selectFixedK embeddings k = inr (seq 0 (length embeddings))) /\
  ((k <= 0)%Z -> selectFixedK embeddings k = inr []).
Proof.
  intros Htoken Hne. split; [|split].
  - unfold deduplicate_strings. rewrite Htoken.
    destruct strings as [|s0 strings]; [contradiction|].
    cbn [length Nat.eqb].
    destruct ((k <=? 0) || (Z.of_nat (S (length strings)) <? k))%Z eqn:Hinvalid.
    + split; [intros _|reflexivity].
      apply orb_true_iff in Hinvalid as [Hk%Z.leb_le|Hk%Z.ltb_lt]; [left|right]; exact Hk.
    + apply orb_false_iff in Hinvalid as [Hk1%Z.leb_gt Hk2%Z.ltb_ge].
      split; [|lia].
      unfold selectStrings. destruct (service (s0 :: strings)); intros Heq; discriminate Heq.
  - intros Hk. unfold selectFixedK.
    rewrite lazyGreedySelection_shortcut by (apply Z.leb_le; lia). reflexivity.
  - intros Hk. unfold selectFixedK. now rewrite lazyGreedySelection_nonpositive.
Qed.

(** C6 (amended).  An empty input is rejected by the caller, not by the
    selection: [deduplicate_strings], given an API key, answers the error
    [NoStringsProvided] for an empty list of strings, whatever [k] is; the
    function itself returns the empty selection for an empty input. *)
Theorem empty_input_rejected_by_caller
    (service : list string -> embeddingsReply N) (bearerToken : option string)
    (k : option Z) (k' : Z) :
  checkBearerToken bearerToken = None ->
  deduplicate_strings service bearerToken [] k = inl NoStringsProvided /\
  selectFixedK [] k' = inr [].
Proof.
  intros Htoken. split.
  - unfold deduplicate_strings. rewrite Htoken. reflexivity.
  - unfold selectFixedK, lazyGreedySelection. cbn [length].
    destruct (Z.leb_spec (Z.of_nat 0) k'); [reflexivity|].
    replace (Z.to_nat k') with 0 by lia. reflexivity.
Qed.

End Structure.

(** * The program on IEEE-754 doubles *)

Module Float64.

(** The inputs of the concrete scenarios of the specification. *)
Definition scenarioA : list (list float) := [[1; 0]; [1; 0]; [0; 1]; [0; 1]]%float.
Definition scenarioB : list (list float) := [[1; 0]; [1; 0]; [1; 0]]%float.

(** Scenario A: one representative of each of the two pairs is selected. *)
Example scenarioA_selection : lazyGreedySelection scenarioA 2 = [0; 2].
Proof. vm_compute. reflexivity. Qed.

(** The claim C3 as stated fails: in scenario B [optimalK] is not [1]. *)
Lemma scenarioB_optimalK_not_1 :
  result_optimalK (lazyGreedySelectionWithSaturation scenarioB defaultThreshold) <> 1.
Proof. vm_compute. discriminate. Qed.

(** C3 (amended).  For the three identical vectors [[1,0]] and the default
    threshold, the value after the first selection is [1], every item then
    has marginal gain [0], and the test on the delta, which is first made
    at the second selection, stops the loop there: [optimalK] is [2]. *)
Theorem scenarioB_saturation :
  lazyGreedySelectionWithSaturation scenarioB defaultThreshold
  = {| result_selected := [0; 1];
       result_optimalK := 2;
       result_values := [1; 1]%float |} /\
  (let matrix := similarityMatrix scenarioB in
   let coverage := updateCoverage 3 (nth 0 matrix []) (repeat zero 3) in
   functionValue 3 coverage = 1%float /\
   map (fun i => computeMarginalGainDiversity i coverage matrix) [0; 1; 2]
   = [0; 0; 0]%float).
Proof. vm_compute. repeat split. Qed.

(** The claim C4 as stated fails on the function: with [k = n + 1] it
    returns all indices, with [k = 0] the empty selection.  The caller
    compares [k] with the number of strings: when the service answers with
    fewer embeddings than strings, a [k] above the number of embeddings
    passes its check too. *)
Lemma selectFixedK_out_of_range_returns :
  selectFixedK [[1; 0]; [0; 1]]%float 3 = inr [0; 1] /\
  selectFixedK [[1; 0]; [0; 1]]%float 0 = inr [] /\
  deduplicate_strings (fun _ => EmbeddingsOf [[1; 0]; [0; 1]]%float)
    (Some "key"%string) ["a"; "b"; "c"]%string (Some 3%Z)
  = inr [(0, Some "a"%string); (1, Some "b"%string)].
Proof. vm_compute. repeat split. Qed.

(** The claim C6 as stated fails on the function: on the empty input it
    returns the empty selection, for [k] positive, zero or negative.  The
    caller tests the strings: when the service answers with no embedding,
    the empty selection is the answer of the tool. *)
Lemma selectFixedK_empty_returns :
  selectFixedK ([] : list (list float)) 1 = inr [] /\
  selectFixedK ([] : list (list float)) 0 = inr [] /\
  selectFixedK ([] : list (list float)) (-1) = inr [] /\
  deduplicate_strings (fun _ => EmbeddingsOf ([] : list (list float)))
    (Some "key"%string) ["a"]%string (Some 1%Z)
  = inr [].
Proof. vm_compute. repeat split. Qed.

(** Two vectors whose dot product overflows while their squared norms do
    not: their cosine similarity is computed as [infinity]. *)
Definition overflowing : list (list float) :=
  [[0x1.c5b0995297ac5p+511; 0x1.da97b365cc046p+510];
   [0x1.c5b0995297ac6p+511; 0x1.da97b365cc045p+510];
   [1; 0]]%float.


(** The claim C2 as stated fails on doubles.  In [overflowing] every value
    of the trajectory is [infinity] and every delta is not a number: the
    loop makes all [3] selections although no delta is at least the
    threshold.  The same happens on any input when the threshold is not a
    number. *)
Lemma delta_not_at_least_threshold :
  let r := lazyGreedySelectionWithSaturation overflowing defaultThreshold in
  let r' := lazyGreedySelectionWithSaturation scenarioA nan in
  result_optimalK r = 3 /\
  result_values r = [infinity; infinity; infinity] /\
  PrimFloat.leb defaultThreshold (delta (result_values r) 2) = false /\
  result_optimalK r' = 4 /\
  PrimFloat.leb nan (delta (result_values r') 2) = false.
Proof. vm_compute. repeat split. Qed.

(** The claim C7 as stated fails for [k = n]: the indices are then in index
    order, not in the order of their selection.  In scenario A the loop
    selects in the order [0; 2; 3; 1]; with [k = 4] the function returns
    [0; 1; 2; 3], of which its result for [k = 3] is not a prefix. *)
Lemma full_selection_in_index_order :
  let matrix := similarityMatrix scenarioA in
  lazyGreedySelection scenarioA 4 = [0; 1; 2; 3] /\
  selected (forLoop matrix 4 4 0 (initialState 4 matrix)) = [0; 2; 3; 1] /\
  lazyGreedySelection scenarioA 3 = [0; 2; 3] /\
  lazyGreedySelection scenarioA 3 <> firstn 3 (lazyGreedySelection scenarioA 4).
Proof. vm_compute. repeat split. discriminate. Qed.

(** *** The theorems of the control flow, at concrete inputs *)

Lemma lazyGreedySelection_cardinality_witness :
  (1 <= 3 <= Z.of_nat (length scenarioA))%Z /\
  length (lazyGreedySelection scenarioA 3) = 3 /\
  List.NoDup (lazyGreedySelection scenarioA 3).
Proof.
  split; [simpl; lia|].
  split; apply (lazyGreedySelection_cardinality scenarioA 3); simpl; lia.
Defined.

(** Scenario A with the default threshold: the third selection adds
    nothing, and the loop stops there, before the fourth. *)
Lemma saturation_stopping_rule_witness :
  1 <= length scenarioA /\
  result_optimalK (lazyGreedySelectionWithSaturation scenarioA defaultThreshold) = 3 /\
  length (result_selected (lazyGreedySelectionWithSaturation scenarioA defaultThreshold))
  = result_optimalK (lazyGreedySelectionWithSaturation scenarioA defaultThreshold) /\
  forall t, 2 <= t ->
    t < result_optimalK (lazyGreedySelectionWithSaturation scenarioA defaultThreshold) ->
    ltb (delta (result_values
                  (lazyGreedySelectionWithSaturation scenarioA defaultThreshold)) t)
        defaultThreshold = false.
Proof.
  split; [simpl; lia|]. split; [vm_compute; reflexivity|].
  split; apply (saturation_stopping_rule scenarioA defaultThreshold); simpl; lia.
Defined.

Lemma lazyGreedySelection_full_witness :
  (Z.of_nat (length scenarioA) <= 7)%Z /\
  lazyGreedySelection scenarioA 7 = [0; 1; 2; 3].
Proof.
  split; [simpl; lia|].
  apply (lazyGreedySelection_full scenarioA 7). simpl. lia.
Defined.

Lemma invalid_k_rejected_by_caller_witness :
  checkBearerToken (Some "key"%string) = None /\
  ["a"; "b"]%string <> [] /\
  deduplicate_strings (fun _ => EmbeddingsOf scenarioA) (Some "key"%string)
    ["a"; "b"]%string (Some 3%Z)
  = inl (InvalidK 3 2).
Proof.
  split; [reflexivity|]. split; [discriminate|].
  apply (invalid_k_rejected_by_caller (fun _ => EmbeddingsOf scenarioA)
           (Some "key"%string) ["a"; "b"]%string scenarioA 3).
  - reflexivity.
  - discriminate.
  - right. simpl. lia.
Defined.

Lemma empty_input_rejected_by_caller_witness :
  checkBearerToken (Some "key"%string) = None /\
  deduplicate_strings (fun _ => EmbeddingsOf scenarioA) (Some "key"%string) [] (Some 2%Z)
  = inl NoStringsProvided.
Proof.
  split; [reflexivity|].
  apply (empty_input_rejected_by_caller (fun _ => EmbeddingsOf scenarioA)
           (Some "key"%string) (Some 2%Z) 0).
  reflexivity.
Defined.

(** The claim C9 as stated fails on doubles: for [v = [1, 1]] the three sums
    are [2], [Math.sqrt(2) * Math.sqrt(2)] is [2.0000000000000004], and the
    diagonal entry is [0.9999999999999998].  For [v = [2^-600]] the squared
    norm underflows to [0] and the entry is [0]; for [v = [2^600]] it
    overflows, the quotient is not a number and the entry is [0]. *)
Lemma self_similarity_not_1 :
  similarityMatrix [[1; 1]]%float = [[0x1.ffffffffffffep-1]]%float /\
  nth 0 (nth 0 (similarityMatrix [[1; 1]]%float) []) zero <> 1%float /\
  similarityMatrix [[0x1p-600]]%float = [[0]]%float /\
  similarityMatrix [[0x1p+600]]%float = [[0]]%float.
Proof.
  split; [vm_compute; reflexivity|]. split; [|vm_compute; split; reflexivity].
  intros Heq. apply (f_equal (fun x => PrimFloat.eqb x 1)) in Heq.
  vm_compute in Heq. discriminate.
Qed.

(** The claim C10 as stated fails on doubles: for the single embedding
    [[2, 3]] the matrix entry, the coverage and the objective value are
    [1.0000000000000002]. *)
Lemma similarity_above_1 :
  let r := lazyGreedySelectionWithSaturation [[2; 3]]%float defaultThreshold in
  similarityMatrix [[2; 3]]%float = [[0x1.0000000000001p+0]]%float /\
  result_values r = [0x1.0000000000001p+0]%float /\
  ltb 1%float (nth 0 (result_values r) zero) = true.
Proof. vm_compute. repeat split. Qed.

End Float64.

(** * The program in exact arithmetic *)

Module Exact.

Local Open Scope R_scope.

(** ** Comparisons *)

Lemma ltb_lt (x y : R) : ltb x y = true <-> x < y.
Proof.
  cbn [ltb real_number]. unfold Rltb. destruct (Rlt_dec x y); split; auto; discriminate.
Qed.

Lemma ltb_ge (x y : R) : ltb x y = false <-> y <= x.
Proof.
  cbn [ltb real_number]. unfold Rltb.
  destruct (Rlt_dec x y); split; try discriminate; try lra; auto.
Qed.

Lemma gtb_gt (x y : R) : gtb x y = true <-> y < x.
Proof. unfold gtb. apply ltb_lt. Qed.

Lemma gtb_le (x y : R) : gtb x y = false <-> x <= y.
Proof. unfold gtb. apply ltb_ge. Qed.

Lemma eqb_eq (x y : R) : eqb x y = true <-> x = y.
Proof.
  cbn [eqb real_number]. unfold Reqb.
  destruct (Req_dec_T x y); split; auto; discriminate.
Qed.

Lemma eqb_neq (x y : R) : eqb x y = false <-> x <> y.
Proof.
  cbn [eqb real_number]. unfold Reqb.
  destruct (Req_dec_T x y); split; auto; try discriminate. contradiction.
Qed.

(** The operations of the interface are those of [R]. *)
Ltac real_ops :=
  cbn [zero add sub mul div opp sqrt of_nat real_number] in *.

(** Case analysis on the comparisons in the goal. *)
Ltac compare_cases :=
  repeat match goal with
  | |- context [gtb ?x ?y] =>
      let Hc := fresh "Hc" in
      destruct (gtb x y) eqn:Hc; [apply gtb_gt in Hc | apply gtb_le in Hc]
  | |- context [ltb ?x ?y] =>
      let Hc := fresh "Hc" in
      destruct (ltb x y) eqn:Hc; [apply ltb_lt in Hc | apply ltb_ge in Hc]
  end.

(** ** Sums *)

(** The loops of the source that add up one term per index. *)
Definition sumOver (f : nat -> R) (l : list nat) (init : R) : R :=
  fold_left (fun acc i => acc + f i) l init.

Lemma sumOver_le f g l a b :
  (forall i, In i l -> f i <= g i) -> a <= b -> sumOver f l a <= sumOver g l b.
Proof.
  unfold sumOver. revert a b. induction l as [|i l IH]; intros a b Hfg Hab; simpl.
  - exact Hab.
  - apply IH.
    + intros j Hj. apply Hfg. now right.
    + specialize (Hfg i (or_introl eq_refl)). lra.
Qed.

Lemma sumOver_shift f l a : sumOver f l a = a + sumOver f l 0.
Proof.
  unfold sumOver. revert a. induction l as [|i l IH]; intros a; simpl.
  - lra.
  - rewrite IH, (IH (0 + f i)). lra.
Qed.

Lemma sumOver_nonneg f l a :
  (forall i, In i l -> 0 <= f i) -> a <= sumOver f l a.
Proof.
  intros Hf.
  assert (Hzero : sumOver (fun _ => 0) l a = a).
  { unfold sumOver. clear. revert a. induction l as [|i l IH]; intros a; simpl.
    - reflexivity.
    - rewrite IH. lra. }
  rewrite <- Hzero at 1. apply sumOver_le; [assumption|lra].
Qed.

Lemma sumOver_member f l a j :
  (forall i, In i l -> 0 <= f i) -> In j l -> a + f j <= sumOver f l a.
Proof.
  unfold sumOver. revert a. induction l as [|i l IH]; intros a Hf Hj; [destruct Hj|].
  simpl. destruct Hj as [->|Hj].
  - apply (sumOver_nonneg f l (a + f j)). intros i Hi. apply Hf. now right.
  - etransitivity; [|apply IH; [intros k Hk; apply Hf; now right|exact Hj]].
    specialize (Hf i (or_introl eq_refl)). lra.
Qed.

Lemma sumOver_upper f l a c :
  (forall i, In i l -> f i <= c) -> sumOver f l a <= a + c * INR (length l).
Proof.
  unfold sumOver. revert a. induction l as [|i l IH]; intros a Hf.
  - simpl. lra.
  - cbn [fold_left length]. rewrite S_INR.
    etransitivity; [apply IH; intros j Hj; apply Hf; now right|].
    specialize (Hf i (or_introl eq_refl)). lra.
Qed.

(** ** cosineSimilarity: the Cauchy-Schwarz inequality *)

(** The loop of [cosineSimilarity] computes three independent sums. *)
Lemma cosineStep_sums (a b : list R) l d na nb :
  fold_left (cosineStep a b) l (d, na, nb)
  = (sumOver (fun i => nth i a 0 * nth i b 0) l d,
     sumOver (fun i => nth i a 0 * nth i a 0) l na,
     sumOver (fun i => nth i b 0 * nth i b 0) l nb).
Proof.
  unfold sumOver. revert d na nb. induction l as [|i l IH]; intros d na nb; simpl.
  - reflexivity.
  - real_ops. apply IH.
Qed.

Lemma cauchy_schwarz (x y : nat -> R) l d na nb :
  0 <= na -> 0 <= nb -> d * d <= na * nb ->
  sumOver (fun i => x i * y i) l d * sumOver (fun i => x i * y i) l d
  <= sumOver (fun i => x i * x i) l na * sumOver (fun i => y i * y i) l nb.
Proof.
  unfold sumOver. revert d na nb.
  induction l as [|i l IH]; intros d na nb Hna Hnb Hd; simpl.
  - exact Hd.
  - apply IH; try nra.
    destruct (Req_dec_T na 0) as [Hz|Hnz].
    + assert (Hdd : d * d = 0) by (subst na; nra).
      assert (d = 0) by (destruct (Rmult_integral _ _ Hdd); assumption).
      subst. nra.
    + assert (0 < na) by lra.
      assert (0 <= na * (na * (y i * y i) + nb * (x i * x i) - 2 * d * x i * y i)).
      { replace (na * (na * (y i * y i) + nb * (x i * x i) - 2 * d * x i * y i))
          with ((na * y i - d * x i) * (na * y i - d * x i)
                + (na * nb - d * d) * (x i * x i)) by ring.
        apply Rplus_le_le_0_compat; [apply Rle_0_sqr|].
        apply Rmult_le_pos; [lra|apply Rle_0_sqr]. }
      nra.
Qed.

(** The cosine similarity is at most [1]. *)
Lemma cosineSimilarity_le_1 (a b : list R) : cosineSimilarity a b <= 1.
Proof.
  unfold cosineSimilarity.
  destruct (negb (length a =? length b)%nat); [real_ops; lra|].
  rewrite cosineStep_sums.
  set (d := sumOver (fun i => nth i a 0 * nth i b 0) _ _).
  set (na := sumOver (fun i => nth i a 0 * nth i a 0) _ _).
  set (nb := sumOver (fun i => nth i b 0 * nth i b 0) _ _).
  assert (Hna : 0 <= na) by (apply sumOver_nonneg; intros; apply Rle_0_sqr).
  assert (Hnb : 0 <= nb) by (apply sumOver_nonneg; intros; apply Rle_0_sqr).
  assert (Hcs : d * d <= na * nb).
  { apply (cauchy_schwarz (fun i => nth i a 0) (fun i => nth i b 0)); real_ops; lra. }
  destruct (eqb na zero || eqb nb zero) eqn:Hz; [real_ops; lra|].
  apply orb_false_iff in Hz as [Hza%eqb_neq Hzb%eqb_neq]. real_ops.
  assert (Hp : 0 < R_sqrt.sqrt na * R_sqrt.sqrt nb).
  { apply Rmult_lt_0_compat; apply sqrt_lt_R0; lra. }
  apply (Rmult_le_reg_r (R_sqrt.sqrt na * R_sqrt.sqrt nb)); [exact Hp|].
  unfold Rdiv. rewrite Rmult_assoc, Rinv_l by lra. rewrite Rmult_1_r, Rmult_1_l.
  rewrite <- sqrt_mult by assumption.
  destruct (Rle_dec d 0) as [Hneg|Hpos].
  - pose proof (sqrt_pos (na * nb)). lra.
  - rewrite <- (sqrt_square d) by lra. apply sqrt_le_1_alt. exact Hcs.
Qed.

(** A vector with a component that is not zero. *)
Definition nonzero (v : list R) : Prop := Exists (fun x => x <> 0) v.

(** The cosine similarity of a nonzero vector with itself is [1]. *)
Lemma cosineSimilarity_self (v : list R) : nonzero v -> cosineSimilarity v v = 1.
Proof.
  intros Hnz. unfold cosineSimilarity.
  rewrite Nat.eqb_refl. cbn [negb]. rewrite cosineStep_sums.
  set (s := sumOver (fun i => nth i v 0 * nth i v 0) _ _).
  assert (Hs : 0 < s).
  { apply List.Exists_exists in Hnz as (x & Hx & Hx0).
    destruct (In_nth v x 0 Hx) as (i & Hi & Hnth).
    assert (Hin : In i (seq 0 (length v))) by (apply in_seq; lia).
    pose proof (sumOver_member (fun i => nth i v 0 * nth i v 0) _ zero i
                  (fun j _ => Rle_0_sqr (nth j v 0)) Hin) as Hm.
    real_ops. fold s in Hm. rewrite Hnth in Hm.
    assert (0 < x * x) by nra. lra. }
  destruct (eqb s zero || eqb s zero) eqn:Hz.
  - apply orb_true_iff in Hz. real_ops.
    destruct Hz as [Hz%eqb_eq|Hz%eqb_eq]; lra.
  - real_ops. rewrite sqrt_sqrt by lra. field. lra.
Qed.

(** ** The similarity matrix *)

Lemma nth_map_seq {A} (f : nat -> A) n i d :
  (i < n)%nat -> nth i (map f (seq 0 n)) d = f i.
Proof.
  intros Hi. rewrite (nth_indep _ d (f 0%nat)) by now rewrite length_map, length_seq.
  rewrite map_nth, seq_nth by assumption. reflexivity.
Qed.

Lemma similarityMatrix_entry (embeddings : list (list R)) i j :
  (i < length embeddings)%nat -> (j < length embeddings)%nat ->
  nth j (nth i (similarityMatrix embeddings) []) 0
  = let sim := cosineSimilarity (nth i embeddings []) (nth j embeddings []) in
    if gtb sim 0 then sim else 0.
Proof.
  intros Hi Hj. unfold similarityMatrix.
  rewrite nth_map_seq by assumption. rewrite nth_map_seq by assumption.
  reflexivity.
Qed.

Lemma similarityMatrix_length (embeddings : list (list R)) :
  length (similarityMatrix embeddings) = length embeddings.
Proof. unfold similarityMatrix. now rewrite length_map, length_seq. Qed.

(** Every entry of the matrix, and every value read outside of it, lies in
    [[0, 1]]. *)
Lemma similarityMatrix_bounds (embeddings : list (list R)) i j :
  0 <= nth j (nth i (similarityMatrix embeddings) []) 0 <= 1.
Proof.
  destruct (Nat.lt_ge_cases i (length embeddings)) as [Hi|Hi].
  - destruct (Nat.lt_ge_cases j (length embeddings)) as [Hj|Hj].
    + rewrite similarityMatrix_entry by assumption. cbn zeta.
      pose proof (cosineSimilarity_le_1 (nth i embeddings []) (nth j embeddings [])).
      compare_cases; real_ops; lra.
    + rewrite (nth_overflow (nth i _ _)); [lra|].
      unfold similarityMatrix. rewrite nth_map_seq by assumption.
      now rewrite length_map, length_seq.
  - rewrite (nth_overflow (similarityMatrix _)) by now rewrite similarityMatrix_length.
    destruct j; simpl; lra.
Qed.

(** ** Coverage and marginal gain *)

(** The contribution of item [j] to the marginal gain of a row. *)
Definition gainTerm (row cov : list R) (j : nat) : R :=
  (if gtb (nth j row 0) (nth j cov 0) then nth j row 0 else nth j cov 0) - nth j cov 0.

Lemma computeMarginalGainDiversity_sum i (cov : list R) matrix :
  computeMarginalGainDiversity i cov matrix
  = sumOver (gainTerm (nth i matrix []) cov) (seq 0 (length matrix)) 0.
Proof. reflexivity. Qed.

Lemma gainTerm_nonneg row cov j : 0 <= gainTerm row cov j.
Proof. unfold gainTerm. compare_cases; lra. Qed.

(** The terms of the gain shrink when the coverage grows. *)
Lemma gainTerm_antitone row cov cov' j :
  nth j cov 0 <= nth j cov' 0 -> gainTerm row cov' j <= gainTerm row cov j.
Proof. intros Hle. unfold gainTerm. compare_cases; lra. Qed.

(** Submodularity: the marginal gain of an item shrinks when the coverage
    grows. *)
Lemma gain_antitone i (cov cov' : list R) matrix :
  (forall j, (j < length matrix)%nat -> nth j cov 0 <= nth j cov' 0) ->
  computeMarginalGainDiversity i cov' matrix <= computeMarginalGainDiversity i cov matrix.
Proof.
  intros Hle. rewrite !computeMarginalGainDiversity_sum.
  apply sumOver_le; [|lra].
  intros j Hj%in_seq. apply gainTerm_antitone, Hle. lia.
Qed.

Lemma updateCoverage_nth n (row cov : list R) j :
  (j < n)%nat ->
  nth j (updateCoverage n row cov) 0
  = if gtb (nth j row 0) (nth j cov 0) then nth j row 0 else nth j cov 0.
Proof. intros Hj. unfold updateCoverage. now rewrite nth_map_seq. Qed.

(** Monotone coverage: an update only raises entries. *)
Lemma updateCoverage_ge n (row cov : list R) j :
  (j < n)%nat -> nth j cov 0 <= nth j (updateCoverage n row cov) 0.
Proof.
  intros Hj. rewrite updateCoverage_nth by assumption. compare_cases; lra.
Qed.

(** ** The sorted queue *)

(** The queue is in ascending order of [negGain]: the head has the largest
    stored gain. *)
Fixpoint sortedQueue (q : list (entry R)) : Prop :=
  match q with
  | [] => True
  | e :: rest => (forall e', In e' rest -> negGain e <= negGain e') /\ sortedQueue rest
  end.

Lemma insertEntry_sorted (a : entry R) l : sortedQueue l -> sortedQueue (insertEntry a l).
Proof.
  induction l as [|b l IH]; intros Hs.
  - simpl. split; [intros e' []|exact I].
  - cbn [insertEntry]. destruct Hs as [Hb Hs]. unfold compareEntries. real_ops.
    destruct (gtb (negGain a - negGain b) 0) eqn:Hc.
    + apply gtb_gt in Hc. split; [|now apply IH].
      intros e' He'.
      apply (Permutation_in _ (Permutation_sym (insertEntry_perm a l))) in He'.
      destruct He' as [<-|He']; [lra|now apply Hb].
    + apply gtb_le in Hc. split; [|split; assumption].
      intros e' [<-|He']; [lra|].
      specialize (Hb e' He'). lra.
Qed.

Lemma sortQueue_sorted (l : list (entry R)) : sortedQueue (sortQueue l).
Proof.
  induction l as [|a l IH]; simpl; [exact I|]. now apply insertEntry_sorted.
Qed.

Lemma sortQueue_In (l : list (entry R)) e : In e (sortQueue l) <-> In e l.
Proof.
  split; apply Permutation_in; [symmetry|]; apply sortQueue_perm.
Qed.

(** ** Naive greedy selection *)

(** The coverage vector of a selection: the rows of the selected items
    folded into the zero vector, in selection order. *)
Definition coverageOf (matrix : list (list R)) (n : nat) (sel : list nat) : list R :=
  fold_left (fun cov i => updateCoverage n (nth i matrix []) cov) sel (repeat 0 n).

(** The selection of the specification (section 4.3): "select, one at a
    time, the item whose true marginal gain against current coverage is
    currently largest".  Every gain is recomputed against the coverage of
    the items selected so far; among items of largest gain any may be
    taken. *)
Inductive naiveGreedy (matrix : list (list R)) (n : nat) : list nat -> Prop :=
| naive_nil : naiveGreedy matrix n []
| naive_step sel i :
    naiveGreedy matrix n sel ->
    (i < n)%nat -> ~ In i sel ->
    (forall j, (j < n)%nat -> ~ In j sel ->
       computeMarginalGainDiversity j (coverageOf matrix n sel) matrix
       <= computeMarginalGainDiversity i (coverageOf matrix n sel) matrix) ->
    naiveGreedy matrix n (sel ++ [i]).

Lemma coverageOf_snoc matrix n sel i :
  coverageOf matrix n (sel ++ [i])
  = updateCoverage n (nth i matrix []) (coverageOf matrix n sel).
Proof. unfold coverageOf. now rewrite fold_left_app. Qed.


(** ** The invariant of lazy evaluation *)

(** What the lazy loop knows of an entry during iteration [iteration]: the
    stored gain is an upper bound of the true gain against the current
    coverage, and it is the true gain when the epoch is the current one. *)
Definition entryBound (matrix : list (list R)) (iteration : nat) (cov : list R)
    (e : entry R) : Prop :=
  computeMarginalGainDiversity (bestIdx e) cov matrix <= - negGain e /\
  (lastUpdated e <= iteration)%nat /\
  (lastUpdated e = iteration ->
   - negGain e = computeMarginalGainDiversity (bestIdx e) cov matrix).

Definition lazyQueue (matrix : list (list R)) (iteration : nat) (cov : list R)
    (rem : gset nat) (q : list (entry R)) : Prop :=
  queueCovers rem q /\ sortedQueue q /\ forall e, In e q -> entryBound matrix iteration cov e.

Record greedyInvariant (matrix : list (list R)) (n iteration : nat) (st : state R)
  : Prop := {
  gi_wf : wellFormed n st;
  gi_coverage : currentCoverage st = coverageOf matrix n (selected st);
  gi_greedy : naiveGreedy matrix n (selected st);
  gi_queue : lazyQueue matrix iteration (currentCoverage st) (remaining st) (pq st)
}.

Lemma lazyQueue_repush matrix iteration cov rem e rest :
  lazyQueue matrix iteration cov rem (e :: rest) ->
  lazyQueue matrix iteration cov rem
    (sortQueue (rest ++ [Entry (opp (computeMarginalGainDiversity (bestIdx e) cov matrix))
                               iteration (bestIdx e)])).
Proof.
  intros (Hcov & Hsorted & Hbound). split; [|split].
  - now apply queueCovers_repush.
  - apply sortQueue_sorted.
  - intros e' He'. apply sortQueue_In, in_app_iff in He'.
    destruct He' as [He'|[<-|[]]].
    + apply Hbound. now right.
    + unfold entryBound. cbn [negGain lastUpdated bestIdx]. real_ops.
      split; [lra|]. split; [lia|]. intros _. lra.
Qed.

(** The head of the queue, when its epoch is the current one, has the
    largest true gain among the remaining items. *)
Lemma lazyQueue_head_best matrix iteration cov rem e rest j :
  lazyQueue matrix iteration cov rem (e :: rest) ->
  lastUpdated e = iteration -> j ∈ rem ->
  computeMarginalGainDiversity j cov matrix
  <= computeMarginalGainDiversity (bestIdx e) cov matrix.
Proof.
  intros (Hcov & [Hhead _] & Hbound) Hep Hj.
  destruct (Hbound e (or_introl eq_refl)) as (_ & _ & Hexact).
  specialize (Hexact Hep).
  apply Hcov in Hj. simpl in Hj. destruct Hj as [<-|Hj]; [lra|].
  apply in_map_iff in Hj as (e' & <- & He').
  destruct (Hbound e' (or_intror He')) as (Hup & _).
  specialize (Hhead e' He'). lra.
Qed.

(** After the head is accepted the rest of the queue is a lazy queue of the
    next iteration, for the updated coverage. *)
Lemma lazyQueue_accept matrix n iteration cov rem e rest :
  length matrix = n ->
  lazyQueue matrix iteration cov rem (e :: rest) ->
  lazyQueue matrix (S iteration)
    (updateCoverage n (nth (bestIdx e) matrix []) cov) (rem ∖ {[bestIdx e]}) rest.
Proof.
  intros Hn (Hcov & [_ Hsorted] & Hbound). split; [|split].
  - now apply queueCovers_accept.
  - exact Hsorted.
  - intros e' He'. destruct (Hbound e' (or_intror He')) as (Hup & Hle & _).
    split; [|split; [lia|intros; lia]].
    etransitivity; [|exact Hup].
    apply gain_antitone. intros j Hj. apply updateCoverage_ge. lia.
Qed.

Lemma whileLoop_greedy matrix n iteration st :
  length matrix = n ->
  greedyInvariant matrix n iteration st -> (length (selected st) < n)%nat ->
  greedyInvariant matrix n (S iteration) (whileLoop matrix n iteration st).
Proof.
  intros Hn [Hwf Hcov Hgreedy Hq] Hlen.
  destruct st as [sel rem cov q]. cbn [selected remaining currentCoverage pq] in *.
  destruct (remaining_inhabited n _ Hwf Hlen) as [i0 Hi0]. cbn [remaining] in Hi0.
  destruct (whileLoop_rule matrix n iteration (lazyQueue matrix iteration cov rem)
              sel rem cov) with (q := q)
    as [[_ Hempty]|(e & rest & HP & Hin & Hep & Heq)].
  - intros e rest HP Hnot. exfalso. apply Hnot. eapply queueCovers_head, HP.
  - intros e rest HP _ _. now apply lazyQueue_repush.
  - exact Hq.
  - exfalso. destruct Hempty as [[_ Hnone] _]. apply Hnone in Hi0. destruct Hi0.
  - rewrite Heq.
    assert (Hwf' : wellFormed n (Build_state sel rem cov (e :: rest))).
    { destruct Hwf as [H1 H2 H3 _ H5]. split; try assumption. apply HP. }
    pose proof (proj1 (wf_remaining _ _ Hwf (bestIdx e)) Hin) as [Hlt Hnotin].
    cbn [selected] in Hnotin.
    split; cbn [selected remaining currentCoverage pq].
    + now apply wellFormed_accept.
    + rewrite coverageOf_snoc. now rewrite <- Hcov.
    + constructor; try assumption.
      intros j Hj Hjnot. rewrite <- Hcov.
      apply (lazyQueue_head_best matrix iteration cov rem e rest); try assumption.
      apply (wf_remaining _ _ Hwf). split; assumption.
    + now apply lazyQueue_accept.
Qed.

Lemma initialState_greedy matrix n :
  greedyInvariant matrix n 0 (initialState n matrix).
Proof.
  split.
  - apply initialState_wellFormed.
  - reflexivity.
  - constructor.
  - split; [|split].
    + apply (wf_queue _ _ (initialState_wellFormed n matrix)).
    + apply sortQueue_sorted.
    + intros e He. cbn [initialState pq initialQueue] in He.
      apply sortQueue_In, in_map_iff in He as (i & <- & _).
      unfold entryBound. cbn [negGain lastUpdated bestIdx initialState currentCoverage].
      real_ops. split; [lra|]. split; [lia|]. intros _. lra.
Qed.

Lemma forLoop_greedy matrix n count iteration st :
  length matrix = n ->
  greedyInvariant matrix n iteration st -> length (selected st) = iteration ->
  (iteration + count <= n)%nat ->
  greedyInvariant matrix n (iteration + count) (forLoop matrix n count iteration st).
Proof.
  intros Hn. revert iteration st.
  induction count as [|count IH]; intros iteration st Hinv Hlen Hle.
  - simpl. now rewrite Nat.add_0_r.
  - simpl. replace (iteration + S count)%nat with (S iteration + count)%nat by lia.
    apply IH; [|
      destruct (forLoop_selects matrix n 1 iteration st (gi_wf _ _ _ _ Hinv) Hlen
                  ltac:(lia)) as [_ Hlen']; simpl in Hlen'; lia
      |lia].
    apply whileLoop_greedy; [assumption|assumption|lia].
Qed.



(** ** The objective value *)

Lemma sumOver_map f (g : nat -> nat) l a :
  sumOver f (map g l) a = sumOver (fun i => f (g i)) l a.
Proof.
  unfold sumOver. revert a. induction l as [|i l IH]; intros a; simpl; [reflexivity|].
  apply IH.
Qed.

(** The sum of an array is the sum of its entries, by index. *)
Lemma sum_by_index (l : list R) a :
  fold_left (fun sum val => sum + val) l a
  = sumOver (fun j => nth j l 0) (seq 0 (length l)) a.
Proof.
  revert a. induction l as [|x l IH]; intros a.
  - reflexivity.
  - cbn [fold_left length seq]. rewrite <- seq_shift.
    unfold sumOver at 1. cbn [fold_left].
    change (fold_left (fun acc i => acc + nth i (x :: l) 0) (map S (seq 0 (length l)))
              (a + nth 0 (x :: l) 0))
      with (sumOver (fun i => nth i (x :: l) 0) (map S (seq 0 (length l))) (a + x)).
    rewrite sumOver_map. cbn [nth]. apply IH.
Qed.

Lemma functionValue_sum n (cov : list R) :
  functionValue n cov = sumOver (fun j => nth j cov 0) (seq 0 (length cov)) 0 / INR n.
Proof. unfold functionValue. real_ops. now rewrite sum_by_index. Qed.

(** The objective grows with the coverage. *)
Lemma functionValue_le n (cov cov' : list R) :
  length cov = n -> length cov' = n ->
  (forall j, (j < n)%nat -> nth j cov 0 <= nth j cov' 0) ->
  functionValue n cov <= functionValue n cov'.
Proof.
  intros Hlen Hlen' Hle. rewrite !functionValue_sum, Hlen, Hlen'.
  destruct n as [|n].
  - simpl. lra.
  - apply Rmult_le_compat_r.
    + left. apply Rinv_0_lt_compat, lt_0_INR. lia.
    + apply sumOver_le; [|lra]. intros j Hj%in_seq. apply Hle. lia.
Qed.

(** The mean of entries of [[0, 1]] lies in [[0, 1]]. *)
Lemma functionValue_bounds n (cov : list R) :
  length cov = n -> (forall j, 0 <= nth j cov 0 <= 1) ->
  0 <= functionValue n cov <= 1.
Proof.
  intros Hlen Hcov. rewrite functionValue_sum, Hlen.
  destruct n as [|n].
  - simpl. unfold Rdiv. rewrite Rmult_0_l. lra.
  - assert (Hpos : 0 < INR (S n)) by (apply lt_0_INR; lia).
    pose proof (sumOver_nonneg (fun j => nth j cov 0) (seq 0 (S n)) 0
                  (fun j _ => proj1 (Hcov j))) as Hlow.
    pose proof (sumOver_upper (fun j => nth j cov 0) (seq 0 (S n)) 0 1
                  (fun j _ => proj2 (Hcov j))) as Hup.
    rewrite length_seq in Hup.
    split.
    + apply Rmult_le_pos; [exact Hlow|]. left. now apply Rinv_0_lt_compat.
    + apply (Rmult_le_reg_r (INR (S n))); [exact Hpos|].
      unfold Rdiv. rewrite Rmult_assoc, Rinv_l by lra. lra.
Qed.

(** ** The invariant of the trajectory *)

Definition unitInterval (x : R) : Prop := 0 <= x <= 1.

(** The objective values collected so far are in ascending order, none
    exceeds the objective of the current coverage, and values and coverage
    lie in [[0, 1]]. *)
Record trajectoryInvariant (n : nat) (st : satState R) : Prop := {
  ti_length : length (currentCoverage (core st)) = n;
  ti_coverage : forall j, unitInterval (nth j (currentCoverage (core st)) 0);
  ti_ascending : forall t, (S t < length (values st))%nat ->
                 nth t (values st) 0 <= nth (S t) (values st) 0;
  ti_top : forall v, In v (values st) ->
           v <= functionValue n (currentCoverage (core st));
  ti_values : forall v, In v (values st) -> unitInterval v
}.

Lemma updateCoverage_bounds n (row cov : list R) :
  (forall j, unitInterval (nth j row 0)) -> (forall j, unitInterval (nth j cov 0)) ->
  forall j, unitInterval (nth j (updateCoverage n row cov) 0).
Proof.
  intros Hrow Hcov j. destruct (Nat.lt_ge_cases j n) as [Hj|Hj].
  - rewrite updateCoverage_nth by assumption.
    specialize (Hrow j). specialize (Hcov j). unfold unitInterval in *.
    compare_cases; lra.
  - rewrite nth_overflow by (rewrite updateCoverage_length; lia).
    unfold unitInterval. lra.
Qed.

Lemma ascending_snoc (vals : list R) x :
  (forall t, (S t < length vals)%nat -> nth t vals 0 <= nth (S t) vals 0) ->
  (forall v, In v vals -> v <= x) ->
  forall t, (S t < length (vals ++ [x]))%nat ->
            nth t (vals ++ [x]) 0 <= nth (S t) (vals ++ [x]) 0.
Proof.
  intros Hasc Htop t Ht. rewrite length_app in Ht. simpl in Ht.
  rewrite (app_nth1 vals [x] 0 (n := t)) by lia.
  destruct (Nat.eq_dec (S t) (length vals)) as [Heq|Hne].
  - rewrite app_nth2 by lia. rewrite Heq, Nat.sub_diag. simpl.
    apply Htop, nth_In. lia.
  - rewrite app_nth1 by lia. apply Hasc. lia.
Qed.

Lemma whileLoopSat_trajectory matrix n iteration threshold st :
  (forall i j, unitInterval (nth j (nth i matrix []) 0)) ->
  trajectoryInvariant n st ->
  trajectoryInvariant n (whileLoopSat matrix n iteration threshold st).
Proof.
  intros Hmatrix [Hlen Hcov Hasc Htop Hvals].
  rewrite whileLoopSat_whileLoop.
  destruct (whileLoop_cases matrix n iteration (core st)) as [->|(e & rest & ->)];
    unfold recordValue; cbn [selected currentCoverage].
  - rewrite Nat.eqb_refl. split; assumption.
  - rewrite length_app. cbn [length].
    destruct (Nat.eqb_spec (length (selected (core st)) + 1) (length (selected (core st))));
      [lia|].
    set (cov' := updateCoverage n (nth (bestIdx e) matrix []) (currentCoverage (core st))).
    assert (Hlen' : length cov' = n) by apply updateCoverage_length.
    assert (Hcov' : forall j, unitInterval (nth j cov' 0))
      by (apply updateCoverage_bounds; [apply Hmatrix|assumption]).
    assert (Hgrow : functionValue n (currentCoverage (core st)) <= functionValue n cov').
    { apply functionValue_le; try assumption.
      intros j Hj. now apply updateCoverage_ge. }
    split; cbn [core values currentCoverage]; try assumption.
    + apply ascending_snoc; [assumption|].
      intros v Hv. specialize (Htop v Hv). lra.
    + intros v [Hv|[<-|[]]]%in_app_iff; [|lra].
      specialize (Htop v Hv). lra.
    + intros v [Hv|[<-|[]]]%in_app_iff; [now apply Hvals|].
      now apply functionValue_bounds.
Qed.

Lemma forLoopSat_trajectory matrix n threshold count iteration st :
  (forall i j, unitInterval (nth j (nth i matrix []) 0)) ->
  trajectoryInvariant n st ->
  trajectoryInvariant n (forLoopSat matrix n threshold count iteration st).
Proof.
  intros Hmatrix. revert iteration st.
  induction count as [|count IH]; intros iteration st Hinv; simpl; [assumption|].
  pose proof (whileLoopSat_trajectory matrix n iteration threshold st Hmatrix Hinv).
  destruct (earlyStopK _); [assumption|now apply IH].
Qed.

Lemma initialSatState_trajectory n matrix :
  trajectoryInvariant n (initialSatState n matrix).
Proof.
  split; cbn [initialSatState initialState core values currentCoverage].
  - apply repeat_length.
  - intros j. unfold unitInterval. real_ops.
    destruct (Nat.lt_ge_cases j n).
    + rewrite nth_repeat_lt by assumption. lra.
    + rewrite nth_overflow by (rewrite repeat_length; lia). lra.
  - simpl. intros. lia.
  - intros v [].
  - intros v [].
Qed.

(** ** The claims on the values *)

(** In exact arithmetic a delta that is not below the threshold is at least
    the threshold: the saturation loop stops at the first selection
    [t >= 2] whose delta is below the threshold, and every delta before
    [optimalK] is at least the threshold. *)
Lemma saturation_stopping_exact (embeddings : list (list R)) (threshold : R) :
  (1 <= length embeddings)%nat ->
  let r := lazyGreedySelectionWithSaturation embeddings threshold in
  let K := result_optimalK r in
  (1 <= K <= length embeddings)%nat /\
  length (result_selected r) = K /\
  length (result_values r) = K /\
  (forall t, (2 <= t)%nat -> (t < K)%nat -> threshold <= delta (result_values r) t) /\
  (((2 <= K)%nat /\ delta (result_values r) K < threshold) \/
   (K = length embeddings /\
    ((2 <= K)%nat -> threshold <= delta (result_values r) K))).
Proof.
  intros Hn. cbn zeta.
  destruct (saturation_structure embeddings threshold Hn)
    as (HK & Hsel & Hvals & _ & _ & Hbefore & Hlast).
  split; [exact HK|]. split; [exact Hsel|]. split; [exact Hvals|]. split.
  - intros t H2 Ht. apply ltb_ge. now apply Hbefore.
  - destruct Hlast as [[H2 Hd]|[Hall Hd]].
    + left. split; [exact H2|]. now apply ltb_lt.
    + right. split; [exact Hall|]. intros H2. apply ltb_ge. now apply Hd.
Qed.

(** C9 (amended).  In exact arithmetic the cosine similarity of a nonzero
    vector with itself is [1], and so is, after clamping, the diagonal entry
    of the similarity matrix at a nonzero embedding. *)
Theorem exact_self_similarity (v : list R) (embeddings : list (list R)) (i : nat) :
  nonzero v ->
  cosineSimilarity v v = 1 /\
  ((i < length embeddings)%nat -> nth i embeddings [] = v ->
   nth i (nth i (similarityMatrix embeddings) []) 0 = 1).
Proof.
  intros Hv. split; [now apply cosineSimilarity_self|].
  intros Hi Heq. rewrite similarityMatrix_entry by assumption.
  rewrite Heq, cosineSimilarity_self by assumption. cbn zeta.
  compare_cases; lra.
Qed.

(** C10 (amended).  In exact arithmetic every entry of the similarity
    matrix lies in [[0, 1]], and so does every entry of the coverage vector
    after any number of iterations of the saturation loop, and every value
    of the trajectory it returns. *)
Theorem exact_values_in_unit_interval (embeddings : list (list R)) (threshold : R) :
  let matrix := similarityMatrix embeddings in
  let n := length embeddings in
  (forall i j, unitInterval (nth j (nth i matrix []) 0)) /\
  (forall count j,
     unitInterval
       (nth j (currentCoverage
                 (core (forLoopSat matrix n threshold count 0 (initialSatState n matrix))))
            0)) /\
  (forall v, In v (result_values (lazyGreedySelectionWithSaturation embeddings threshold)) ->
             unitInterval v).
Proof.
  intros matrix n.
  assert (Hmatrix : forall i j, unitInterval (nth j (nth i matrix []) 0))
    by (intros i j; apply similarityMatrix_bounds).
  assert (Hrun : forall count,
             trajectoryInvariant n
               (forLoopSat matrix n threshold count 0 (initialSatState n matrix))).
  { intros count. apply forLoopSat_trajectory; [exact Hmatrix|].
    apply initialSatState_trajectory. }
  split; [exact Hmatrix|]. split.
  - intros count j. apply (ti_coverage n _ (Hrun count)).
  - unfold lazyGreedySelectionWithSaturation. cbn [result_values]. fold n matrix.
    apply (ti_values n _ (Hrun n)).
Qed.

(** *** The theorems, at concrete inputs *)

(** Two orthogonal unit vectors. *)
Definition twoAxes : list (list R) := [[1; 0]; [0; 1]].



Lemma exact_self_similarity_witness :
  nonzero [1; 1] /\ nth 0 (nth 0 (similarityMatrix [[1; 1 : R]]) []) 0 = 1.
Proof.
  assert (Hnz : nonzero [1; 1]) by (apply Exists_cons_hd; lra).
  split; [exact Hnz|].
  apply (exact_self_similarity [1; 1] [[1; 1]] 0 Hnz); [simpl; lia|reflexivity].
Defined.

End Exact.

(** * The two selection functions compared *)

Section Composition.
Context {N : Type} `{JsNumber N}.

(** The state of [lazyGreedySelection] after [t] passes of its [for] loop. *)
Definition stateAfter (matrix : list (list N)) (n t : nat) : state N :=
  forLoop matrix n t 0 (initialState n matrix).

(** The coverage vector of a selection: the rows of its items folded, in
    the order of the selection, into the zero vector by the update of the
    source. *)
Definition coverageAfter (matrix : list (list N)) (n : nat) (sel : list nat) : list N :=
  fold_left (fun cov i => updateCoverage n (nth i matrix []) cov) sel (repeat zero n).

(** The facility-location objective of a selection, as the source computes
    it. *)
Definition objective (matrix : list (list N)) (n : nat) (sel : list nat) : N :=
  functionValue n (coverageAfter matrix n sel).

Lemma whileLoop_coverage matrix n iteration (st : state N) :
  currentCoverage st = coverageAfter matrix n (selected st) ->
  currentCoverage (whileLoop matrix n iteration st)
  = coverageAfter matrix n (selected (whileLoop matrix n iteration st)).
Proof.
  intros Hc.
  destruct (whileLoop_cases matrix n iteration st) as [->|(e & rest & ->)];
    cbn [currentCoverage selected]; [exact Hc|].
  unfold coverageAfter. rewrite fold_left_app. cbn [fold_left].
  fold (coverageAfter matrix n (selected st)). now rewrite <- Hc.
Qed.

Lemma forLoop_coverage matrix n count iteration (st : state N) :
  currentCoverage st = coverageAfter matrix n (selected st) ->
  currentCoverage (forLoop matrix n count iteration st)
  = coverageAfter matrix n (selected (forLoop matrix n count iteration st)).
Proof.
  revert iteration st. induction count as [|count IH]; intros iteration st Hc; simpl.
  - exact Hc.
  - apply IH. now apply whileLoop_coverage.
Qed.

Lemma stateAfter_coverage matrix n t :
  currentCoverage (stateAfter matrix n t)
  = coverageAfter matrix n (selected (stateAfter matrix n t)).
Proof. apply forLoop_coverage. reflexivity. Qed.

Lemma stateAfter_selects matrix n t :
  t <= n ->
  wellFormed n (stateAfter matrix n t) /\ length (selected (stateAfter matrix n t)) = t.
Proof.
  intros Ht. apply (forLoop_selects matrix n t 0);
    [apply initialState_wellFormed|reflexivity|lia].
Qed.

Lemma stateAfter_S matrix n t :
  stateAfter matrix n (S t) = whileLoop matrix n t (stateAfter matrix n t).
Proof.
  unfold stateAfter. replace (S t) with (t + 1) by lia.
  rewrite forLoop_add. reflexivity.
Qed.

(** A shorter run selects a prefix of what a longer run selects. *)
Lemma stateAfter_prefix matrix n j c :
  j <= c -> c <= n ->
  selected (stateAfter matrix n j) = firstn j (selected (stateAfter matrix n c)).
Proof.
  intros Hj Hc. unfold stateAfter at 2.
  replace c with (j + (c - j)) by lia. rewrite forLoop_add.
  fold (stateAfter matrix n j).
  destruct (forLoop_appends matrix n (c - j) (0 + j) (stateAfter matrix n j)) as [l ->].
  destruct (stateAfter_selects matrix n j ltac:(lia)) as [_ Hlen].
  rewrite firstn_app, Hlen, Nat.sub_diag, firstn_all2 by lia.
  simpl. now rewrite app_nil_r.
Qed.

(** The objective values of the first [K] states. *)
Definition trajectoryOf (matrix : list (list N)) (n K : nat) : list N :=
  map (fun t => functionValue n (currentCoverage (stateAfter matrix n (S t)))) (seq 0 K).

(** What the saturation loop holds when no early stop was recorded: the
    state of the fixed-K loop after as many passes, and its trajectory. *)
Lemma forLoopSat_trace matrix n threshold count iteration (st : satState N) :
  satInvariant n threshold iteration st -> earlyStopK st = None ->
  iteration + count <= n ->
  core st = stateAfter matrix n iteration ->
  values st = trajectoryOf matrix n iteration ->
  exists iteration',
    satInvariant n threshold iteration'
      (forLoopSat matrix n threshold count iteration st) /\
    iteration' <= n /\
    core (forLoopSat matrix n threshold count iteration st) = stateAfter matrix n iteration' /\
    values (forLoopSat matrix n threshold count iteration st)
    = trajectoryOf matrix n iteration'.
Proof.
  revert iteration st.
  induction count as [|count IH]; intros iteration st Hinv Hnone Hle Hcore Hvals.
  - exists iteration. simpl.
    split; [assumption|]. split; [lia|]. split; assumption.
  - simpl.
    pose proof (whileLoopSat_invariant matrix n threshold iteration st Hinv Hnone
                  ltac:(lia)) as Hinv'.
    assert (Hcore' : core (whileLoopSat matrix n iteration threshold st)
                     = stateAfter matrix n (S iteration)).
    { rewrite whileLoopSat_whileLoop, stateAfter_S, <- Hcore. unfold recordValue.
      destruct (_ =? _); reflexivity. }
    assert (Hvals' : values (whileLoopSat matrix n iteration threshold st)
                     = trajectoryOf matrix n (S iteration)).
    { pose proof (si_values _ _ _ _ Hinv') as Hlen.
      pose proof (si_values _ _ _ _ Hinv) as Hlen0.
      rewrite whileLoopSat_whileLoop in Hlen |- *.
      unfold recordValue in Hlen |- *.
      destruct (_ =? _); cbn [values] in Hlen |- *; [lia|].
      unfold trajectoryOf. rewrite seq_S, map_app. cbn [map Nat.add].
      rewrite stateAfter_S, <- Hcore. f_equal. exact Hvals. }
    destruct (earlyStopK (whileLoopSat matrix n iteration threshold st)) eqn:Hearly.
    + exists (S iteration).
      split; [assumption|]. split; [lia|]. split; assumption.
    + apply (IH (S iteration)); try assumption. lia.
Qed.

(** The result of [lazyGreedySelectionWithSaturation] in terms of the loop
    of [lazyGreedySelection]. *)
Lemma saturation_trace (embeddings : list (list N)) (threshold : N) :
  let n := length embeddings in
  let matrix := similarityMatrix embeddings in
  let r := lazyGreedySelectionWithSaturation embeddings threshold in
  result_optimalK r <= n /\
  result_selected r = selected (stateAfter matrix n (result_optimalK r)) /\
  result_values r = trajectoryOf matrix n (result_optimalK r).
Proof.
  intros n matrix. unfold lazyGreedySelectionWithSaturation. fold n matrix. cbn zeta.
  destruct (forLoopSat_trace matrix n threshold n 0 (initialSatState n matrix))
    as (it & Hinv & Hle & Hcore & Hvals);
    [apply initialSatState_invariant|reflexivity|lia|reflexivity|reflexivity|].
  set (st := forLoopSat matrix n threshold n 0 (initialSatState n matrix)) in *.
  destruct Hinv as [Hwf Hsel Hvalsl Hbefore Hlast].
  cbn [result_optimalK result_selected result_values].
  assert (HK : match earlyStopK st with Some k => k | None => length (values st) end = it).
  { destruct (earlyStopK st); [apply Hlast|assumption]. }
  rewrite HK. split; [exact Hle|]. split; [|exact Hvals].
  rewrite firstn_all2 by lia. now rewrite Hcore.
Qed.

(** X1.  The automatic policy selects what the fixed-K policy selects for
    the [K] it settles on: when [lazyGreedySelectionWithSaturation] returns
    [optimalK = K < n], its selection is the array that
    [lazyGreedySelection(embeddings, K)] returns, in the same order, and it
    is the first [K] entries of what [lazyGreedySelection(embeddings, k)]
    returns for any larger [k < n]. *)
Theorem saturation_agrees_with_fixed_k (embeddings : list (list N)) (threshold : N) (k : Z) :
  let r := lazyGreedySelectionWithSaturation embeddings threshold in
  (Z.of_nat (result_optimalK r) <= k < Z.of_nat (length embeddings))%Z ->
  result_selected r = lazyGreedySelection embeddings (Z.of_nat (result_optimalK r)) /\
  result_selected r = firstn (result_optimalK r) (lazyGreedySelection embeddings k).
Proof.
  intros r Hk.
  destruct (saturation_trace embeddings threshold) as (HK & Hsel & _).
  fold r in HK, Hsel.
  assert (Hloop : forall j, (0 <= j < Z.of_nat (length embeddings))%Z ->
             lazyGreedySelection embeddings j
             = selected (stateAfter (similarityMatrix embeddings) (length embeddings)
                           (Z.to_nat j))).
  { intros j Hj. unfold lazyGreedySelection.
    destruct (Z.leb_spec (Z.of_nat (length embeddings)) j); [lia|reflexivity]. }
  rewrite !Hloop by lia. rewrite Nat2Z.id. split; [exact Hsel|].
  rewrite Hsel. apply stateAfter_prefix; lia.
Qed.

(** X2.  The threshold decides only where the selection stops.  For two
    thresholds on the same embeddings, the result with the smaller
    [optimalK] is the beginning of the other one: the same items in the
    same order, with the same objective values. *)
Theorem threshold_only_cuts (embeddings : list (list N)) (threshold1 threshold2 : N) :
  let r1 := lazyGreedySelectionWithSaturation embeddings threshold1 in
  let r2 := lazyGreedySelectionWithSaturation embeddings threshold2 in
  result_optimalK r1 <= result_optimalK r2 ->
  result_selected r1 = firstn (result_optimalK r1) (result_selected r2) /\
  result_values r1 = firstn (result_optimalK r1) (result_values r2).
Proof.
  intros r1 r2 HK.
  destruct (saturation_trace embeddings threshold1) as (HK1 & Hsel1 & Hvals1).
  destruct (saturation_trace embeddings threshold2) as (HK2 & Hsel2 & Hvals2).
  fold r1 in HK1, Hsel1, Hvals1. fold r2 in HK2, Hsel2, Hvals2.
  rewrite Hsel1, Hsel2, Hvals1, Hvals2. split.
  - apply stateAfter_prefix; lia.
  - unfold trajectoryOf. rewrite List.firstn_map, take_seq.
    now rewrite Nat.min_l by exact HK.
Qed.

(** X3.  The trajectory is the objective of the selection, prefix by
    prefix: the [t]-th value returned by [lazyGreedySelectionWithSaturation]
    is the facility-location objective, as the source computes it, of the
    first [t + 1] selected items.  It holds for the doubles of the program:
    no value is stale or belongs to another selection. *)
Theorem trajectory_values_are_objectives (embeddings : list (list N)) (threshold : N) :
  let n := length embeddings in
  let matrix := similarityMatrix embeddings in
  let r := lazyGreedySelectionWithSaturation embeddings threshold in
  result_values r
  = map (fun t => objective matrix n (firstn (S t) (result_selected r)))
        (seq 0 (result_optimalK r)).
Proof.
  intros n matrix r.
  destruct (saturation_trace embeddings threshold) as (HK & Hsel & Hvals).
  fold n matrix r in HK, Hsel, Hvals.
  rewrite Hvals. unfold trajectoryOf. apply map_ext_in.
  intros t Ht%in_seq. unfold objective.
  rewrite stateAfter_coverage, Hsel.
  now rewrite (stateAfter_prefix matrix n (S t) (result_optimalK r)) by lia.
Qed.

End Composition.

(** * The filter of the parallel tools *)

Section UniqueSearches.
Context {A : Type} (query : A -> string).

(** The test of the filter for the entry [search]. *)
Definition sameQuery (search : A) : A -> bool :=
  fun s => String.eqb (query s) (query search).

Lemma findIndex_bound (p : A -> bool) l i : findIndex p l = Some i -> i < length l.
Proof.
  revert i. induction l as [|x l IH]; intros i; simpl; [discriminate|].
  destruct (p x).
  - intros [= <-]. lia.
  - destruct (findIndex p l) as [j|]; simpl; [|discriminate].
    intros [= <-]. specialize (IH j eq_refl). lia.
Qed.

Lemma findIndex_app (p : A -> bool) pre l :
  findIndex p (pre ++ l)
  = if existsb p pre then findIndex p pre
    else option_map (Nat.add (length pre)) (findIndex p l).
Proof.
  induction pre as [|x pre IH]; simpl.
  - destruct (findIndex p l); reflexivity.
  - destruct (p x); simpl; [reflexivity|]. rewrite IH.
    destruct (existsb p pre); [reflexivity|].
    destruct (findIndex p l); reflexivity.
Qed.

(** An entry passes the filter when no entry before it has its query. *)
Lemma first_index_test pre search suf :
  match findIndex (sameQuery search) (pre ++ search :: suf) with
  | Some first => length pre =? first
  | None => false
  end = negb (existsb (sameQuery search) pre).
Proof.
  rewrite findIndex_app.
  destruct (existsb (sameQuery search) pre) eqn:Hex; simpl.
  - destruct (findIndex (sameQuery search) pre) as [i|] eqn:Hi; [|reflexivity].
    apply findIndex_bound in Hi. apply Nat.eqb_neq. lia.
  - unfold sameQuery at 1. rewrite String.eqb_refl. simpl.
    apply Nat.eqb_eq. lia.
Qed.

(** The filter as one pass over the list that remembers the entries met. *)
Fixpoint keepFirst (pre suf : list A) : list A :=
  match suf with
  | [] => []
  | search :: suf' =>
      if existsb (sameQuery search) pre then keepFirst (pre ++ [search]) suf'
      else search :: keepFirst (pre ++ [search]) suf'
  end.

Lemma filter_keepFirst l pre suf :
  l = pre ++ suf ->
  map snd
    (List.filter
       (fun '(index, search) =>
          match findIndex (fun s => String.eqb (query s) (query search)) l with
          | Some first => index =? first
          | None => false
          end)
       (combine (seq (length pre) (length suf)) suf))
  = keepFirst pre suf.
Proof.
  revert pre. induction suf as [|search suf IH]; intros pre Hl; [reflexivity|].
  cbn [length seq combine List.filter keepFirst].
  pose proof (first_index_test pre search suf) as Htest.
  unfold sameQuery at 1 in Htest. rewrite <- Hl in Htest. rewrite Htest.
  specialize (IH (pre ++ [search])).
  rewrite length_app, Nat.add_1_r in IH.
  destruct (existsb (sameQuery search) pre); cbn [negb map snd];
    rewrite IH by (rewrite <- app_assoc; exact Hl); reflexivity.
Qed.

Lemma uniqueSearches_keepFirst l : uniqueSearches query l = keepFirst [] l.
Proof. unfold uniqueSearches. now apply (filter_keepFirst l []). Qed.

Lemma existsb_sameQuery search l :
  existsb (sameQuery search) l = true <-> In (query search) (map query l).
Proof.
  rewrite existsb_exists, in_map_iff. unfold sameQuery.
  split; intros (s & H1 & H2); exists s.
  - apply String.eqb_eq in H2. auto.
  - split; [assumption|]. now apply String.eqb_eq.
Qed.

(** Where a kept entry comes from. *)
Lemma keepFirst_origin pre suf s :
  In s (keepFirst pre suf) ->
  exists before after,
    suf = before ++ s :: after /\ existsb (sameQuery s) (pre ++ before) = false.
Proof.
  revert pre. induction suf as [|x suf IH]; intros pre; simpl; [intros []|].
  assert (Hlater : In s (keepFirst (pre ++ [x]) suf) ->
            exists before after,
              x :: suf = before ++ s :: after /\
              existsb (sameQuery s) (pre ++ before) = false).
  { intros (before & after & -> & Hex)%IH.
    exists (x :: before), after. split; [reflexivity|].
    now rewrite <- app_assoc in Hex. }
  destruct (existsb (sameQuery x) pre) eqn:Hx; [exact Hlater|].
  intros [<-|Hin]; [|auto].
  exists [], suf. split; [reflexivity|]. now rewrite app_nil_r.
Qed.

Lemma keepFirst_fresh pre suf s :
  In s (keepFirst pre suf) -> ~ In (query s) (map query pre).
Proof.
  intros (before & after & _ & Hex)%keepFirst_origin Hin.
  rewrite existsb_app in Hex. apply orb_false_iff in Hex as [Hex _].
  apply existsb_sameQuery in Hin. congruence.
Qed.

Lemma keepFirst_NoDup pre suf : List.NoDup (map query (keepFirst pre suf)).
Proof.
  revert pre. induction suf as [|x suf IH]; intros pre; simpl; [constructor|].
  destruct (existsb (sameQuery x) pre); [apply IH|].
  cbn [map]. constructor; [|apply IH].
  intros (s & Hq & Hs%keepFirst_fresh)%in_map_iff.
  apply Hs. rewrite map_app, in_app_iff. right. left. now symmetry.
Qed.

Lemma keepFirst_complete pre suf s :
  In s suf -> In (query s) (map query pre) \/ In (query s) (map query (keepFirst pre suf)).
Proof.
  revert pre. induction suf as [|x suf IH]; intros pre; [intros []|].
  intros [->|Hin].
  - simpl. destruct (existsb (sameQuery s) pre) eqn:Hex.
    + left. now apply existsb_sameQuery.
    + right. now left.
  - destruct (IH (pre ++ [x]) Hin) as [Hpre|Hkept].
    + rewrite map_app, in_app_iff in Hpre. destruct Hpre as [Hpre|[Hx|[]]]; [now left|].
      simpl. destruct (existsb (sameQuery x) pre) eqn:Hex.
      * left. rewrite <- Hx. now apply existsb_sameQuery.
      * right. left. exact Hx.
    + right. simpl. destruct (existsb (sameQuery x) pre); [assumption|now right].
Qed.

Lemma keepFirst_In pre suf s : In s (keepFirst pre suf) -> In s suf.
Proof.
  intros (before & after & -> & _)%keepFirst_origin.
  apply in_app_iff. right. now left.
Qed.

Lemma keepFirst_sublist pre suf : sublist (keepFirst pre suf) suf.
Proof.
  revert pre. induction suf as [|x suf IH]; intros pre; simpl; [constructor|].
  destruct (existsb (sameQuery x) pre); [apply sublist_cons|apply sublist_skip]; apply IH.
Qed.

(** A list without two entries of the same query, none of them met before,
    passes the filter as it is. *)
Lemma keepFirst_distinct pre suf :
  List.NoDup (map query (pre ++ suf)) -> keepFirst pre suf = suf.
Proof.
  revert pre. induction suf as [|x suf IH]; intros pre Hnd; [reflexivity|].
  simpl. rewrite IH by now rewrite <- app_assoc.
  destruct (existsb (sameQuery x) pre) eqn:Hex; [|reflexivity].
  exfalso. apply existsb_sameQuery in Hex.
  rewrite map_app in Hnd. apply NoDup_remove_2 in Hnd.
  apply Hnd, in_app_iff. now left.
Qed.

Lemma find_first (p : A -> bool) before s after :
  existsb p before = false -> p s = true -> find p (before ++ s :: after) = Some s.
Proof.
  intros Hex Hp. induction before as [|x before IH]; simpl in *.
  - now rewrite Hp.
  - apply orb_false_iff in Hex as [-> Hex]. now apply IH.
Qed.

(** X4.  The filter of [parallel_search_web], [parallel_search_arxiv] and
    [parallel_read_url] leaves no two entries with the same query (or URL),
    and loses no query: the queries of the entries it keeps are the queries
    of the entries it was given. *)
Theorem uniqueSearches_queries (searches : list A) :
  List.NoDup (map query (uniqueSearches query searches)) /\
  (forall q, In q (map query (uniqueSearches query searches))
             <-> In q (map query searches)).
Proof.
  rewrite uniqueSearches_keepFirst. split; [apply keepFirst_NoDup|].
  intros q. split.
  - intros (s & <- & Hs%keepFirst_In)%in_map_iff. now apply in_map.
  - intros (s & <- & Hs)%in_map_iff.
    destruct (keepFirst_complete [] searches s Hs) as [[]|]; assumption.
Qed.

(** X5.  Of the entries with the same query the filter keeps the first one,
    with the options it carries; the entries that are kept stay in the order
    of the request, and filtering a second time changes nothing. *)
Theorem uniqueSearches_keeps_first (searches : list A) :
  sublist (uniqueSearches query searches) searches /\
  (forall s, In s (uniqueSearches query searches) ->
     find (fun s' => String.eqb (query s') (query s)) searches = Some s) /\
  uniqueSearches query (uniqueSearches query searches) = uniqueSearches query searches.
Proof.
  rewrite !uniqueSearches_keepFirst. split; [apply keepFirst_sublist|]. split.
  - intros s (before & after & -> & Hex)%keepFirst_origin.
    apply (find_first (sameQuery s)); [exact Hex|apply String.eqb_refl].
  - apply keepFirst_distinct. simpl. apply keepFirst_NoDup.
Qed.

End UniqueSearches.

(** * downloadImages *)

Lemma firstn_add {A : Type} (n m : nat) (l : list A) :
  firstn (n + m) l = firstn n l ++ firstn m (skipn n l).
Proof.
  revert l. induction n as [|n IH]; intros l; [reflexivity|].
  destruct l as [|x l]; simpl.
  - now rewrite firstn_nil.
  - now rewrite IH.
Qed.

Lemma firstn_snoc {A : Type} (l : list A) (q : nat) (d : A) :
  q < length l -> firstn (S q) l = firstn q l ++ [nth q l d].
Proof.
  revert q. induction l as [|x l IH]; intros q Hq; [simpl in Hq; lia|].
  destruct q as [|q]; [reflexivity|].
  cbn [firstn nth app]. f_equal. apply IH. simpl in Hq. lia.
Qed.

Lemma processBatch_app fetch first (batch batch' : list string) :
  processBatch fetch first (batch ++ batch')
  = processBatch fetch first batch ++ processBatch fetch (first + length batch) batch'.
Proof.
  unfold processBatch. revert first.
  induction batch as [|u batch IH]; intros first.
  - simpl. now rewrite Nat.add_0_r.
  - cbn [app length seq combine map]. rewrite IH.
    replace (S first + length batch) with (first + S (length batch)) by lia.
    reflexivity.
Qed.

Lemma processBatch_firstn fetch first (batch : list string) k :
  firstn k (processBatch fetch first batch) = processBatch fetch first (firstn k batch).
Proof.
  revert first k. induction batch as [|u batch IH]; intros first k.
  - now rewrite !firstn_nil.
  - destruct k as [|k]; [reflexivity|].
    change (processBatch fetch first (u :: batch))
      with (processImage fetch first u :: processBatch fetch (S first) batch).
    cbn [firstn]. rewrite IH. reflexivity.
Qed.

(** The loop returns the results it was given followed by the results of
    the first [passes * concurrencyLimit] URLs of the queue. *)
Lemma downloadLoop_results passes fetch concurrencyLimit first queue results :
  downloadLoop passes fetch concurrencyLimit first queue results
  = results ++ processBatch fetch first (firstn (passes * concurrencyLimit) queue).
Proof.
  revert first queue results. induction passes as [|passes IH]; intros first queue results.
  - simpl. now rewrite app_nil_r.
  - cbn [downloadLoop]. destruct queue as [|u queue].
    + rewrite firstn_nil. simpl. now rewrite app_nil_r.
    + rewrite IH, <- app_assoc. f_equal.
      rewrite <- processBatch_app. f_equal.
      cbn [Nat.mul]. symmetry. apply firstn_add.
Qed.

Lemma processImage_url fetch i u : url (processImage fetch i u) = u.
Proof.
  unfold processImage. destruct (isSvg u); [reflexivity|].
  destruct (fetch i u); reflexivity.
Qed.

Lemma processBatch_url fetch first (batch : list string) :
  map url (processBatch fetch first batch) = batch.
Proof.
  unfold processBatch. revert first.
  induction batch as [|u batch IH]; intros first; [reflexivity|].
  cbn [length seq combine map]. now rewrite processImage_url, IH.
Qed.

(** X6.  Batching is not visible in the result of [downloadImages].  With
    a concurrency limit of at least [1], when the downloads end before the
    timer the function returns one result per URL, in the order of the
    URLs, whatever the size of the batches; when the timer fires after [b]
    batches it returns the results of the first [b * concurrencyLimit]
    URLs, whole batches only, and nothing for the others. *)
Theorem downloadImages_results fetch (urls : list string) (concurrencyLimit : nat) :
  1 <= concurrencyLimit ->
  downloadImages fetch urls concurrencyLimit None = processBatch fetch 0 urls /\
  map url (downloadImages fetch urls concurrencyLimit None) = urls /\
  (forall b,
     downloadImages fetch urls concurrencyLimit (Some b)
     = firstn (b * concurrencyLimit) (downloadImages fetch urls concurrencyLimit None)).
Proof.
  intros Hlimit.
  assert (Hall : downloadImages fetch urls concurrencyLimit None
                 = processBatch fetch 0 urls).
  { unfold downloadImages. rewrite downloadLoop_results. simpl.
    rewrite firstn_all2 by nia. reflexivity. }
  split; [exact Hall|]. split.
  - rewrite Hall. apply processBatch_url.
  - intros b. rewrite Hall. unfold downloadImages.
    rewrite downloadLoop_results. simpl. now rewrite processBatch_firstn.
Qed.

Lemma downloadImages_results_witness :
  1 <= 3 /\
  map url (downloadImages (fun _ _ => FetchOk "AAAA") ["a"; "b"; "c"; "d"]%string 3 None)
  = ["a"; "b"; "c"; "d"]%string.
Proof.
  split; [lia|].
  apply (downloadImages_results (fun _ _ => FetchOk "AAAA"%string)
           ["a"; "b"; "c"; "d"]%string 3). lia.
Defined.

(** ** The SVG test *)

Lemma toLowerCase_app (a b : string) :
  toLowerCase (a ++ b) = (toLowerCase a ++ toLowerCase b)%string.
Proof. induction a as [|c a IH]; simpl; [reflexivity|now rewrite IH]. Qed.

Lemma string_length_app (a b : string) :
  String.length (a ++ b) = String.length a + String.length b.
Proof. induction a as [|c a IH]; simpl; [reflexivity|now rewrite IH]. Qed.

Lemma substring_whole (p : string) : String.substring 0 (String.length p) p = p.
Proof. induction p as [|c p IH]; simpl; [reflexivity|now rewrite IH]. Qed.

Lemma substring_suffix (a p : string) :
  String.substring (String.length a) (String.length p) (a ++ p) = p.
Proof. induction a as [|c a IH]; simpl; [apply substring_whole|exact IH]. Qed.

Lemma endsWith_app (a p : string) : endsWith (a ++ p) p = true.
Proof.
  unfold endsWith. rewrite string_length_app.
  replace (String.length a + String.length p - String.length p) with (String.length a) by lia.
  rewrite substring_suffix, String.eqb_refl.
  apply andb_true_iff. split; [apply Nat.leb_le; lia|reflexivity].
Qed.

Lemma prefix_app (p b : string) : String.prefix p (p ++ b) = true.
Proof.
  induction p as [|c p IH]; simpl; [now destruct b|].
  destruct (ascii_dec c c); [exact IH|contradiction].
Qed.

Lemma includes_prefix (s p : string) : String.prefix p s = true -> includes s p = true.
Proof. intros Hp. destruct s; cbn [includes]; now rewrite Hp. Qed.

Lemma includes_app (a p b : string) : includes (a ++ p ++ b) p = true.
Proof.
  induction a as [|c a IH].
  - apply includes_prefix. apply (prefix_app p b).
  - change (includes (String c (a ++ p ++ b)) p = true).
    cbn [includes]. rewrite IH. apply orb_true_r.
Qed.

(** The result for a URL that is taken for an SVG image. *)
Definition refused (u : string) : ProcessedImageResult :=
  {| url := u; success := false; data := None; mimeType := "image/jpeg";
     error := Some SvgNotSupported |}.

(** X7.  A URL that ends in [.svg], in any mix of upper and lower case,
    with or without a query string after it, is answered by the error
    [SVG images are not supported for transformation], whatever a request
    to it would return: no request is made for it. *)
Theorem svg_urls_are_refused (fetch : nat -> string -> fetchOutcome) (i : nat)
    (stem extension rest : string) :
  toLowerCase extension = ".svg"%string ->
  processImage fetch i (stem ++ extension) = refused (stem ++ extension) /\
  processImage fetch i (stem ++ extension ++ "?" ++ rest)
  = refused (stem ++ extension ++ "?" ++ rest).
Proof.
  intros Hext. unfold processImage, isSvg. split.
  - rewrite toLowerCase_app, Hext, endsWith_app. reflexivity.
  - rewrite !toLowerCase_app, Hext.
    change (toLowerCase "?" ++ toLowerCase rest)%string
      with (String "?" (toLowerCase rest)).
    change (".svg" ++ String "?" (toLowerCase rest))%string
      with (".svg?" ++ toLowerCase rest)%string.
    rewrite includes_app, orb_true_r. reflexivity.
Qed.

Lemma svg_urls_are_refused_witness :
  toLowerCase ".SVG" = ".svg"%string /\
  processImage (fun _ _ => FetchOk "AAAA") 0 "https://example.com/logo.SVG?v=2"
  = refused "https://example.com/logo.SVG?v=2".
Proof.
  split; [reflexivity|].
  apply (svg_urls_are_refused (fun _ _ => FetchOk "AAAA"%string) 0
           "https://example.com/logo"%string ".SVG"%string "v=2"%string).
  reflexivity.
Defined.
(** * What the two deduplication tools answer *)

Section Answers.
Context {N : Type} `{JsNumber N}.

(** How many passes the [for] loop of [lazyGreedySelection] makes: the
    number of integers [i >= 0] with [i < k], which is [k] rounded up for a
    finite [k > 0], and [0] for a [k] that is not a number. *)
Definition passes (k : number) : nat :=
  match k with
  | Finite value => Z.to_nat (Qceiling value)
  | _ => 0
  end.

Lemma lessThan_passes (i n : nat) (k : number) :
  atMost n k = false -> (lessThan i k = true <-> i < passes k).
Proof.
  destruct k as [|negative|q]; cbn [atMost lessThan passes].
  - intros _. split; [discriminate|lia].
  - destruct negative; [|discriminate]. intros _. split; [discriminate|lia].
  - intros _. rewrite negb_true_iff.
    pose proof (Qle_ceiling q) as Hup. pose proof (Qceiling_lt q) as Hlow.
    destruct (Qle_bool q (inject_Z (Z.of_nat i))) eqn:Hle.
    + apply Qle_bool_iff in Hle. split; [discriminate|]. intros Hi. exfalso.
      assert (Hc : (inject_Z (Z.of_nat i) <= inject_Z (Qceiling q - 1))%Q)
        by (rewrite <- Zle_Qle; lia).
      apply (Qlt_irrefl q).
      eapply Qle_lt_trans; [exact Hle|]. eapply Qle_lt_trans; [exact Hc|exact Hlow].
    + split; [intros _|reflexivity].
      assert (Hlt : (inject_Z (Z.of_nat i) < q)%Q).
      { apply Qnot_le_lt. intros Hq. apply Qle_bool_iff in Hq. congruence. }
      assert (Hc : (inject_Z (Z.of_nat i) < inject_Z (Qceiling q))%Q)
        by (eapply Qlt_le_trans; [exact Hlt|exact Hup]).
      rewrite <- Zlt_Qlt in Hc. lia.
Qed.

Lemma passes_below (n : nat) (k : number) : atMost n k = false -> passes k <= n.
Proof.
  intros Hk. destruct (Nat.le_gt_cases (passes k) n) as [|Hgt]; [assumption|exfalso].
  apply (lessThan_passes n n k Hk) in Hgt.
  destruct k as [|negative|q]; cbn [atMost lessThan] in *; try discriminate.
  - destruct negative; discriminate.
  - apply negb_true_iff in Hgt.
    assert (Hlt : (inject_Z (Z.of_nat n) < q)%Q).
    { apply Qnot_le_lt. intros Hq. apply Qle_bool_iff in Hq. congruence. }
    apply Qlt_le_weak, Qle_bool_iff in Hlt. congruence.
Qed.

(** The [for] loop with the test [iteration < k] makes [passes k] passes.
    It ends by its test: with more fuel than [n] it does the same. *)
Lemma forLoop_passes matrix n (k : number) fuel iteration (st : state N) :
  atMost n k = false -> iteration <= passes k -> passes k - iteration <= fuel ->
  AnyNumber.forLoop matrix n k fuel iteration st
  = forLoop matrix n (passes k - iteration) iteration st.
Proof.
  intros Hk. revert iteration st.
  induction fuel as [|fuel IH]; intros iteration st Hle Hfuel.
  - replace (passes k - iteration) with 0 by lia. reflexivity.
  - cbn [AnyNumber.forLoop].
    destruct (lessThan iteration k) eqn:Hlt.
    + apply (lessThan_passes iteration n k Hk) in Hlt.
      rewrite IH by lia.
      replace (passes k - iteration) with (S (passes k - S iteration)) by lia.
      reflexivity.
    + assert (Hnot : ~ iteration < passes k).
      { intros Hi. apply (lessThan_passes iteration n k Hk) in Hi. congruence. }
      replace (passes k - iteration) with 0 by lia. reflexivity.
Qed.

Lemma forLoop_ends matrix n (k : number) fuel (st : state N) :
  atMost n k = false -> n <= fuel ->
  AnyNumber.forLoop matrix n k fuel 0 st = AnyNumber.forLoop matrix n k n 0 st.
Proof.
  intros Hk Hfuel. pose proof (passes_below n k Hk).
  rewrite !forLoop_passes by (assumption || lia). reflexivity.
Qed.

(** On the integers the function is [lazyGreedySelection] as embedded
    above. *)
Lemma lazyGreedySelection_integer (embeddings : list (list N)) (k : Z) :
  AnyNumber.lazyGreedySelection embeddings (Finite (inject_Z k))
  = lazyGreedySelection embeddings k.
Proof.
  unfold AnyNumber.lazyGreedySelection, lazyGreedySelection. cbn [atMost].
  destruct (Z.leb_spec (Z.of_nat (length embeddings)) k) as [Hge|Hlt].
  - rewrite Zle_Qle in Hge. apply Qle_bool_iff in Hge. now rewrite Hge.
  - destruct (Qle_bool _ _) eqn:Hle.
    + apply Qle_bool_iff in Hle. rewrite <- Zle_Qle in Hle. lia.
    + assert (Hp : passes (Finite (inject_Z k)) = Z.to_nat k)
        by (cbn [passes]; now rewrite Qceiling_Z).
      rewrite forLoop_passes by (rewrite ?Hp; (exact Hle || lia)).
      now rewrite Hp, Nat.sub_0_r.
Qed.

(** [validK n k]: the handler does not reject [k]. *)
Definition validK (n : nat) (k : option number) : Prop :=
  AnyNumber.invalidK n k = false.

(** How many indices are selected: [k] rounded up, none when [k] is not a
    number, or between [1] and [n] when [k] is left out. *)
Definition selectedCount (n : nat) (k : option number) (count : nat) : Prop :=
  match k with
  | Some k' => count = passes k' /\ (k' <> NaN -> 1 <= count <= n)
  | None => 1 <= count <= n
  end.

Lemma selectedIndices_shape (embeddings : list (list N)) (k : option number) :
  1 <= length embeddings -> validK (length embeddings) k ->
  selectedCount (length embeddings) k (length (AnyNumber.selectedIndices embeddings k)) /\
  List.NoDup (AnyNumber.selectedIndices embeddings k) /\
  (forall i, In i (AnyNumber.selectedIndices embeddings k) -> i < length embeddings).
Proof.
  intros Hn Hk. destruct k as [k|];
    cbn [AnyNumber.selectedIndices selectedCount] in *.
  - unfold validK in Hk. cbn [AnyNumber.invalidK] in Hk.
    apply orb_false_iff in Hk as [Hpos Hle].
    unfold AnyNumber.lazyGreedySelection.
    destruct (atMost (length embeddings) k) eqn:Hfull.
    + rewrite length_seq.
      assert (Hq : passes k = length embeddings /\ k <> NaN).
      { destruct k as [|negative|q]; cbn [atMost lessThan passes] in *;
          try discriminate.
        - destruct negative; discriminate.
        - split; [|discriminate]. apply negb_false_iff in Hle.
          apply Qle_bool_iff in Hle, Hfull.
          rewrite (Qceiling_comp q (inject_Z (Z.of_nat (length embeddings))))
            by (now apply Qle_antisym).
          rewrite Qceiling_Z. lia. }
      destruct Hq as [Hq _].
      split; [split; [now rewrite Hq|lia]|]. split; [apply seq_NoDup|].
      intros i Hi%in_seq. lia.
    + pose proof (passes_below _ _ Hfull) as Hbelow.
      rewrite forLoop_passes by (assumption || lia). rewrite Nat.sub_0_r.
      destruct (forLoop_selects (similarityMatrix embeddings) (length embeddings)
                  (passes k) 0 (initialState (length embeddings)
                                  (similarityMatrix embeddings)))
        as [Hwf Hlen]; [apply initialState_wellFormed|reflexivity|lia|].
      cbn [Nat.add] in Hlen.
      split; [|split; apply Hwf].
      split; [exact Hlen|]. intros Hnan. rewrite Hlen. split; [|exact Hbelow].
      apply (lessThan_passes 0 _ k Hfull).
      destruct k as [|negative|q]; cbn [nonPositive lessThan] in *.
      * contradiction.
      * now destruct negative.
      * change (inject_Z (Z.of_nat 0)) with 0%Q. now rewrite Hpos.
  - destruct (saturation_structure embeddings defaultThreshold Hn)
      as (HK & Hlen & _ & Hnd & Hrange & _).
    split; [lia|]. split; assumption.
Qed.

(** X8.  What [deduplicate_strings] answers to a request that passes its
    checks, when the embeddings service returns one embedding per string:
    never an error, but as many items as the loop makes passes.  For a
    given [k] that is [k] rounded up ([k] items when [k] is an integer,
    [2] items for [k = 1.5]) and at least [1] and at most [n], except that
    a [k] that is not a number passes the check and gives no item; with [k]
    left out there are between [1] and [n] items.  Each item has an index
    below [n] and the string of the request at that index, and no index
    occurs twice. *)
Theorem deduplicate_strings_answer
    (service : list string -> embeddingsReply N) (bearerToken : option string)
    (strings : list string) (k : option number) (embeddings : list (list N)) :
  checkBearerToken bearerToken = None ->
  strings <> [] ->
  validK (length strings) k ->
  service strings = EmbeddingsOf embeddings ->
  length embeddings = length strings ->
  exists items,
    AnyNumber.deduplicate_strings service bearerToken strings k = inr items /\
    selectedCount (length strings) k (length items) /\
    List.NoDup (map fst items) /\
    (forall idx text, In (idx, text) items ->
       idx < length strings /\ text = nth_error strings idx /\ text <> None).
Proof.
  intros Htoken Hne Hk Hservice Hlen.
  unfold AnyNumber.deduplicate_strings. rewrite Htoken.
  destruct (Nat.eqb_spec (length strings) 0) as [Hz|_];
    [destruct strings; [contradiction|discriminate]|].
  unfold validK in Hk. rewrite Hk, Hservice.
  destruct (selectedIndices_shape embeddings k) as (Hcount & Hnd & Hrange).
  { rewrite Hlen. destruct strings; [contradiction|simpl; lia]. }
  { unfold validK. now rewrite Hlen. }
  rewrite Hlen in Hcount, Hrange.
  eexists. split; [reflexivity|]. rewrite length_map, map_map. cbn [fst].
  rewrite map_id. split; [exact Hcount|]. split; [exact Hnd|].
  intros idx text (i & [= <- <-] & Hi)%in_map_iff.
  specialize (Hrange i Hi). split; [exact Hrange|]. split; [reflexivity|].
  now apply nth_error_Some.
Qed.

(** ** deduplicate_images *)

Lemma downloadImages_length fetch (urls : list string) timedOutAfter :
  length (downloadImages fetch urls 3 timedOutAfter) <= length urls /\
  (timedOutAfter = None -> length (downloadImages fetch urls 3 timedOutAfter) = length urls).
Proof.
  unfold downloadImages. rewrite downloadLoop_results. cbn [app].
  unfold processBatch. rewrite length_map, length_combine, length_seq, length_firstn.
  split; [lia|]. intros ->. lia.
Qed.

(** The content has at most one item per selected image, and exactly one
    when the downloads end before the timer. *)
Lemma imageContent_items fetch timedOutAfter (images : list string) (sel : list nat) :
  match imageContent fetch timedOutAfter images sel with
  | inr content =>
      1 <= length content <= length sel /\
      (timedOutAfter = None -> length content = length sel)
  | inl e => e = NoImagesToReturn /\ (timedOutAfter = None -> sel = [])
  end.
Proof.
  unfold imageContent.
  set (selectedImages := map (fun idx => (idx, nth_error images idx)) sel).
  set (urlsToDownload :=
         map snd (List.filter (fun image => isHttpUrl (snd image)) selectedImages)).
  set (base64Images :=
         map snd (List.filter (fun image => negb (isHttpUrl (snd image))) selectedImages)).
  set (results := downloadImages fetch
                    (map (fun source => default EmptyString source) urlsToDownload)
                    3 timedOutAfter).
  assert (Hsplit : length urlsToDownload + length base64Images = length sel).
  { unfold urlsToDownload, base64Images. rewrite !length_map.
    rewrite (List.filter_length (fun image => isHttpUrl (snd image)) selectedImages).
    unfold selectedImages. apply length_map. }
  destruct (downloadImages_length fetch
              (map (fun source => default EmptyString source) urlsToDownload) timedOutAfter)
    as [Hle Hall].
  fold results in Hle, Hall. rewrite length_map in Hle, Hall.
  set (downloaded :=
         if length urlsToDownload =? 0 then []
         else map (fun '(i, result) => downloadItem selectedImages urlsToDownload i result)
                  (combine (seq 0 (length results)) results)).
  assert (Hdown : length downloaded <= length urlsToDownload /\
                  (timedOutAfter = None -> length downloaded = length urlsToDownload)).
  { unfold downloaded. destruct (Nat.eqb_spec (length urlsToDownload) 0) as [Hz|Hnz].
    - simpl. lia.
    - rewrite length_map, length_combine, length_seq, Nat.min_id. auto. }
  destruct Hdown as [Hdle Hdall].
  set (content := downloaded
                  ++ map (fun base64Image => ImageItem base64Image "image/jpeg")
                         base64Images).
  assert (Hcontent : length content = length downloaded + length base64Images)
    by (unfold content; now rewrite length_app, length_map).
  destruct (Nat.eqb_spec (length content) 0) as [Hz|Hnz].
  - split; [reflexivity|]. intros Ht. specialize (Hdall Ht).
    apply length_zero_iff_nil. lia.
  - split; [lia|]. intros Ht. specialize (Hdall Ht). lia.
Qed.

(** X9.  What [deduplicate_images] answers to a request that passes its
    checks, when the embeddings service returns one embedding per image.
    When the downloads end before the timer the answer has exactly one item
    per selected image, an image or the text of a failed download: [k]
    rounded up for a given [k] ([k] items when [k] is an integer), or
    between [1] and [n] when [k] is left out; a [k] that is not a number
    passes the check, selects nothing and is answered
    [No images to return after deduplication].  When the timer fires first,
    items are missing, and that error is the only one that can be
    answered. *)
Theorem deduplicate_images_answer
    (service : list string -> embeddingsReply N) (fetch : nat -> string -> fetchOutcome)
    (timedOutAfter : option nat) (bearerToken : option string)
    (images : list string) (k : option number) (embeddings : list (list N)) :
  checkBearerToken bearerToken = None ->
  images <> [] ->
  validK (length images) k ->
  service images = EmbeddingsOf embeddings ->
  length embeddings = length images ->
  (k <> Some NaN ->
   exists content,
     AnyNumber.deduplicate_images service fetch None bearerToken images k = inr content /\
     selectedCount (length images) k (length content) /\
     1 <= length content) /\
  (k = Some NaN ->
   AnyNumber.deduplicate_images service fetch timedOutAfter bearerToken images k
   = inl NoImagesToReturn) /\
  match AnyNumber.deduplicate_images service fetch timedOutAfter bearerToken images k with
  | inr content => 1 <= length content <= length images
  | inl e => e = NoImagesToReturn
  end.
Proof.
  intros Htoken Hne Hk Hservice Hlen.
  assert (Hrun : forall t,
             AnyNumber.deduplicate_images service fetch t bearerToken images k
             = imageContent fetch t images (AnyNumber.selectedIndices embeddings k)).
  { intros t. unfold AnyNumber.deduplicate_images. rewrite Htoken.
    destruct (Nat.eqb_spec (length images) 0) as [Hz|_];
      [destruct images; [contradiction|discriminate]|].
    unfold validK in Hk. now rewrite Hk, Hservice. }
  destruct (selectedIndices_shape embeddings k) as (Hcount & Hnd & Hrange).
  { rewrite Hlen. destruct images; [contradiction|simpl; lia]. }
  { unfold validK. now rewrite Hlen. }
  rewrite Hlen in Hcount.
  assert (Hle : length (AnyNumber.selectedIndices embeddings k) <= length images).
  { rewrite <- Hlen, <- (length_seq (length embeddings) 0).
    apply NoDup_incl_length; [exact Hnd|].
    intros i Hi. apply in_seq. specialize (Hrange i Hi). lia. }
  rewrite !Hrun. split; [|split].
  - intros Hnan.
    assert (Hpos : 1 <= length (AnyNumber.selectedIndices embeddings k)).
    { destruct k as [k|]; cbn [selectedCount] in Hcount; [|lia].
      destruct Hcount as [_ Hc]. apply Hc. congruence. }
    pose proof (imageContent_items fetch None images
                  (AnyNumber.selectedIndices embeddings k)) as Hc.
    destruct (imageContent fetch None images (AnyNumber.selectedIndices embeddings k))
      as [e|content].
    + destruct Hc as [_ Hnil]. rewrite (Hnil eq_refl) in Hpos. simpl in Hpos. lia.
    + exists content. split; [reflexivity|].
      destruct Hc as [_ Hall]. rewrite (Hall eq_refl). split; [exact Hcount|exact Hpos].
  - intros ->. cbn [selectedCount passes] in Hcount. destruct Hcount as [Hzero _].
    apply length_zero_iff_nil in Hzero. rewrite Hzero. reflexivity.
  - pose proof (imageContent_items fetch timedOutAfter images
                  (AnyNumber.selectedIndices embeddings k)) as Hc.
    destruct (imageContent fetch timedOutAfter images
                (AnyNumber.selectedIndices embeddings k)).
    + apply Hc.
    + lia.
Qed.

End Answers.

(** * Symmetry of the similarity matrix *)

Section Symmetry.
Context {N : Type} `{JsNumber N}.

(** The one law of arithmetic that the symmetry needs.  It holds of the
    doubles and of the real numbers. *)
Hypothesis mul_comm : forall x y : N, mul x y = mul y x.

Lemma cosineStep_swap (a b : list N) l dotProduct normA normB :
  fold_left (cosineStep b a) l (dotProduct, normB, normA)
  = let '(d, na, nb) := fold_left (cosineStep a b) l (dotProduct, normA, normB) in
    (d, nb, na).
Proof.
  revert dotProduct normA normB.
  induction l as [|i l IH]; intros dotProduct normA normB; [reflexivity|].
  cbn [fold_left cosineStep]. rewrite (mul_comm (nth i b zero) (nth i a zero)).
  apply IH.
Qed.

Lemma cosineSimilarity_swap (a b : list N) : cosineSimilarity a b = cosineSimilarity b a.
Proof.
  unfold cosineSimilarity. rewrite (Nat.eqb_sym (length b) (length a)).
  destruct (Nat.eqb_spec (length a) (length b)) as [Hlen|_]; [|reflexivity].
  cbn [negb]. rewrite <- Hlen, (cosineStep_swap a b).
  destruct (fold_left (cosineStep a b) (seq 0 (length a)) (zero, zero, zero))
    as [[d na] nb].
  cbv beta iota.
  rewrite (orb_comm (eqb nb zero) (eqb na zero)), (mul_comm (sqrt nb) (sqrt na)).
  reflexivity.
Qed.

Lemma similarityMatrix_at (embeddings : list (list N)) i j :
  i < length embeddings -> j < length embeddings ->
  nth j (nth i (similarityMatrix embeddings) []) zero
  = let sim := cosineSimilarity (nth i embeddings []) (nth j embeddings []) in
    if gtb sim zero then sim else zero.
Proof.
  intros Hi Hj. unfold similarityMatrix.
  rewrite Exact.nth_map_seq by assumption. rewrite Exact.nth_map_seq by assumption.
  reflexivity.
Qed.

Lemma similarityMatrix_outside (embeddings : list (list N)) i j :
  length embeddings <= i \/ length embeddings <= j ->
  nth j (nth i (similarityMatrix embeddings) []) zero = zero.
Proof.
  intros Hout.
  destruct (Nat.lt_ge_cases i (length embeddings)) as [Hi|Hi].
  - destruct Hout as [Hout|Hj]; [lia|].
    apply nth_overflow. unfold similarityMatrix.
    rewrite Exact.nth_map_seq by assumption.
    now rewrite length_map, length_seq.
  - rewrite (nth_overflow (similarityMatrix embeddings))
      by (unfold similarityMatrix; now rewrite length_map, length_seq).
    now destruct j.
Qed.

Lemma similarityMatrix_swap (embeddings : list (list N)) i j :
  nth j (nth i (similarityMatrix embeddings) []) zero
  = nth i (nth j (similarityMatrix embeddings) []) zero.
Proof.
  destruct (Nat.lt_ge_cases i (length embeddings)) as [Hi|Hi];
    [destruct (Nat.lt_ge_cases j (length embeddings)) as [Hj|Hj]|].
  - rewrite !similarityMatrix_at by assumption. cbn zeta.
    now rewrite cosineSimilarity_swap.
  - rewrite !similarityMatrix_outside by auto. reflexivity.
  - rewrite !similarityMatrix_outside by auto. reflexivity.
Qed.

End Symmetry.

(** * Rounding is monotone

    The sum and the quotient of doubles are the sum and the quotient of the
    real numbers they stand for, rounded to nearest, ties to even
    ([SFadd], [SFdiv] and [binary_round_aux] of the specification of the
    primitive floats).  This module proves, from these definitions, that
    rounding is monotone, hence that [+] and [/] are monotone on the doubles
    that are not negative. *)

Module Rounding.

Local Open Scope R_scope.

(** ** Powers of two *)

(** [2^e] for an integer [e], as a real number. *)
Definition bpow (e : Z) : R := powerRZ 2 e.

Lemma bpow_pos e : 0 < bpow e.
Proof. apply powerRZ_lt. lra. Qed.

Lemma bpow_add a b : bpow (a + b) = bpow a * bpow b.
Proof. apply powerRZ_add. lra. Qed.

Lemma bpow_Z k : (0 <= k)%Z -> bpow k = IZR (2 ^ k).
Proof.
  intros Hk. unfold bpow. rewrite <- (Z2Nat.id k) by exact Hk.
  rewrite <- pow_powerRZ, pow_IZR. reflexivity.
Qed.

Lemma bpow_le a b : (a <= b)%Z -> bpow a <= bpow b.
Proof.
  intros Hab. replace b with (a + (b - a))%Z by lia.
  rewrite bpow_add, (bpow_Z (b - a)) by lia.
  assert (1 <= IZR (2 ^ (b - a))) by (apply IZR_le; pose proof (Z.pow_pos_nonneg 2 (b - a)); lia).
  pose proof (bpow_pos a). nra.
Qed.

Lemma bpow_lt a b : (a < b)%Z -> bpow a < bpow b.
Proof.
  intros Hab. replace b with (a + (b - a))%Z by lia.
  rewrite bpow_add, (bpow_Z (b - a)) by lia.
  assert (2 <= IZR (2 ^ (b - a))).
  { apply IZR_le. replace (b - a)%Z with (Z.succ (b - a - 1)) by lia.
    rewrite Z.pow_succ_r by lia. pose proof (Z.pow_pos_nonneg 2 (b - a - 1)). lia. }
  pose proof (bpow_pos a). nra.
Qed.

Lemma bpow_succ e : bpow (e + 1) = 2 * bpow e.
Proof. rewrite bpow_add. change (bpow 1) with (2 * 1). lra. Qed.

(** The real number [m * 2^e] that a mantissa [m] and an exponent [e] stand
    for. *)
Definition F2R (m e : Z) : R := IZR m * bpow e.

(** Shifting the mantissa. *)
Lemma F2R_shift m e k : (0 <= k)%Z -> F2R (m * 2 ^ k) (e - k) = F2R m e.
Proof.
  intros Hk. unfold F2R. rewrite mult_IZR, <- bpow_Z by exact Hk.
  replace e with ((e - k) + k)%Z at 2 by lia. rewrite bpow_add. lra.
Qed.

Lemma F2R_align m e e' : (e' <= e)%Z -> F2R (m * 2 ^ (e - e')) e' = F2R m e.
Proof.
  intros He. rewrite <- (F2R_shift m e (e - e')) by lia. f_equal. lia.
Qed.

Lemma F2R_lt_reg m m' e : F2R m e < F2R m' e -> (m < m')%Z.
Proof.
  unfold F2R. intros Hlt. apply lt_IZR. pose proof (bpow_pos e). nra.
Qed.

Lemma F2R_le_reg m m' e : F2R m e <= F2R m' e -> (m <= m')%Z.
Proof.
  unfold F2R. intros Hlt. apply le_IZR. pose proof (bpow_pos e). nra.
Qed.

Lemma F2R_le m m' e : (m <= m')%Z -> F2R m e <= F2R m' e.
Proof.
  unfold F2R. intros Hle%IZR_le. pose proof (bpow_pos e). nra.
Qed.

(** ** Digits *)

Lemma digits2_pos_bounds p :
  (2 ^ (Z.pos (digits2_pos p) - 1) <= Z.pos p < 2 ^ Z.pos (digits2_pos p))%Z.
Proof.
  induction p as [p IH|p IH|]; cbn [digits2_pos].
  - rewrite Pos2Z.inj_succ.
    replace (Z.succ (Z.pos (digits2_pos p)) - 1)%Z with (Z.succ (Z.pos (digits2_pos p) - 1)) by lia.
    rewrite !Z.pow_succ_r by lia. lia.
  - rewrite Pos2Z.inj_succ.
    replace (Z.succ (Z.pos (digits2_pos p)) - 1)%Z with (Z.succ (Z.pos (digits2_pos p) - 1)) by lia.
    rewrite !Z.pow_succ_r by lia. lia.
  - simpl. lia.
Qed.

Lemma Zdigits2_bounds m :
  (0 < m)%Z -> (2 ^ (Zdigits2 m - 1) <= m < 2 ^ Zdigits2 m)%Z /\ (1 <= Zdigits2 m)%Z.
Proof.
  destruct m as [|p|p]; try lia. intros _. cbn [Zdigits2].
  split; [apply digits2_pos_bounds|lia].
Qed.

Lemma Zdigits2_unique m d :
  (2 ^ (d - 1) <= m < 2 ^ d)%Z -> (1 <= d)%Z -> Zdigits2 m = d.
Proof.
  intros Hm Hd.
  assert (Hpos : (0 < m)%Z) by (pose proof (Z.pow_pos_nonneg 2 (d - 1)); lia).
  destruct (Zdigits2_bounds m Hpos) as [Hb H1].
  destruct (Z.lt_trichotomy (Zdigits2 m) d) as [Hlt|[Heq|Hgt]]; [exfalso|exact Heq|exfalso].
  - assert (2 ^ Zdigits2 m <= 2 ^ (d - 1))%Z by (apply Z.pow_le_mono_r; lia). lia.
  - assert (2 ^ d <= 2 ^ (Zdigits2 m - 1))%Z by (apply Z.pow_le_mono_r; lia). lia.
Qed.

Lemma Zdigits2_nonneg m : (0 <= m)%Z -> (0 <= Zdigits2 m)%Z.
Proof. destruct m; simpl; lia. Qed.

Lemma Zdigits2_shift m k :
  (0 < m)%Z -> (0 <= k)%Z -> Zdigits2 (m * 2 ^ k) = (Zdigits2 m + k)%Z.
Proof.
  intros Hm Hk. destruct (Zdigits2_bounds m Hm) as [Hb H1].
  apply Zdigits2_unique; [|lia].
  replace (Zdigits2 m + k - 1)%Z with ((Zdigits2 m - 1) + k)%Z by lia.
  rewrite !Z.pow_add_r by lia.
  pose proof (Z.pow_pos_nonneg 2 k). nia.
Qed.

Lemma Zdigits2_le m m' : (0 <= m <= m')%Z -> (Zdigits2 m <= Zdigits2 m')%Z.
Proof.
  intros Hm. destruct (Z.eq_dec m 0%Z) as [->|Hne].
  - apply Zdigits2_nonneg. lia.
  - destruct (Zdigits2_bounds m ltac:(lia)) as [Hb H1].
    destruct (Zdigits2_bounds m' ltac:(lia)) as [Hb' H1'].
    destruct (Z.le_gt_cases (Zdigits2 m) (Zdigits2 m')) as [|Hgt]; [assumption|exfalso].
    assert (2 ^ Zdigits2 m' <= 2 ^ (Zdigits2 m - 1))%Z by (apply Z.pow_le_mono_r; lia). lia.
Qed.

(** The value of a positive mantissa lies in the binade of its digits. *)
Lemma F2R_digits m e :
  (0 < m)%Z -> bpow (Zdigits2 m - 1 + e) <= F2R m e < bpow (Zdigits2 m + e).
Proof.
  intros Hm. destruct (Zdigits2_bounds m Hm) as [[Hlow Hup] H1].
  unfold F2R. rewrite !bpow_add, (bpow_Z (Zdigits2 m - 1)), (bpow_Z (Zdigits2 m)) by lia.
  apply IZR_le in Hlow. apply IZR_lt in Hup. pose proof (bpow_pos e). split.
  - apply Rmult_le_compat_r; lra.
  - apply Rmult_lt_compat_r; lra.
Qed.


(** ** Locations *)

(** The exponent that binary64 gives to a number below [2^e]: [prec] is
    [53] and [emax] is [1024]. *)
Local Abbreviation fexp := (SpecFloat.fexp prec emax).

Lemma fexp_eq e : fexp e = Z.max (e - 53) (-1074).
Proof. reflexivity. Qed.

(** [located x m e l]: the real number [x] lies in the interval
    [[m * 2^e, (m+1) * 2^e)], at the place that [l] names. *)
Definition located (x : R) (m e : Z) (l : location) : Prop :=
  match l with
  | loc_Exact => x = F2R m e
  | loc_Inexact c =>
      F2R m e < x < F2R (m + 1) e /\
      match c with
      | Lt => x < (IZR m + / 2) * bpow e
      | Eq => x = (IZR m + / 2) * bpow e
      | Gt => (IZR m + / 2) * bpow e < x
      end
  end.

Lemma located_bounds x m e l : located x m e l -> F2R m e <= x < F2R (m + 1) e.
Proof.
  unfold F2R. rewrite plus_IZR. pose proof (bpow_pos e).
  destruct l as [|c]; cbn [located]; unfold F2R; rewrite ?plus_IZR.
  - intros ->. nra.
  - intros [Hx _]. lra.
Qed.

Lemma loc_of_shr_record_of_loc m l :
  loc_of_shr_record (shr_record_of_loc m l) = l /\ shr_m (shr_record_of_loc m l) = m.
Proof. destruct l as [|[]]; split; reflexivity. Qed.


Lemma shr_1_located x mrs e :
  (0 <= shr_m mrs)%Z -> located x (shr_m mrs) e (loc_of_shr_record mrs) ->
  (0 <= shr_m (shr_1 mrs))%Z /\
  located x (shr_m (shr_1 mrs)) (e + 1) (loc_of_shr_record (shr_1 mrs)).
Proof.
  destruct mrs as [m r s]. cbn [shr_m]. intros Hm.
  pose proof (bpow_pos e) as Hb.
  destruct m as [|p|p]; [|destruct p as [p|p|]|lia];
    destruct r, s; cbn [shr_1 orb shr_m loc_of_shr_record located];
    intros Hx; (split; [lia|]); revert Hx;
    unfold F2R; rewrite bpow_succ;
    repeat match goal with
    | |- context [Z.pos (?q~1)] => is_var q; rewrite (Pos2Z.inj_xI q)
    | |- context [Z.pos (?q~0)] => is_var q; rewrite (Pos2Z.inj_xO q)
    end;
    rewrite ?plus_IZR, ?mult_IZR;
    intros Hx; repeat split; nra.
Qed.

Lemma iter_shr_located p : forall x mrs e,
  (0 <= shr_m mrs)%Z -> located x (shr_m mrs) e (loc_of_shr_record mrs) ->
  (0 <= shr_m (SpecFloat.iter_pos shr_1 p mrs))%Z /\
  located x (shr_m (SpecFloat.iter_pos shr_1 p mrs)) (e + Z.pos p)
    (loc_of_shr_record (SpecFloat.iter_pos shr_1 p mrs)).
Proof.
  induction p as [p IH|p IH|]; intros x mrs e Hm Hx; cbn [SpecFloat.iter_pos].
  - destruct (shr_1_located x mrs e Hm Hx) as [Hm1 Hx1].
    destruct (IH x _ _ Hm1 Hx1) as [Hm2 Hx2].
    destruct (IH x _ _ Hm2 Hx2) as [Hm3 Hx3].
    split; [exact Hm3|].
    replace (e + Z.pos p~1)%Z with (e + 1 + Z.pos p + Z.pos p)%Z by lia. exact Hx3.
  - destruct (IH x _ _ Hm Hx) as [Hm2 Hx2].
    destruct (IH x _ _ Hm2 Hx2) as [Hm3 Hx3].
    split; [exact Hm3|].
    replace (e + Z.pos p~0)%Z with (e + Z.pos p + Z.pos p)%Z by lia. exact Hx3.
  - now apply shr_1_located.
Qed.

Lemma shr_1_digits mrs :
  Zdigits2 (shr_m (shr_1 mrs)) = Z.max 0 (Zdigits2 (shr_m mrs) - 1).
Proof.
  destruct mrs as [m r s]. destruct m as [|p|p]; [reflexivity| |];
    destruct p; cbn [shr_1 shr_m Zdigits2 digits2_pos]; lia.
Qed.

Lemma iter_shr_digits p : forall mrs,
  Zdigits2 (shr_m (SpecFloat.iter_pos shr_1 p mrs)) = Z.max 0 (Zdigits2 (shr_m mrs) - Z.pos p).
Proof.
  induction p as [p IH|p IH|]; intros mrs; cbn [SpecFloat.iter_pos].
  - rewrite !IH, shr_1_digits. lia.
  - rewrite !IH. lia.
  - apply shr_1_digits.
Qed.

(** A mantissa at the exponent that the format gives to its magnitude. *)
Definition canonical (m e : Z) : Prop := e = fexp (Zdigits2 m + e).

(** The first shift of [binary_round_aux] brings a located number to the
    exponent of the format, when it is given at a finer one. *)
Lemma shr_fexp_canonical x m e l :
  (0 <= m)%Z -> located x m e l -> (e <= fexp (Zdigits2 m + e))%Z ->
  (0 <= shr_m (fst (shr_fexp prec emax m e l)))%Z /\
  located x (shr_m (fst (shr_fexp prec emax m e l))) (snd (shr_fexp prec emax m e l))
    (loc_of_shr_record (fst (shr_fexp prec emax m e l))) /\
  canonical (shr_m (fst (shr_fexp prec emax m e l))) (snd (shr_fexp prec emax m e l)).
Proof.
  intros Hm Hx He. unfold shr_fexp, shr.
  destruct (loc_of_shr_record_of_loc m l) as [Hl Hsm].
  destruct (fexp (Zdigits2 m + e) - e)%Z as [|p|p] eqn:Hn; cbn [fst snd].
  - rewrite Hl, Hsm. split; [exact Hm|]. split; [exact Hx|]. unfold canonical. lia.
  - destruct (iter_shr_located p x (shr_record_of_loc m l) e) as [Hm' Hx'];
      [now rewrite Hsm|now rewrite Hl, Hsm|].
    split; [exact Hm'|]. split; [exact Hx'|].
    unfold canonical. rewrite iter_shr_digits, Hsm.
    pose proof (Zdigits2_nonneg m Hm). rewrite fexp_eq in *. lia.
  - lia.
Qed.


(** ** The order of canonical mantissas *)

Lemma canonical_digits m e : (0 <= m)%Z -> canonical m e ->
  (Zdigits2 m <= 53)%Z /\ (-1074 <= e)%Z /\ ((-1074 < e)%Z -> Zdigits2 m = 53%Z).
Proof. unfold canonical. rewrite fexp_eq. lia. Qed.

Lemma F2R_succ_le_bpow m e : (0 <= m)%Z -> F2R (m + 1) e <= bpow (Zdigits2 m + e).
Proof.
  intros Hm. destruct (Z.eq_dec m 0%Z) as [->|Hne].
  - unfold F2R. change (Zdigits2 0 + e)%Z with e. change (0 + 1)%Z with 1%Z. lra.
  - destruct (Zdigits2_bounds m ltac:(lia)) as [[_ Hup] H1].
    unfold F2R. rewrite bpow_add, (bpow_Z (Zdigits2 m)) by lia.
    apply Rmult_le_compat_r; [left; apply bpow_pos|]. apply IZR_le. lia.
Qed.

(** The exponents of two canonical mantissas are in the order of the
    numbers they approximate from below. *)
Lemma canonical_exponent_le x x' m e m' e' :
  (0 <= m)%Z -> (0 <= m')%Z -> canonical m e -> canonical m' e' ->
  F2R m e <= x -> x' < F2R (m' + 1) e' -> x <= x' -> (e <= e')%Z.
Proof.
  intros Hm Hm' Hc Hc' Hx Hx' Hle.
  destruct (Z.le_gt_cases e e') as [|Hgt]; [assumption|exfalso].
  destruct (canonical_digits m e Hm Hc) as (_ & _ & Hd).
  destruct (canonical_digits m' e' Hm' Hc') as (Hd' & He' & _).
  specialize (Hd ltac:(lia)).
  assert (Hpos : (0 < m)%Z) by (destruct m; simpl in Hd; lia).
  pose proof (proj1 (F2R_digits m e Hpos)) as Hlow. rewrite Hd in Hlow.
  pose proof (F2R_succ_le_bpow m' e' Hm') as Hup.
  pose proof (bpow_le (Zdigits2 m' + e') (53 - 1 + e) ltac:(lia)). lra.
Qed.

(** ** Rounding to nearest, ties to even *)

Lemma round_nearest_even_cases m l :
  round_nearest_even m l = m \/ round_nearest_even m l = (m + 1)%Z.
Proof. destruct l as [|[]]; cbn; try destruct (Z.even m); auto. Qed.

Lemma round_nearest_even_location x x' m e l l' :
  located x m e l -> located x' m e l' -> x <= x' ->
  (round_nearest_even m l <= round_nearest_even m l')%Z.
Proof.
  pose proof (bpow_pos e) as Hb.
  destruct l as [|[]], l' as [|[]]; cbn [located round_nearest_even];
    unfold F2R; rewrite ?plus_IZR; intros Hx Hx' Hle;
    try destruct (Z.even m); try lia; exfalso; nra.
Qed.

Lemma rounded_value_mono x x' m e l m' e' l' :
  (0 <= m)%Z -> (0 <= m')%Z -> located x m e l -> located x' m' e' l' ->
  canonical m e -> canonical m' e' -> x <= x' ->
  F2R (round_nearest_even m l) e <= F2R (round_nearest_even m' l') e'.
Proof.
  intros Hm Hm' Hx Hx' Hc Hc' Hle.
  pose proof (located_bounds _ _ _ _ Hx) as [Hlow Hup].
  pose proof (located_bounds _ _ _ _ Hx') as [Hlow' Hup'].
  pose proof (canonical_exponent_le x x' m e m' e' Hm Hm' Hc Hc' Hlow Hup' Hle) as He.
  destruct (Z.eq_dec e e') as [<-|Hne].
  - apply F2R_le.
    assert (Hmm : (m <= m')%Z) by (apply Z.lt_succ_r, (F2R_lt_reg _ _ e); unfold Z.succ; lra).
    destruct (Z.eq_dec m m') as [<-|Hlt].
    + now apply (round_nearest_even_location x x' m e).
    + destruct (round_nearest_even_cases m l), (round_nearest_even_cases m' l'); lia.
  - destruct (canonical_digits m e Hm Hc) as (Hd & Hmin & _).
    destruct (canonical_digits m' e' Hm' Hc') as (_ & _ & Hd').
    specialize (Hd' ltac:(lia)).
    assert (Hpos' : (0 < m')%Z) by (destruct m'; simpl in Hd'; lia).
    pose proof (proj1 (F2R_digits m' e' Hpos')) as Hbig. rewrite Hd' in Hbig.
    pose proof (F2R_succ_le_bpow m e Hm) as Hsmall.
    pose proof (bpow_le (Zdigits2 m + e) (53 - 1 + e') ltac:(lia)).
    assert (F2R (round_nearest_even m l) e <= F2R (m + 1) e)
      by (apply F2R_le; destruct (round_nearest_even_cases m l); lia).
    assert (F2R m' e' <= F2R (round_nearest_even m' l') e')
      by (apply F2R_le; destruct (round_nearest_even_cases m' l'); lia).
    lra.
Qed.

(** ** The end of binary_round_aux *)

(** [binary_round_aux] from the rounded mantissa on: the second shift and
    the test for overflow. *)
Definition finish (m1 e : Z) : spec_float :=
  let '(mrs, e') := shr_fexp prec emax m1 e loc_Exact in
  match shr_m mrs with
  | Z0 => S754_zero false
  | Zpos m => if (e' <=? emax - prec)%Z then S754_finite false m e' else S754_infinity false
  | Zneg _ => S754_nan
  end.

Lemma binary_round_aux_finish m e l :
  binary_round_aux prec emax false m e l
  = finish (round_nearest_even (shr_m (fst (shr_fexp prec emax m e l)))
                               (loc_of_shr_record (fst (shr_fexp prec emax m e l))))
           (snd (shr_fexp prec emax m e l)).
Proof.
  unfold binary_round_aux, finish. destruct (shr_fexp prec emax m e l). reflexivity.
Qed.

(** What a float that is not negative is worth: [outcome v r] reads
    "the float [r] stands for the real number [v]", and the infinity stands
    for every number from [2^emax] on. *)
Inductive outcome (v : R) : spec_float -> Prop :=
| outcome_zero : v = 0 -> outcome v (S754_zero false)
| outcome_finite m e :
    v = F2R (Z.pos m) e -> bounded prec emax m e = true ->
    outcome v (S754_finite false m e)
| outcome_infinity : bpow 1024 <= v -> outcome v (S754_infinity false).

Lemma bounded_canonical m e :
  bounded prec emax m e = true <-> canonical (Z.pos m) e /\ (e <= 971)%Z.
Proof.
  unfold bounded, canonical_mantissa, canonical. cbn [Zdigits2].
  rewrite andb_true_iff, Z.eqb_eq, Z.leb_le. change (emax - prec)%Z with 971%Z.
  intuition congruence.
Qed.

Lemma bounded_below_overflow m e :
  bounded prec emax m e = true -> F2R (Z.pos m) e < bpow 1024.
Proof.
  intros [Hc He]%bounded_canonical.
  destruct (canonical_digits _ _ (Pos2Z.is_nonneg m) Hc) as (Hd & _).
  pose proof (proj2 (F2R_digits (Z.pos m) e ltac:(lia))) as Hup.
  pose proof (bpow_le (Zdigits2 (Z.pos m) + e) 1024 ltac:(lia)). lra.
Qed.

Lemma iter_shr_zero p mrs : shr_m mrs = 0%Z -> shr_m (SpecFloat.iter_pos shr_1 p mrs) = 0%Z.
Proof.
  intros Hz. pose proof (iter_shr_digits p mrs) as Hd. rewrite Hz in Hd.
  cbn [Zdigits2] in Hd.
  destruct (shr_m (SpecFloat.iter_pos shr_1 p mrs)); [reflexivity| |]; simpl in Hd; lia.
Qed.

Lemma F2R_pow2 k e : (0 <= k)%Z -> F2R (2 ^ k) e = bpow (k + e).
Proof. intros Hk. unfold F2R. now rewrite bpow_add, (bpow_Z k Hk). Qed.

(** The rounded mantissa [m1] of a canonical mantissa [m] is [m] or
    [m + 1]; what [finish] returns stands for [m1 * 2^e]. *)
Lemma finish_outcome m m1 e :
  (0 <= m)%Z -> canonical m e -> m1 = m \/ m1 = (m + 1)%Z ->
  outcome (F2R m1 e) (finish m1 e).
Proof.
  intros Hm Hc Hm1.
  destruct (canonical_digits m e Hm Hc) as (Hd & Hmin & Hnormal).
  destruct (Z.eq_dec m1 0%Z) as [->|Hne].
  { assert (Hfin : finish 0 e = S754_zero false).
    { unfold finish, shr_fexp, shr. cbn [Zdigits2 shr_record_of_loc].
      destruct (fexp (0 + e) - e)%Z; try reflexivity.
      now rewrite iter_shr_zero. }
    rewrite Hfin. constructor. unfold F2R. simpl. lra. }
  assert (Hpos : (0 < m1)%Z) by lia.
  assert (Hcases : Zdigits2 m1 = Zdigits2 m \/
                   (m1 = (2 ^ Zdigits2 m)%Z /\ Zdigits2 m1 = (Zdigits2 m + 1)%Z)).
  { destruct (Z.eq_dec m 0%Z) as [->|Hmne].
    - right. assert (m1 = 1%Z) as -> by lia. split; reflexivity.
    - destruct (Zdigits2_bounds m ltac:(lia)) as [[Hlow Hup] H1].
      destruct (Z.eq_dec m1 (2 ^ Zdigits2 m)%Z) as [Heq|Hlt].
      + right. split; [exact Heq|]. apply Zdigits2_unique; [|lia].
        replace (Zdigits2 m + 1 - 1)%Z with (Zdigits2 m) by lia.
        rewrite Heq, Z.pow_add_r by lia. lia.
      + left. apply Zdigits2_unique; lia. }
  assert (Hsame : Zdigits2 m1 = Zdigits2 m \/ (Zdigits2 m1 <= 53 /\ e = -1074)%Z ->
                  outcome (F2R m1 e) (finish m1 e)).
  { intros Hd1.
    assert (Hc1 : canonical m1 e) by (unfold canonical in *; rewrite fexp_eq in *; lia).
    unfold finish, shr_fexp, shr. rewrite <- Hc1, Z.sub_diag. cbn [shr_record_of_loc shr_m].
    destruct m1 as [|p1|p1]; try lia.
    change (emax - prec)%Z with 971%Z.
    destruct (Z.leb_spec e 971) as [He|He].
    - apply outcome_finite; [reflexivity|]. apply bounded_canonical. now split.
    - apply outcome_infinity.
      assert (Hd1' : Zdigits2 (Z.pos p1) = 53%Z) by (unfold canonical in Hc1; rewrite fexp_eq in Hc1; lia).
      pose proof (proj1 (F2R_digits (Z.pos p1) e ltac:(lia))) as Hlow. rewrite Hd1' in Hlow.
      pose proof (bpow_le 1024 (53 - 1 + e) ltac:(lia)). lra. }
  destruct Hcases as [Heq|[Hpow Hd1]]; [apply Hsame; now left|].
  destruct (Z.eq_dec (Zdigits2 m) 53%Z) as [H53|Hsub];
    [|apply Hsame; right; specialize (Hnormal); lia].
  rewrite H53 in Hpow. subst m1.
  unfold finish, shr_fexp, shr.
  change (Zdigits2 (2 ^ 53)) with 54%Z. rewrite fexp_eq.
  replace (Z.max (54 + e - 53) (-1074) - e)%Z with 1%Z by lia.
  cbn [shr_record_of_loc]. change (2 ^ 53)%Z with 9007199254740992%Z.
  cbn [SpecFloat.iter_pos shr_1 shr_m orb].
  change (emax - prec)%Z with 971%Z.
  assert (Hval : F2R 9007199254740992 e = F2R 4503599627370496 (e + 1)).
  { change 9007199254740992%Z with (2 ^ 53)%Z. change 4503599627370496%Z with (2 ^ 52)%Z.
    rewrite !F2R_pow2 by lia. f_equal. lia. }
  destruct (Z.leb_spec (e + 1) 971) as [He|He].
  - apply outcome_finite; [exact Hval|]. apply bounded_canonical. split; [|exact He].
    unfold canonical. change (Zdigits2 4503599627370496) with 53%Z. rewrite fexp_eq. lia.
  - apply outcome_infinity. change 9007199254740992%Z with (2 ^ 53)%Z.
    rewrite F2R_pow2 by lia. apply bpow_le. lia.
Qed.

(** ** The order of floats and the order of the numbers they stand for *)

Lemma finite_compare m e m' e' :
  bounded prec emax m e = true -> bounded prec emax m' e' = true ->
  (SFleb (S754_finite false m e) (S754_finite false m' e') = true
   <-> F2R (Z.pos m) e <= F2R (Z.pos m') e').
Proof.
  intros [Hc He]%bounded_canonical [Hc' He']%bounded_canonical.
  pose proof (Pos2Z.is_nonneg m) as Hm. pose proof (Pos2Z.is_nonneg m') as Hm'.
  assert (Hup : forall n k, F2R (Z.pos n) k < F2R (Z.pos n + 1) k).
  { intros n k. unfold F2R. rewrite plus_IZR. pose proof (bpow_pos k). nra. }
  unfold SFleb. cbn [SFcompare].
  destruct (Z.compare_spec e e') as [<-|Hlt|Hgt].
  - change (PosDef.Pos.compare_cont Eq m m') with (Pos.compare m m').
    destruct (Pos.compare_spec m m') as [<-|Hmm|Hmm].
    + split; [intros _; lra|reflexivity].
    + split; [intros _|reflexivity]. apply F2R_le. lia.
    + split; [discriminate|]. intros Hle%F2R_le_reg. lia.
  - split; [intros _|reflexivity].
    destruct (Rle_or_lt (F2R (Z.pos m) e) (F2R (Z.pos m') e')) as [|Hcontra]; [assumption|exfalso].
    pose proof (canonical_exponent_le (F2R (Z.pos m') e') (F2R (Z.pos m') e')
                  (Z.pos m') e' (Z.pos m) e Hm' Hm Hc' Hc (Rle_refl _)) as Hex.
    specialize (Hex ltac:(specialize (Hup m e); lra) (Rle_refl _)). lia.
  - split; [discriminate|]. intros Hle. exfalso.
    pose proof (canonical_exponent_le (F2R (Z.pos m) e) (F2R (Z.pos m') e')
                  (Z.pos m) e (Z.pos m') e' Hm Hm' Hc Hc' (Rle_refl _) (Hup m' e') Hle). lia.
Qed.

Lemma outcome_le v v' r r' :
  outcome v r -> outcome v' r' -> v <= v' -> SFleb r r' = true.
Proof.
  intros [Hv|m e Hv Hb|Hv] [Hv'|m' e' Hv' Hb'|Hv'] Hle; try reflexivity.
  - exfalso.
    assert (0 < F2R (Z.pos m) e)
      by (unfold F2R; apply Rmult_lt_0_compat; [apply IZR_lt; lia|apply bpow_pos]).
    lra.
  - apply (finite_compare m e m' e' Hb Hb'). lra.
  - exfalso. pose proof (bpow_pos 1024). lra.
  - exfalso. pose proof (bounded_below_overflow m' e' Hb'). lra.
Qed.


(** ** Rounding a real number *)

(** [rounds x r]: [r] is what [binary_round_aux] makes of the real number
    [x >= 0]: [x] is located at the exponent of the format, the mantissa is
    rounded to nearest, ties to even, and the end of [binary_round_aux]
    makes the float. *)
Definition rounds (x : R) (r : spec_float) : Prop :=
  exists m e l, (0 <= m)%Z /\ located x m e l /\ canonical m e /\
                r = finish (round_nearest_even m l) e.

(** What [rounds x r] gives, on the numbers: [r] stands for a number [v],
    and [x -> v] is monotone. *)
Lemma rounds_outcome x r : rounds x r -> exists v, outcome v r.
Proof.
  intros (m & e & l & Hm & Hx & Hc & ->). eexists.
  apply (finish_outcome m); [assumption|assumption|apply round_nearest_even_cases].
Qed.

(** Rounding is monotone. *)
Lemma rounds_le x x' r r' : rounds x r -> rounds x' r' -> x <= x' -> SFleb r r' = true.
Proof.
  intros (m & e & l & Hm & Hx & Hc & ->) (m' & e' & l' & Hm' & Hx' & Hc' & ->) Hle.
  eapply outcome_le.
  - apply (finish_outcome m); [assumption|assumption|apply round_nearest_even_cases].
  - apply (finish_outcome m'); [assumption|assumption|apply round_nearest_even_cases].
  - now apply (rounded_value_mono x x').
Qed.

Lemma binary_round_aux_rounds x m e l :
  (0 <= m)%Z -> located x m e l -> (e <= fexp (Zdigits2 m + e))%Z ->
  rounds x (binary_round_aux prec emax false m e l).
Proof.
  intros Hm Hx He. rewrite binary_round_aux_finish.
  destruct (shr_fexp_canonical x m e l Hm Hx He) as (Hm' & Hx' & Hc').
  eexists _, _, _. split; [exact Hm'|]. split; [exact Hx'|]. split; [exact Hc'|reflexivity].
Qed.

(** A number of the format rounds to itself. *)
Lemma finish_canonical m e :
  bounded prec emax m e = true -> finish (Z.pos m) e = S754_finite false m e.
Proof.
  intros [Hc He]%bounded_canonical.
  unfold finish, shr_fexp, shr. rewrite <- Hc, Z.sub_diag. cbn [shr_record_of_loc shr_m].
  change (emax - prec)%Z with 971%Z.
  destruct (Z.leb_spec e 971); [reflexivity|lia].
Qed.

(** The number that a float which is not negative, not infinite and not
    NaN stands for. *)
Definition value (r : spec_float) : R :=
  match r with
  | S754_finite _ m e => F2R (Z.pos m) e
  | _ => 0
  end.

Lemma value_nonneg r : 0 <= value r.
Proof.
  destruct r; cbn [value]; try lra.
  unfold F2R. apply Rmult_le_pos; [apply IZR_le; lia|left; apply bpow_pos].
Qed.

Lemma outcome_rounds v r :
  outcome v r -> r <> S754_infinity false -> rounds (value r) r.
Proof.
  intros [Hv|m e Hv Hb|Hv] Hinf; [| |contradiction].
  - exists 0%Z, (-1074)%Z, loc_Exact. cbn [value located round_nearest_even].
    split; [lia|]. split; [unfold F2R; lra|]. split; reflexivity.
  - exists (Z.pos m), e, loc_Exact. cbn [value located round_nearest_even].
    split; [lia|]. split; [reflexivity|]. split; [now apply bounded_canonical|].
    now rewrite finish_canonical.
Qed.

Lemma outcome_le_infinity v r : outcome v r -> SFleb r (S754_infinity false) = true.
Proof. intros [Hv|m e Hv Hb|Hv]; reflexivity. Qed.

(** Between floats that are not infinite the order is that of the numbers
    they stand for. *)
Lemma SFleb_value v v' r r' :
  outcome v r -> outcome v' r' -> r' <> S754_infinity false -> SFleb r r' = true ->
  r <> S754_infinity false /\ value r <= value r'.
Proof.
  intros [Hv|m e Hv Hb|Hv] [Hv'|m' e' Hv' Hb'|Hv'] Hinf Hle;
    try contradiction; try discriminate Hle;
    (split; [discriminate|]); cbn [value].
  - lra.
  - apply (value_nonneg (S754_finite false m' e')).
  - now apply (finite_compare m e m' e' Hb Hb').
Qed.

(** ** Addition *)

Lemma iter_xO m d : Z.pos (Pos.iter xO m d) = (Z.pos m * 2 ^ Z.pos d)%Z.
Proof.
  induction d as [|d IH] using Pos.peano_ind.
  - cbn [Pos.iter]. lia.
  - rewrite Pos.iter_succ, Pos2Z.inj_xO, IH, Pos2Z.inj_succ, Z.pow_succ_r by lia. lia.
Qed.

(** [shl_align m e e'] writes [m * 2^e] at the smaller of the exponents [e]
    and [e']. *)
Lemma shl_align_spec m e e' :
  snd (shl_align m e e') = Z.min e e' /\
  Z.pos (fst (shl_align m e e')) = (Z.pos m * 2 ^ (e - Z.min e e'))%Z.
Proof.
  unfold shl_align. destruct (e' - e)%Z as [|d|d] eqn:Hd; cbn [fst snd].
  - split; [lia|]. replace (e - Z.min e e')%Z with 0%Z by lia. lia.
  - split; [lia|]. replace (e - Z.min e e')%Z with 0%Z by lia. lia.
  - split; [lia|]. rewrite iter_xO. f_equal. f_equal. lia.
Qed.

Lemma binary_round_rounds m e :
  rounds (F2R (Z.pos m) e) (binary_round prec emax false m e).
Proof.
  unfold binary_round.
  destruct (shl_align_spec m e (fexp (Z.pos (digits2_pos m) + e))) as [He' Hm'].
  destruct (shl_align m e (fexp (Z.pos (digits2_pos m) + e))) as [mz ez].
  cbn [fst snd] in He', Hm'. rewrite <- He' in Hm'.
  assert (Hk : (0 <= e - ez)%Z) by lia.
  apply binary_round_aux_rounds; [lia| |].
  - cbn [located]. rewrite Hm'. now rewrite F2R_align by lia.
  - rewrite Hm', Zdigits2_shift by lia. cbn [Zdigits2].
    replace (Z.pos (digits2_pos m) + (e - ez) + ez)%Z with (Z.pos (digits2_pos m) + e)%Z by lia.
    lia.
Qed.

Lemma SFadd_finite mx ex my ey :
  rounds (F2R (Z.pos mx) ex + F2R (Z.pos my) ey)
         (SFadd prec emax (S754_finite false mx ex) (S754_finite false my ey)).
Proof.
  cbn [SFadd cond_Zopp].
  destruct (shl_align_spec mx ex (Z.min ex ey)) as [_ Hx].
  destruct (shl_align_spec my ey (Z.min ex ey)) as [_ Hy].
  replace (Z.min ex (Z.min ex ey)) with (Z.min ex ey) in Hx by lia.
  replace (Z.min ey (Z.min ex ey)) with (Z.min ex ey) in Hy by lia.
  set (ez := Z.min ex ey) in *.
  set (ax := fst (shl_align mx ex ez)) in *. set (ay := fst (shl_align my ey ez)) in *.
  change (Z.pos ax + Z.pos ay)%Z with (Z.pos (ax + ay)). cbn [binary_normalize].
  assert (Hsum : F2R (Z.pos mx) ex + F2R (Z.pos my) ey = F2R (Z.pos (ax + ay)) ez).
  { rewrite Pos2Z.inj_add, Hx, Hy. unfold F2R at 3. rewrite plus_IZR, Rmult_plus_distr_r.
    fold (F2R (Z.pos mx * 2 ^ (ex - ez)) ez). fold (F2R (Z.pos my * 2 ^ (ey - ez)) ez).
    rewrite !F2R_align by (unfold ez; lia). reflexivity. }
  rewrite Hsum. apply binary_round_rounds.
Qed.

(** The sum of two floats that are not negative: the infinity when one of
    them is, and else their sum as real numbers, rounded. *)
Lemma SFadd_outcome va vb a b :
  outcome va a -> outcome vb b ->
  (a = S754_infinity false \/ b = S754_infinity false ->
   SFadd prec emax a b = S754_infinity false) /\
  (a <> S754_infinity false -> b <> S754_infinity false ->
   rounds (value a + value b) (SFadd prec emax a b)).
Proof.
  intros Ha Hb. split.
  - destruct Ha as [?|ma ea ? ?|?], Hb as [?|mb eb ? ?|?]; intros [Hi|Hi];
      try discriminate Hi; reflexivity.
  - intros Hia Hib.
    pose proof (outcome_rounds _ _ Ha Hia) as Hra.
    pose proof (outcome_rounds _ _ Hb Hib) as Hrb.
    destruct Ha as [?|ma ea ? ?|?], Hb as [?|mb eb ? ?|?]; try contradiction;
      cbn [value] in *.
    + rewrite Rplus_0_l. exact Hra.
    + rewrite Rplus_0_l. exact Hrb.
    + rewrite Rplus_0_r. exact Hra.
    + apply SFadd_finite.
Qed.


(** ** Division *)

(** The location of a quotient from its remainder. *)
Lemma new_location_located q n r e :
  (0 <= r < n)%Z ->
  located ((IZR q + IZR r / IZR n) * bpow e) q e (new_location n r).
Proof.
  intros Hr. pose proof (bpow_pos e) as Hb.
  assert (HN : 0 < IZR n) by (apply IZR_lt; lia).
  set (f := IZR r / IZR n).
  assert (Hf : f * IZR n = IZR r) by (unfold f; field; lra).
  assert (Hr' : 0 <= IZR r < IZR n) by (split; [apply IZR_le|apply IZR_lt]; lia).
  unfold new_location, new_location_even, new_location_odd.
  destruct (Z.even n) eqn:Heven; destruct (Z.eqb_spec r 0) as [Hr0|Hr0].
  - cbn [located]. unfold F2R. assert (f = 0) as -> by (subst r; nra). lra.
  - assert (Hpos : 0 < IZR r) by (apply IZR_lt; lia).
    assert (Hf01 : 0 < f < 1) by (split; nra).
    cbn [located]. unfold F2R. rewrite plus_IZR. split; [split; nra|].
    destruct (Z.compare_spec (2 * r) n) as [Hc|Hc|Hc].
    + apply (f_equal IZR) in Hc. rewrite mult_IZR in Hc.
      assert (f = / 2) as -> by nra. reflexivity.
    + apply IZR_lt in Hc. rewrite mult_IZR in Hc. assert (f < / 2) by nra. nra.
    + apply IZR_lt in Hc. rewrite mult_IZR in Hc. assert (/ 2 < f) by nra. nra.
  - cbn [located]. unfold F2R. assert (f = 0) as -> by (subst r; nra). lra.
  - assert (Hpos : 0 < IZR r) by (apply IZR_lt; lia).
    assert (Hf01 : 0 < f < 1) by (split; nra).
    assert (Hodd : Z.Odd n) by (apply Z.odd_spec; rewrite <- Z.negb_even, Heven; reflexivity).
    destruct Hodd as [h Hh].
    cbn [located]. unfold F2R. rewrite plus_IZR. split; [split; nra|].
    destruct (Z.compare_spec (2 * r + 1) n) as [Hc|Hc|Hc].
    + assert (Hlt : (2 * r < n)%Z) by lia.
      apply IZR_lt in Hlt. rewrite mult_IZR in Hlt. assert (f < / 2) by nra. nra.
    + assert (Hlt : (2 * r < n)%Z) by lia.
      apply IZR_lt in Hlt. rewrite mult_IZR in Hlt. assert (f < / 2) by nra. nra.
    + assert (Hlt : (n < 2 * r)%Z) by lia.
      apply IZR_lt in Hlt. rewrite mult_IZR in Hlt. assert (/ 2 < f) by nra. nra.
Qed.

Lemma SFdiv_finite mx ex my ey :
  rounds (F2R (Z.pos mx) ex / F2R (Z.pos my) ey)
         (SFdiv prec emax (S754_finite false mx ex) (S754_finite false my ey)).
Proof.
  cbn [SFdiv xorb]. unfold SFdiv_core_binary.
  set (d1 := Zdigits2 (Z.pos mx)). set (d2 := Zdigits2 (Z.pos my)).
  set (e' := Z.min (fexp (d1 + ex - (d2 + ey))) (ex - ey)).
  set (s := (ex - ey - e')%Z).
  assert (Hs : (0 <= s)%Z) by (unfold s, e'; lia).
  set (m' := match s with
             | 0%Z => Z.pos mx
             | Z.pos _ => Z.shiftl (Z.pos mx) s
             | Z.neg _ => 0%Z
             end).
  assert (Hm' : m' = (Z.pos mx * 2 ^ s)%Z).
  { unfold m'. destruct s as [|p|p] eqn:Hsp; [lia| |lia].
    now rewrite Z.shiftl_mul_pow2 by lia. }
  clearbody m'.
  change (IntDef.Z.div_eucl m' (Z.pos my)) with (Z.div_eucl m' (Z.pos my)).
  pose proof (Z_div_mod m' (Z.pos my) ltac:(lia)) as Hdiv.
  destruct (Z.div_eucl m' (Z.pos my)) as [q r]. destruct Hdiv as [Heq Hr].
  assert (Hpow : (0 < 2 ^ s)%Z) by (apply Z.pow_pos_nonneg; lia).
  assert (Hq : (0 <= q)%Z) by nia.
  apply binary_round_aux_rounds; [exact Hq| |].
  - replace (F2R (Z.pos mx) ex / F2R (Z.pos my) ey)
      with ((IZR q + IZR r / IZR (Z.pos my)) * bpow e');
      [apply new_location_located; exact Hr|].
    assert (Hmy : 0 < IZR (Z.pos my)) by (apply IZR_lt; lia).
    pose proof (bpow_pos ey) as Hey.
    apply (f_equal IZR) in Heq. rewrite Hm', plus_IZR, !mult_IZR, <- bpow_Z in Heq by exact Hs.
    unfold F2R. replace ex with (s + ey + e')%Z by (unfold s; lia).
    rewrite !bpow_add.
    transitivity (IZR (Z.pos mx) * bpow s / IZR (Z.pos my) * bpow e');
      [rewrite Heq|]; field; lra.
  - assert (Hdq : (d1 + s - d2 <= Zdigits2 q)%Z).
    { destruct (Zdigits2_bounds (Z.pos mx) ltac:(lia)) as [[Hlow1 _] _].
      destruct (Zdigits2_bounds (Z.pos my) ltac:(lia)) as [[_ Hup2] H12].
      fold d1 in Hlow1. fold d2 in Hup2, H12.
      assert (Hq1 : (q + 1 <= 2 ^ Zdigits2 q)%Z).
      { destruct (Z.eq_dec q 0%Z) as [->|Hq0]; [simpl; lia|].
        destruct (Zdigits2_bounds q ltac:(lia)) as [[_ Hupq] _]. lia. }
      pose proof (Zdigits2_nonneg q Hq) as Hdq0.
      assert (Hlt : (2 ^ (d1 - 1 + s) < 2 ^ (d2 + Zdigits2 q))%Z).
      { rewrite !Z.pow_add_r by (try lia; unfold d1; simpl; lia).
        assert (Z.pos mx * 2 ^ s < 2 ^ d2 * 2 ^ Zdigits2 q)%Z; [|nia].
        rewrite <- Hm', Heq.
        assert (Z.pos my * q + r < Z.pos my * (q + 1))%Z by lia.
        assert (0 < 2 ^ d2)%Z by (apply Z.pow_pos_nonneg; lia).
        nia. }
      apply Z.pow_lt_mono_r_iff in Hlt; lia. }
    unfold s, e' in *. rewrite !fexp_eq in *. lia.
Qed.

(** The quotient of a float that is not negative by a finite float above
    zero: the infinity for the infinity, and else the quotient as real
    numbers, rounded. *)
Lemma SFdiv_outcome va a md ed :
  outcome va a ->
  (a = S754_infinity false ->
   SFdiv prec emax a (S754_finite false md ed) = S754_infinity false) /\
  (a <> S754_infinity false ->
   rounds (value a / F2R (Z.pos md) ed) (SFdiv prec emax a (S754_finite false md ed))).
Proof.
  intros Ha. split.
  - intros ->. reflexivity.
  - intros Hia. destruct Ha as [?|ma ea ? ?|?]; try contradiction; cbn [value].
    + unfold Rdiv. rewrite Rmult_0_l.
      apply (outcome_rounds 0 (S754_zero false)); [now constructor|discriminate].
    + apply SFdiv_finite.
Qed.


(** ** The doubles that are not negative *)

(** [+0], a finite double above zero, or [+infinity]: not NaN, no negative
    number, not [-0]. *)
Definition plus (x : float) : Prop := exists v, outcome v (Prim2SF x).

Lemma plus_zero : plus 0%float.
Proof. exists 0. now constructor. Qed.

Lemma plus_of_positive (x : float) : PrimFloat.ltb 0 x = true -> plus x.
Proof.
  rewrite ltb_spec. unfold SFltb. change (Prim2SF 0) with (S754_zero false).
  pose proof (Prim2SF_valid x) as Hvalid. unfold plus.
  destruct (Prim2SF x) as [s|s| |s m e]; cbn [SFcompare]; try destruct s; try discriminate;
    intros _.
  - exists (bpow 1024). constructor. lra.
  - exists (F2R (Z.pos m) e). now constructor.
Qed.

Lemma outcome_infinite_or_not v r :
  outcome v r -> r = S754_infinity false \/ r <> S754_infinity false.
Proof. intros [?|? ? ? ?|?]; [right|right|left]; (discriminate || reflexivity). Qed.

Lemma add_plus (a b : float) : plus a -> plus b -> plus (a + b).
Proof.
  intros [va Ha] [vb Hb]. unfold plus. rewrite add_spec.
  destruct (SFadd_outcome va vb _ _ Ha Hb) as [Hinf Hfin].
  destruct (outcome_infinite_or_not _ _ Ha) as [Hia|Hia];
    [|destruct (outcome_infinite_or_not _ _ Hb) as [Hib|Hib]].
  - unfold SF64add. rewrite Hinf by now left. exists (bpow 1024). constructor. lra.
  - unfold SF64add. rewrite Hinf by now right. exists (bpow 1024). constructor. lra.
  - apply (rounds_outcome _ _ (Hfin Hia Hib)).
Qed.

(** Addition is monotone on the doubles that are not negative. *)
Lemma add_mono (a a' b b' : float) :
  plus a -> plus a' -> plus b -> plus b' ->
  PrimFloat.leb a a' = true -> PrimFloat.leb b b' = true ->
  PrimFloat.leb (a + b) (a' + b') = true.
Proof.
  intros [va Ha] [va' Ha'] [vb Hb] [vb' Hb'].
  destruct (add_plus a b (ex_intro _ va Ha) (ex_intro _ vb Hb)) as [v Hsum].
  revert Hsum. rewrite !leb_spec, !add_spec. unfold SF64add. intros Hsum Hlea Hleb.
  destruct (SFadd_outcome va vb _ _ Ha Hb) as [_ Hfin].
  destruct (SFadd_outcome va' vb' _ _ Ha' Hb') as [Hinf' Hfin'].
  destruct (outcome_infinite_or_not _ _ Ha') as [Hia'|Hia'];
    [|destruct (outcome_infinite_or_not _ _ Hb') as [Hib'|Hib']].
  - rewrite (Hinf' (or_introl Hia')). apply (outcome_le_infinity _ _ Hsum).
  - rewrite (Hinf' (or_intror Hib')). apply (outcome_le_infinity _ _ Hsum).
  - destruct (SFleb_value _ _ _ _ Ha Ha' Hia' Hlea) as [Hia Hva].
    destruct (SFleb_value _ _ _ _ Hb Hb' Hib' Hleb) as [Hib Hvb].
    apply (rounds_le _ _ _ _ (Hfin Hia Hib) (Hfin' Hia' Hib')). lra.
Qed.

Lemma div_plus (a d : float) md ed :
  Prim2SF d = S754_finite false md ed -> plus a -> plus (a / d).
Proof.
  intros Hd [va Ha]. unfold plus. rewrite div_spec, Hd. unfold SF64div.
  destruct (SFdiv_outcome va _ md ed Ha) as [Hinf Hfin].
  destruct (outcome_infinite_or_not _ _ Ha) as [Hia|Hia].
  - rewrite (Hinf Hia). exists (bpow 1024). constructor. lra.
  - apply (rounds_outcome _ _ (Hfin Hia)).
Qed.

(** Division by a finite double above zero is monotone on the doubles that
    are not negative. *)
Lemma div_mono (a a' d : float) md ed :
  Prim2SF d = S754_finite false md ed -> plus a -> plus a' ->
  PrimFloat.leb a a' = true -> PrimFloat.leb (a / d) (a' / d) = true.
Proof.
  intros Hd [va Ha] [va' Ha'].
  destruct (div_plus a d md ed Hd (ex_intro _ va Ha)) as [v Hquot].
  revert Hquot. rewrite !leb_spec, !div_spec, Hd. unfold SF64div. intros Hquot Hle.
  destruct (SFdiv_outcome va _ md ed Ha) as [_ Hfin].
  destruct (SFdiv_outcome va' _ md ed Ha') as [Hinf' Hfin'].
  destruct (outcome_infinite_or_not _ _ Ha') as [Hia'|Hia'].
  - rewrite (Hinf' Hia'). apply (outcome_le_infinity _ _ Hquot).
  - destruct (SFleb_value _ _ _ _ Ha Ha' Hia' Hle) as [Hia Hva].
    apply (rounds_le _ _ _ _ (Hfin Hia) (Hfin' Hia')).
    assert (Hpos : 0 < F2R (Z.pos md) ed)
      by (unfold F2R; apply Rmult_lt_0_compat; [apply IZR_lt; lia|apply bpow_pos]).
    apply Rmult_le_compat_r; [left; now apply Rinv_0_lt_compat|exact Hva].
Qed.

(** The double of an array length: a finite double above zero. *)
Lemma of_uint63_finite (n : Z) :
  (1 <= n < 2 ^ 63)%Z ->
  exists m e, Prim2SF (of_uint63 (of_Z n)) = S754_finite false m e.
Proof.
  intros Hn. rewrite of_uint63_spec, of_Z_spec.
  rewrite Z.mod_small by (change wB with (2 ^ 63)%Z; lia).
  destruct n as [|p|p]; try lia. cbn [binary_normalize].
  pose proof (binary_round_rounds p 0) as (m & e & l & Hm & Hx & Hc & Hr).
  pose proof (finish_outcome m _ e Hm Hc (round_nearest_even_cases m l)) as Hout.
  rewrite <- Hr in Hout.
  assert (Hone : located 1 (2 ^ 52) (-52) loc_Exact)
    by (cbn [located]; rewrite F2R_pow2 by lia; reflexivity).
  assert (Htop : located (bpow 63) (2 ^ 52) 11 loc_Exact)
    by (cbn [located]; rewrite F2R_pow2 by lia; reflexivity).
  assert (Hxp : 1 <= F2R (Z.pos p) 0 <= bpow 63).
  { unfold F2R. change (bpow 0) with 1. rewrite Rmult_1_r, (bpow_Z 63) by lia.
    split; apply IZR_le; lia. }
  assert (H52 : (0 <= 2 ^ 52)%Z) by (apply Z.pow_nonneg; lia).
  pose proof (rounded_value_mono 1 (F2R (Z.pos p) 0) (2 ^ 52) (-52) loc_Exact m e l
                H52 Hm Hone Hx eq_refl Hc (proj1 Hxp)) as Hlow.
  pose proof (rounded_value_mono (F2R (Z.pos p) 0) (bpow 63) m e l (2 ^ 52) 11 loc_Exact
                Hm H52 Hx Htop Hc eq_refl (proj2 Hxp)) as Hup.
  cbn [round_nearest_even] in Hlow, Hup. rewrite !F2R_pow2 in Hlow, Hup by lia.
  change (bpow (52 + -52)) with 1 in Hlow.
  pose proof (bpow_lt (52 + 11) 1024 ltac:(lia)).
  destruct Hout as [Hv|m' e' Hv Hb|Hv]; [lra|now exists m', e'|lra].
Qed.

End Rounding.

(** * More of the program on IEEE-754 doubles *)

Module Doubles.

(** ** The multiplication of doubles commutes *)

Lemma SFmul_comm prec emax x y : SFmul prec emax x y = SFmul prec emax y x.
Proof.
  destruct x as [sx|sx| |sx mx ex], y as [sy|sy| |sy my ey]; simpl; try reflexivity;
    try (rewrite (xorb_comm sx sy); reflexivity).
  rewrite (xorb_comm sx sy), (Pos.mul_comm mx my), (Z.add_comm ex ey). reflexivity.
Qed.

Lemma double_mul_comm (x y : float) : mul x y = mul y x.
Proof.
  cbn [mul float_number]. apply Prim2SF_inj. rewrite !mul_spec. apply SFmul_comm.
Qed.

(** X10.  On the doubles of the program the cosine similarity is symmetric
    in its two arguments, bit for bit, for all inputs: vectors of any
    lengths, with components that are not numbers or are infinite.  So the
    similarity matrix is symmetric, and reading it by rows, as the
    selection does, is the same as reading it by columns. *)
Theorem doubles_similarity_symmetric
    (embeddings : list (list float)) (a b : list float) (i j : nat) :
  cosineSimilarity a b = cosineSimilarity b a /\
  nth j (nth i (similarityMatrix embeddings) []) 0%float
  = nth i (nth j (similarityMatrix embeddings) []) 0%float.
Proof.
  split.
  - apply cosineSimilarity_swap, double_mul_comm.
  - apply (similarityMatrix_swap double_mul_comm).
Qed.

(** ** Comparisons of doubles *)

Lemma ltb_leb (x y : float) : PrimFloat.ltb x y = true -> PrimFloat.leb x y = true.
Proof.
  rewrite ltb_spec, leb_spec. unfold SFltb, SFleb.
  destruct (SFcompare (Prim2SF x) (Prim2SF y)) as [[]|]; congruence.
Qed.

Lemma SFcompare_refl (f : spec_float) : f <> S754_nan -> SFcompare f f = Some Eq.
Proof.
  destruct f as [s|s| |s m e]; simpl; intros Hnan.
  - reflexivity.
  - now destruct s.
  - contradiction.
  - rewrite Z.compare_refl.
    assert (Hm : Pos.compare_cont Eq m m = Eq) by apply Pos.compare_cont_refl.
    rewrite Hm. now destruct s.
Qed.

(** A double that is compared with success is a number, and a number is at
    most itself. *)
Lemma leb_number (x y : float) : PrimFloat.leb x y = true -> PrimFloat.leb y y = true.
Proof.
  rewrite !leb_spec. unfold SFleb. intros Hle.
  rewrite SFcompare_refl; [reflexivity|].
  intros Hnan. rewrite Hnan in Hle.
  destruct (Prim2SF x); discriminate Hle.
Qed.

(** ** The numbers of the matrix and of the coverage *)

(** A number that is not negative: [0 <= x], which fails when [x] is not a
    number. *)
Definition nonnegative (x : float) : Prop := PrimFloat.leb 0 x = true.

Lemma nonnegative_zero : nonnegative 0%float.
Proof. reflexivity. Qed.

Lemma matrix_nonnegative (embeddings : list (list float)) i j :
  nonnegative (nth j (nth i (similarityMatrix embeddings) []) 0%float).
Proof.
  destruct (Nat.lt_ge_cases i (length embeddings)) as [Hi|Hi];
    [destruct (Nat.lt_ge_cases j (length embeddings)) as [Hj|Hj]|].
  - pose proof (similarityMatrix_at embeddings i j Hi Hj) as Heq.
    unfold gtb in Heq. cbn [zero ltb float_number] in Heq.
    unfold nonnegative. rewrite Heq. cbn zeta.
    destruct (PrimFloat.ltb 0 _) eqn:Hpos; [apply ltb_leb, Hpos|reflexivity].
  - pose proof (similarityMatrix_outside embeddings i j (or_intror Hj)) as Heq.
    cbn [zero float_number] in Heq. unfold nonnegative. rewrite Heq. reflexivity.
  - pose proof (similarityMatrix_outside embeddings i j (or_introl Hi)) as Heq.
    cbn [zero float_number] in Heq. unfold nonnegative. rewrite Heq. reflexivity.
Qed.

Definition nonnegativeVector (n : nat) (v : list float) : Prop :=
  length v = n /\ forall j, nonnegative (nth j v 0%float).

Lemma updateCoverage_entry n (row cov : list float) j :
  j < n ->
  nth j (updateCoverage n row cov) 0%float
  = if PrimFloat.ltb (nth j cov 0%float) (nth j row 0%float)
    then nth j row 0%float else nth j cov 0%float.
Proof.
  intros Hj. unfold updateCoverage. rewrite Exact.nth_map_seq by assumption. reflexivity.
Qed.

Lemma updateCoverage_nonnegative n (row cov : list float) :
  (forall j, nonnegative (nth j row 0%float)) ->
  nonnegativeVector n cov -> nonnegativeVector n (updateCoverage n row cov).
Proof.
  intros Hrow [Hlen Hcov]. split; [apply updateCoverage_length|].
  intros j. destruct (Nat.lt_ge_cases j n) as [Hj|Hj].
  - rewrite updateCoverage_entry by assumption.
    destruct (PrimFloat.ltb _ _); auto.
  - rewrite nth_overflow by (rewrite updateCoverage_length; exact Hj). reflexivity.
Qed.

Lemma updateCoverage_raises n (row cov : list float) j :
  nonnegativeVector n cov ->
  PrimFloat.leb (nth j cov 0%float) (nth j (updateCoverage n row cov) 0%float) = true.
Proof.
  intros [Hlen Hcov]. destruct (Nat.lt_ge_cases j n) as [Hj|Hj].
  - rewrite updateCoverage_entry by assumption.
    destruct (PrimFloat.ltb _ _) eqn:Hlt; [apply ltb_leb, Hlt|].
    apply (leb_number 0), Hcov.
  - rewrite !nth_overflow by (rewrite ?updateCoverage_length; lia). reflexivity.
Qed.

Lemma stateAfter_nonnegative (embeddings : list (list float)) t :
  nonnegativeVector (length embeddings)
    (currentCoverage (stateAfter (similarityMatrix embeddings) (length embeddings) t)).
Proof.
  induction t as [|t IH].
  - split; [apply repeat_length|]. intros j. cbn [stateAfter forLoop initialState currentCoverage].
    destruct (Nat.lt_ge_cases j (length embeddings)) as [Hj|Hj].
    + rewrite nth_repeat_lt by assumption. reflexivity.
    + rewrite nth_overflow by (rewrite repeat_length; exact Hj). reflexivity.
  - rewrite stateAfter_S.
    destruct (whileLoop_cases (similarityMatrix embeddings) (length embeddings) t
                (stateAfter (similarityMatrix embeddings) (length embeddings) t))
      as [->|(e & rest & ->)]; cbn [currentCoverage]; [exact IH|].
    apply updateCoverage_nonnegative; [|exact IH].
    intros j. apply matrix_nonnegative.
Qed.

(** X11.  On the doubles of the program, for every input: each entry of
    the similarity matrix is a number that is not negative, each entry of
    the coverage vector is one after any number of iterations, and an
    iteration lowers no entry of the coverage.  No value that is not a
    number can enter the matrix or the coverage, even from embeddings with
    such components. *)
Theorem doubles_coverage_never_decreases (embeddings : list (list float)) (t i j : nat) :
  let n := length embeddings in
  let matrix := similarityMatrix embeddings in
  let before := currentCoverage (stateAfter matrix n t) in
  let after := currentCoverage (stateAfter matrix n (S t)) in
  PrimFloat.leb 0 (nth j (nth i matrix []) 0%float) = true /\
  PrimFloat.leb 0 (nth j before 0%float) = true /\
  PrimFloat.leb (nth j before 0%float) (nth j after 0%float) = true.
Proof.
  intros n matrix before after.
  pose proof (stateAfter_nonnegative embeddings t) as Hbefore.
  fold n matrix before in Hbefore.
  split; [apply matrix_nonnegative|]. split; [apply Hbefore|].
  unfold after. rewrite stateAfter_S.
  destruct (whileLoop_cases matrix n t (stateAfter matrix n t))
    as [->|(e & rest & ->)]; cbn [currentCoverage]; fold before.
  - apply (leb_number 0), Hbefore.
  - now apply updateCoverage_raises.
Qed.

(** ** The order of the doubles *)

(** [<] on doubles is decided by [SFcompare], a comparison of signs,
    exponents and mantissas. *)
Ltac order_cases :=
  repeat match goal with
  | H : context [PosDef.Pos.compare_cont Eq ?a ?b] |- _ =>
      change (PosDef.Pos.compare_cont Eq a b) with (Pos.compare a b) in H
  | |- context [PosDef.Pos.compare_cont Eq ?a ?b] =>
      change (PosDef.Pos.compare_cont Eq a b) with (Pos.compare a b)
  | H : context [Z.compare ?a ?b] |- _ =>
      let Hc := fresh "Hc" in destruct (Z.compare_spec a b) as [Hc|Hc|Hc]
  | |- context [Z.compare ?a ?b] =>
      let Hc := fresh "Hc" in destruct (Z.compare_spec a b) as [Hc|Hc|Hc]
  | H : context [Pos.compare ?a ?b] |- _ =>
      let Hc := fresh "Hc" in destruct (Pos.compare_spec a b) as [Hc|Hc|Hc]
  | |- context [Pos.compare ?a ?b] =>
      let Hc := fresh "Hc" in destruct (Pos.compare_spec a b) as [Hc|Hc|Hc]
  end.

(** [x < y] and [y <= z] give [x < z]. *)
Lemma SFcompare_lt_trans (x y z : spec_float) (c : comparison) :
  SFcompare x y = Some Lt -> SFcompare y z = Some c -> c <> Gt ->
  SFcompare x z = Some Lt.
Proof.
  destruct x as [sx|sx| |sx mx ex], y as [sy|sy| |sy my ey], z as [sz|sz| |sz mz ez];
    cbn [SFcompare]; intros Hxy Hyz Hc;
    try discriminate;
    try (destruct sx; discriminate);
    try (destruct sy; discriminate);
    try (destruct sx, sy; discriminate).
  all: try (destruct sx, sy, sz; cbn in *; try discriminate; try reflexivity;
            try (injection Hyz as <-; congruence)).
  all: try (injection Hxy as Hxy; injection Hyz as Hyz; subst c;
            order_cases; subst; cbn in *;
            try discriminate; try congruence; try lia; try reflexivity).
Qed.

Lemma ltb_trans (x y z : float) :
  PrimFloat.ltb x y = true -> PrimFloat.ltb y z = true -> PrimFloat.ltb x z = true.
Proof.
  rewrite !ltb_spec. unfold SFltb.
  destruct (SFcompare (Prim2SF x) (Prim2SF y)) as [[]|] eqn:Hxy; try discriminate.
  destruct (SFcompare (Prim2SF y) (Prim2SF z)) as [[]|] eqn:Hyz; try discriminate.
  intros _ _. now rewrite (SFcompare_lt_trans _ _ _ Lt Hxy Hyz).
Qed.

Lemma ltb_leb_trans (x y z : float) :
  PrimFloat.ltb x y = true -> PrimFloat.leb y z = true -> PrimFloat.ltb x z = true.
Proof.
  rewrite !ltb_spec, leb_spec. unfold SFltb, SFleb.
  destruct (SFcompare (Prim2SF x) (Prim2SF y)) as [[]|] eqn:Hxy; try discriminate.
  destruct (SFcompare (Prim2SF y) (Prim2SF z)) as [c|] eqn:Hyz; [|discriminate].
  intros _ Hc.
  rewrite (SFcompare_lt_trans _ _ _ c Hxy Hyz); [reflexivity|].
  intros ->. discriminate.
Qed.

Lemma ltb_irrefl (x : float) : PrimFloat.ltb x x = false.
Proof.
  rewrite ltb_spec. unfold SFltb.
  destruct (Prim2SF x) as [s|s| |s m e] eqn:Hx;
    try (rewrite SFcompare_refl by discriminate; reflexivity).
  reflexivity.
Qed.

(** A finite double minus itself is [+0]. *)
Lemma sub_self (v : float) : PrimFloat.is_finite v = true -> PrimFloat.sub v v = 0%float.
Proof.
  unfold PrimFloat.is_finite, PrimFloat.is_nan, PrimFloat.is_infinity.
  rewrite !FloatAxioms.eqb_spec, FloatAxioms.abs_spec. intros Hfin.
  apply Prim2SF_inj. rewrite sub_spec.
  change (Prim2SF 0) with (S754_zero false). change (Prim2SF infinity) with (S754_infinity false) in Hfin.
  unfold SF64sub.
  destruct (Prim2SF v) as [s|s| |s m e].
  - now destruct s.
  - now destruct s.
  - discriminate.
  - cbn [SFsub]. rewrite Z.sub_diag. reflexivity.
Qed.

(** ** Coverage and the rows of the selected items *)

(** The coverage is nowhere below the row. *)
Definition reaches (cov row : list float) : Prop :=
  forall c, PrimFloat.ltb (nth c cov 0%float) (nth c row 0%float) = false.

Lemma matrix_row (embeddings : list (list float)) i :
  i < length embeddings ->
  nth i (similarityMatrix embeddings) []
  = map (fun j =>
           let sim := cosineSimilarity (nth i embeddings []) (nth j embeddings []) in
           if gtb sim zero then sim else zero)
        (seq 0 (length embeddings)).
Proof.
  intros Hi. unfold similarityMatrix. now rewrite Exact.nth_map_seq by assumption.
Qed.

Lemma matrix_row_length (embeddings : list (list float)) i :
  length (nth i (similarityMatrix embeddings) []) <= length embeddings.
Proof.
  destruct (Nat.lt_ge_cases i (length embeddings)) as [Hi|Hi].
  - rewrite matrix_row by assumption. now rewrite length_map, length_seq.
  - rewrite nth_overflow; [simpl; lia|].
    unfold similarityMatrix. now rewrite length_map, length_seq.
Qed.

Lemma updateCoverage_reaches_row n (row cov : list float) :
  length row <= n -> reaches (updateCoverage n row cov) row.
Proof.
  intros Hrow c. destruct (Nat.lt_ge_cases c n) as [Hc|Hc].
  - rewrite updateCoverage_entry by assumption.
    destruct (PrimFloat.ltb (nth c cov 0%float) (nth c row 0%float)) eqn:Hlt;
      [apply ltb_irrefl|exact Hlt].
  - rewrite !nth_overflow by (rewrite ?updateCoverage_length; lia). reflexivity.
Qed.

Lemma updateCoverage_reaches_kept n (row' row cov : list float) :
  length row <= n -> reaches cov row -> reaches (updateCoverage n row' cov) row.
Proof.
  intros Hrow Hreach c. destruct (Nat.lt_ge_cases c n) as [Hc|Hc].
  - rewrite updateCoverage_entry by assumption.
    destruct (PrimFloat.ltb (nth c cov 0%float) (nth c row' 0%float)) eqn:Hlt;
      [|apply Hreach].
    destruct (PrimFloat.ltb (nth c row' 0%float) (nth c row 0%float)) eqn:Hlt';
      [|reflexivity].
    rewrite <- (Hreach c). symmetry. exact (ltb_trans _ _ _ Hlt Hlt').
  - rewrite !nth_overflow by (rewrite ?updateCoverage_length; lia). reflexivity.
Qed.

(** An update by a row that the coverage reaches changes nothing. *)
Lemma updateCoverage_same n (row cov : list float) :
  length cov = n -> reaches cov row -> updateCoverage n row cov = cov.
Proof.
  intros Hlen Hreach.
  apply (nth_ext _ _ 0%float 0%float); [now rewrite updateCoverage_length|].
  intros c Hc. rewrite updateCoverage_length in Hc.
  rewrite updateCoverage_entry by assumption. now rewrite Hreach.
Qed.

(** The coverage reaches the row of every selected item. *)
Lemma stateAfter_reaches (embeddings : list (list float)) t i :
  In i (selected (stateAfter (similarityMatrix embeddings) (length embeddings) t)) ->
  reaches (currentCoverage (stateAfter (similarityMatrix embeddings) (length embeddings) t))
          (nth i (similarityMatrix embeddings) []).
Proof.
  induction t as [|t IH]; [intros []|].
  rewrite stateAfter_S.
  destruct (whileLoop_cases (similarityMatrix embeddings) (length embeddings) t
              (stateAfter (similarityMatrix embeddings) (length embeddings) t))
    as [->|(e & rest & ->)]; cbn [currentCoverage selected]; [exact IH|].
  intros [Hin|[<-|[]]]%in_app_iff.
  - apply updateCoverage_reaches_kept; [apply matrix_row_length|now apply IH].
  - apply updateCoverage_reaches_row, matrix_row_length.
Qed.

Lemma trajectory_entry (embeddings : list (list float)) (threshold : float) t :
  let n := length embeddings in
  let matrix := similarityMatrix embeddings in
  let r := lazyGreedySelectionWithSaturation embeddings threshold in
  t < result_optimalK r ->
  nth t (result_values r) 0%float
  = functionValue n (currentCoverage (stateAfter matrix n (S t))).
Proof.
  intros n matrix r Ht.
  destruct (saturation_trace embeddings threshold) as (_ & _ & Hvals).
  fold n matrix r in Hvals. rewrite Hvals. unfold trajectoryOf.
  now rewrite Exact.nth_map_seq by assumption.
Qed.

(** X12.  On the doubles of the program and with a positive threshold, the
    automatic policy stops at a duplicate: when two selected items have the
    same embedding, the later of the two is the last item of the selection,
    provided the objective value recorded for it is finite.  The second
    copy leaves the coverage as it is, bit for bit, so the delta is [0]. *)
Theorem doubles_duplicate_is_selected_last (embeddings : list (list float))
    (threshold : float) (p q : nat) :
  let r := lazyGreedySelectionWithSaturation embeddings threshold in
  let sel := result_selected r in
  PrimFloat.ltb 0 threshold = true ->
  p < q < result_optimalK r ->
  nth (nth p sel 0) embeddings [] = nth (nth q sel 0) embeddings [] ->
  PrimFloat.is_finite (nth q (result_values r) 0%float) = true ->
  S q = result_optimalK r.
Proof.
  intros r sel Hthr [Hpq Hq] Hsame Hfin.
  set (n := length embeddings). set (matrix := similarityMatrix embeddings).
  destruct (saturation_trace embeddings threshold) as (HK & Hsel & _).
  fold n matrix r sel in HK, Hsel.
  assert (Hn : 1 <= length embeddings) by (fold n; lia).
  destruct (saturation_structure embeddings threshold Hn)
    as (_ & Hlen & _ & _ & Hrange & Hbefore & _).
  fold r sel n in Hlen, Hrange, Hbefore.
  destruct (Nat.eq_dec (S q) (result_optimalK r)) as [|Hne]; [assumption|exfalso].
  specialize (Hbefore (S q) ltac:(lia) ltac:(lia)).
  set (i := nth p sel 0) in *. set (j := nth q sel 0) in *.
  assert (Hi : i < n) by (apply Hrange, nth_In; lia).
  assert (Hj : j < n) by (apply Hrange, nth_In; lia).
  assert (Hrow : nth j matrix [] = nth i matrix []).
  { unfold matrix. rewrite !matrix_row by assumption. now rewrite Hsame. }
  (* the state before and after the selection of [j] *)
  pose proof (stateAfter_prefix matrix n q (result_optimalK r) ltac:(lia) HK) as Hq_sel.
  pose proof (stateAfter_prefix matrix n (S q) (result_optimalK r) ltac:(lia) HK) as HSq_sel.
  rewrite <- Hsel in Hq_sel, HSq_sel.
  rewrite (firstn_snoc sel q 0) in HSq_sel by lia. fold j in HSq_sel.
  destruct (stateAfter_selects matrix n q ltac:(lia)) as [Hwf Hlenq].
  destruct (whileLoop_accepts matrix n q (stateAfter matrix n q) Hwf)
    as (e & rest & _ & _ & Heq & _).
  { apply (remaining_inhabited n); [assumption|lia]. }
  rewrite <- stateAfter_S in Heq.
  assert (He : bestIdx e = j).
  { pose proof (f_equal selected Heq) as Hs. cbn [selected] in Hs.
    rewrite HSq_sel, Hq_sel in Hs. apply app_inv_head in Hs. now injection Hs. }
  assert (Hcov : currentCoverage (stateAfter matrix n (S q))
                 = currentCoverage (stateAfter matrix n q)).
  { rewrite Heq. cbn [currentCoverage]. rewrite He, Hrow.
    apply updateCoverage_same.
    - apply (stateAfter_nonnegative embeddings q).
    - apply (stateAfter_reaches embeddings q i). fold matrix n. rewrite Hq_sel.
      assert (Hnth : nth p (firstn q sel) 0 = i).
      { rewrite nth_firstn. destruct (Nat.ltb_spec p q); [reflexivity|lia]. }
      rewrite <- Hnth. apply nth_In. rewrite length_firstn. lia. }
  unfold delta in Hbefore.
  replace (S q - 1) with q in Hbefore by lia.
  replace (S q - 2) with (q - 1) in Hbefore by lia.
  pose proof (trajectory_entry embeddings threshold q ltac:(fold r; lia)) as Hvq.
  pose proof (trajectory_entry embeddings threshold (q - 1) ltac:(fold r; lia)) as Hvq'.
  fold n matrix r in Hvq, Hvq'.
  replace (S (q - 1)) with q in Hvq' by lia.
  rewrite <- Hcov, <- Hvq in Hvq'.
  cbn [zero sub ltb float_number] in Hbefore.
  rewrite Hvq', (sub_self _ Hfin) in Hbefore. congruence.
Qed.

(** X13.  On the doubles of the program a larger threshold never makes
    the automatic policy select more: [optimalK] does not grow with the
    threshold. *)
Theorem doubles_larger_threshold_stops_no_later (embeddings : list (list float))
    (threshold1 threshold2 : float) :
  PrimFloat.leb threshold1 threshold2 = true ->
  result_optimalK (lazyGreedySelectionWithSaturation embeddings threshold2)
  <= result_optimalK (lazyGreedySelectionWithSaturation embeddings threshold1).
Proof.
  intros Hthr.
  set (r1 := lazyGreedySelectionWithSaturation embeddings threshold1).
  set (r2 := lazyGreedySelectionWithSaturation embeddings threshold2).
  destruct (Nat.le_gt_cases (result_optimalK r2) (result_optimalK r1)) as [|Hlt];
    [assumption|exfalso].
  destruct (saturation_trace embeddings threshold1) as (_ & _ & Hvals1).
  destruct (saturation_trace embeddings threshold2) as (HK2 & _ & Hvals2).
  fold r1 in Hvals1. fold r2 in HK2, Hvals2.
  assert (Hn : 1 <= length embeddings) by lia.
  destruct (saturation_structure embeddings threshold1 Hn)
    as (_ & _ & _ & _ & _ & _ & Hstop1).
  destruct (saturation_structure embeddings threshold2 Hn)
    as (_ & _ & _ & _ & _ & Hbefore2 & _).
  fold r1 in Hstop1. fold r2 in Hbefore2.
  destruct Hstop1 as [[H2 Hd]|[Heq _]]; [|lia].
  specialize (Hbefore2 (result_optimalK r1) H2 Hlt).
  assert (Hsame : delta (result_values r1) (result_optimalK r1)
                  = delta (result_values r2) (result_optimalK r1)).
  { unfold delta. rewrite Hvals1, Hvals2. unfold trajectoryOf.
    rewrite !Exact.nth_map_seq by lia. reflexivity. }
  rewrite Hsame in Hd. cbn [ltb float_number] in Hd, Hbefore2.
  rewrite (ltb_leb_trans _ _ _ Hd Hthr) in Hbefore2. discriminate.
Qed.

(** ** The objective grows with the coverage *)

(** A vector of [n] doubles that are not negative: each is [+0], a finite
    double above zero or [+infinity]. *)
Definition plusVector (n : nat) (v : list float) : Prop :=
  length v = n /\ forall j, Rounding.plus (nth j v 0%float).

Lemma plus_nonnegative (x : float) : Rounding.plus x -> nonnegative x.
Proof.
  intros [v Hv]. unfold nonnegative. rewrite leb_spec.
  change (Prim2SF 0) with (S754_zero false).
  destruct Hv; reflexivity.
Qed.

Lemma matrix_plus (embeddings : list (list float)) i j :
  Rounding.plus (nth j (nth i (similarityMatrix embeddings) []) 0%float).
Proof.
  destruct (Nat.lt_ge_cases i (length embeddings)) as [Hi|Hi];
    [destruct (Nat.lt_ge_cases j (length embeddings)) as [Hj|Hj]|].
  - pose proof (similarityMatrix_at embeddings i j Hi Hj) as Heq.
    unfold gtb in Heq. cbn [zero ltb float_number] in Heq.
    rewrite Heq. cbn zeta.
    destruct (PrimFloat.ltb 0 _) eqn:Hpos;
      [apply Rounding.plus_of_positive, Hpos|apply Rounding.plus_zero].
  - pose proof (similarityMatrix_outside embeddings i j (or_intror Hj)) as Heq.
    cbn [zero float_number] in Heq. rewrite Heq. apply Rounding.plus_zero.
  - pose proof (similarityMatrix_outside embeddings i j (or_introl Hi)) as Heq.
    cbn [zero float_number] in Heq. rewrite Heq. apply Rounding.plus_zero.
Qed.

Lemma updateCoverage_plus n (row cov : list float) :
  (forall j, Rounding.plus (nth j row 0%float)) ->
  plusVector n cov -> plusVector n (updateCoverage n row cov).
Proof.
  intros Hrow [Hlen Hcov]. split; [apply updateCoverage_length|].
  intros j. destruct (Nat.lt_ge_cases j n) as [Hj|Hj].
  - rewrite updateCoverage_entry by assumption.
    destruct (PrimFloat.ltb _ _); auto.
  - rewrite nth_overflow by (rewrite updateCoverage_length; exact Hj).
    apply Rounding.plus_zero.
Qed.

Lemma initialState_plus n (matrix : list (list float)) :
  plusVector n (currentCoverage (initialState n matrix)).
Proof.
  split; [apply repeat_length|]. intros j. cbn [initialState currentCoverage].
  destruct (Nat.lt_ge_cases j n) as [Hj|Hj].
  - rewrite nth_repeat_lt by assumption. apply Rounding.plus_zero.
  - rewrite nth_overflow by (rewrite repeat_length; exact Hj). apply Rounding.plus_zero.
Qed.

Lemma whileLoop_plus (embeddings : list (list float)) iteration (st : state float) :
  plusVector (length embeddings) (currentCoverage st) ->
  plusVector (length embeddings)
    (currentCoverage (whileLoop (similarityMatrix embeddings) (length embeddings)
                        iteration st)).
Proof.
  intros Hst.
  destruct (whileLoop_cases (similarityMatrix embeddings) (length embeddings) iteration st)
    as [->|(e & rest & ->)]; cbn [currentCoverage]; [exact Hst|].
  apply updateCoverage_plus; [|exact Hst]. intros j. apply matrix_plus.
Qed.

Lemma forLoop_plus (embeddings : list (list float)) count iteration (st : state float) :
  plusVector (length embeddings) (currentCoverage st) ->
  plusVector (length embeddings)
    (currentCoverage (forLoop (similarityMatrix embeddings) (length embeddings)
                        count iteration st)).
Proof.
  revert iteration st. induction count as [|count IH]; intros iteration st Hst; simpl.
  - exact Hst.
  - apply IH. now apply whileLoop_plus.
Qed.

Lemma whileLoopSat_plus (embeddings : list (list float)) threshold iteration
    (st : satState float) :
  plusVector (length embeddings) (currentCoverage (core st)) ->
  plusVector (length embeddings)
    (currentCoverage
       (core (whileLoopSat (similarityMatrix embeddings) (length embeddings) iteration
                threshold st))).
Proof.
  intros Hst. rewrite whileLoopSat_whileLoop. unfold recordValue.
  destruct (_ =? _); cbn [core]; now apply whileLoop_plus.
Qed.

Lemma forLoopSat_plus (embeddings : list (list float)) threshold count iteration
    (st : satState float) :
  plusVector (length embeddings) (currentCoverage (core st)) ->
  plusVector (length embeddings)
    (currentCoverage
       (core (forLoopSat (similarityMatrix embeddings) (length embeddings) threshold
                count iteration st))).
Proof.
  revert iteration st. induction count as [|count IH]; intros iteration st Hst; simpl.
  - exact Hst.
  - pose proof (whileLoopSat_plus embeddings threshold iteration st Hst) as Hst'.
    destruct (earlyStopK _); [exact Hst'|now apply IH].
Qed.

(** The sum of the source, [reduce((sum, val) => sum + val, 0)], grows with
    the entries. *)
Lemma sum_mono (cov cov' : list float) : forall acc acc',
  length cov = length cov' ->
  (forall j, Rounding.plus (nth j cov 0%float)) ->
  (forall j, Rounding.plus (nth j cov' 0%float)) ->
  (forall j, PrimFloat.leb (nth j cov 0%float) (nth j cov' 0%float) = true) ->
  Rounding.plus acc -> Rounding.plus acc' -> PrimFloat.leb acc acc' = true ->
  Rounding.plus (fold_left (fun sum val => PrimFloat.add sum val) cov acc) /\
  Rounding.plus (fold_left (fun sum val => PrimFloat.add sum val) cov' acc') /\
  PrimFloat.leb (fold_left (fun sum val => PrimFloat.add sum val) cov acc)
                (fold_left (fun sum val => PrimFloat.add sum val) cov' acc') = true.
Proof.
  revert cov'. induction cov as [|x cov IH]; intros [|x' cov'] acc acc' Hlen Hp Hp' Hle
    Hacc Hacc' Hleacc; try discriminate Hlen.
  - cbn [fold_left]. auto.
  - cbn [fold_left]. apply IH.
    + now injection Hlen.
    + intros j. apply (Hp (S j)).
    + intros j. apply (Hp' (S j)).
    + intros j. apply (Hle (S j)).
    + apply Rounding.add_plus; [exact Hacc|apply (Hp 0)].
    + apply Rounding.add_plus; [exact Hacc'|apply (Hp' 0)].
    + apply Rounding.add_mono; try assumption;
        [apply (Hp 0)|apply (Hp' 0)|apply (Hle 0)].
Qed.

(** The objective grows with the coverage. *)
Lemma functionValue_mono n (cov cov' : list float) :
  (1 <= Z.of_nat n < 2 ^ 63)%Z ->
  plusVector n cov -> plusVector n cov' ->
  (forall j, PrimFloat.leb (nth j cov 0%float) (nth j cov' 0%float) = true) ->
  PrimFloat.leb (functionValue n cov) (functionValue n cov') = true.
Proof.
  intros Hn [Hlen Hp] [Hlen' Hp'] Hle.
  unfold functionValue. cbn [div add zero of_nat float_number].
  destruct (Rounding.of_uint63_finite (Z.of_nat n) Hn) as (m & e & Hd).
  destruct (sum_mono cov cov' 0%float 0%float) as (Hs & Hs' & Hsum);
    try assumption; try apply Rounding.plus_zero; [congruence|reflexivity|].
  now apply (Rounding.div_mono _ _ _ m e Hd).
Qed.

(** C8.  On the doubles of the program, in both selection functions: an
    acceptance lowers no entry of the coverage vector that is a number, and
    every entry of the coverage is one, and not negative, after any number
    of passes of either loop; consequently the trajectory returned by
    [lazyGreedySelectionWithSaturation] is in ascending order, rounding
    being monotone.  An array of the source has fewer than [2^32]
    elements. *)
Theorem doubles_coverage_and_objective_monotone
    (embeddings : list (list float)) (threshold : float) :
  (Z.of_nat (length embeddings) < 2 ^ 32)%Z ->
  let n := length embeddings in
  let matrix := similarityMatrix embeddings in
  let vals := result_values (lazyGreedySelectionWithSaturation embeddings threshold) in
  (forall iteration (st : state float) j,
     j < n ->
     PrimFloat.leb (nth j (currentCoverage st) 0%float)
                   (nth j (currentCoverage st) 0%float) = true ->
     PrimFloat.leb (nth j (currentCoverage st) 0%float)
                   (nth j (currentCoverage (whileLoop matrix n iteration st)) 0%float)
     = true) /\
  (forall iteration (st : satState float) j,
     j < n ->
     PrimFloat.leb (nth j (currentCoverage (core st)) 0%float)
                   (nth j (currentCoverage (core st)) 0%float) = true ->
     PrimFloat.leb (nth j (currentCoverage (core st)) 0%float)
                   (nth j (currentCoverage
                             (core (whileLoopSat matrix n iteration threshold st)))
                        0%float)
     = true) /\
  (forall count j,
     let coverage := currentCoverage (forLoop matrix n count 0 (initialState n matrix)) in
     let coverageSat :=
       currentCoverage
         (core (forLoopSat matrix n threshold count 0 (initialSatState n matrix))) in
     PrimFloat.leb 0 (nth j coverage 0%float) = true /\
     PrimFloat.leb (nth j coverage 0%float) (nth j coverage 0%float) = true /\
     PrimFloat.leb 0 (nth j coverageSat 0%float) = true /\
     PrimFloat.leb (nth j coverageSat 0%float) (nth j coverageSat 0%float) = true) /\
  (forall t, S t < length vals ->
     PrimFloat.leb (nth t vals 0%float) (nth (S t) vals 0%float) = true).
Proof.
  intros Hn n matrix vals.
  assert (Hloop : forall iteration (st : state float) j,
             j < n ->
             PrimFloat.leb (nth j (currentCoverage st) 0%float)
                           (nth j (currentCoverage st) 0%float) = true ->
             PrimFloat.leb (nth j (currentCoverage st) 0%float)
                           (nth j (currentCoverage (whileLoop matrix n iteration st))
                                0%float) = true).
  { intros iteration st j Hj Hnum.
    destruct (whileLoop_cases matrix n iteration st) as [->|(e & rest & ->)];
      cbn [currentCoverage]; [exact Hnum|].
    rewrite updateCoverage_entry by assumption.
    destruct (PrimFloat.ltb _ _) eqn:Hlt; [apply ltb_leb, Hlt|exact Hnum]. }
  split; [exact Hloop|]. split; [|split].
  - intros iteration st j Hj Hnum.
    rewrite whileLoopSat_whileLoop. unfold recordValue.
    destruct (_ =? _); cbn [core]; now apply Hloop.
  - intros count j. cbn zeta.
    pose proof (forLoop_plus embeddings count 0 (initialState n matrix)
                  (initialState_plus n matrix)) as [_ Hp].
    pose proof (forLoopSat_plus embeddings threshold count 0 (initialSatState n matrix)
                  (initialState_plus n matrix)) as [_ Hps].
    fold n matrix in Hp, Hps.
    pose proof (plus_nonnegative _ (Hp j)) as H1.
    pose proof (plus_nonnegative _ (Hps j)) as H2.
    split; [exact H1|]. split; [exact (leb_number _ _ H1)|].
    split; [exact H2|exact (leb_number _ _ H2)].
  - intros t Ht.
    destruct (saturation_trace embeddings threshold) as (HK & _ & Hvals).
    fold n matrix vals in Hvals. cbn zeta in HK. fold n in HK.
    assert (Hlen : length vals = result_optimalK
                                   (lazyGreedySelectionWithSaturation embeddings threshold))
      by (rewrite Hvals; unfold trajectoryOf; now rewrite length_map, length_seq).
    rewrite Hvals. unfold trajectoryOf. rewrite !Exact.nth_map_seq by lia.
    cbn [Nat.add].
    assert (Hstate : forall c, plusVector n (currentCoverage (stateAfter matrix n c))).
    { intros c. apply (forLoop_plus embeddings c 0), initialState_plus. }
    apply functionValue_mono; [lia|apply Hstate|apply Hstate|].
    intros j. rewrite (stateAfter_S matrix n (S t)).
    destruct (Nat.lt_ge_cases j n) as [Hj|Hj].
    + apply Hloop; [exact Hj|].
      apply (leb_number 0), plus_nonnegative, Hstate.
    + destruct (Hstate (S t)) as [Hl1 _].
      destruct (whileLoop_plus embeddings (S t) _ (Hstate (S t))) as [Hl2 _].
      fold n matrix in Hl2.
      rewrite !nth_overflow by lia. reflexivity.
Qed.

(** ** The theorems on both functions and on the tools, at concrete inputs *)

Definition fourStrings : list string := ["a"; "b"; "c"; "d"]%string.

Definition fourImages : list string :=
  ["https://example.com/x.png"; "iVBORw0KGgo="; "https://example.com/y.svg";
   "https://example.com/z.png"]%string.

Lemma saturation_agrees_with_fixed_k_witness :
  let r := lazyGreedySelectionWithSaturation Float64.scenarioB defaultThreshold in
  (Z.of_nat (result_optimalK r) <= 2 < Z.of_nat (length Float64.scenarioB))%Z /\
  result_selected r = lazyGreedySelection Float64.scenarioB (Z.of_nat (result_optimalK r)).
Proof.
  assert (HK : result_optimalK
                 (lazyGreedySelectionWithSaturation Float64.scenarioB defaultThreshold) = 2)
    by (vm_compute; reflexivity).
  cbn zeta. split; [rewrite HK; simpl; lia|].
  apply (saturation_agrees_with_fixed_k Float64.scenarioB defaultThreshold 2).
  rewrite HK. simpl. lia.
Defined.

Lemma threshold_only_cuts_witness :
  let r1 := lazyGreedySelectionWithSaturation Float64.scenarioA 0.75%float in
  let r2 := lazyGreedySelectionWithSaturation Float64.scenarioA defaultThreshold in
  result_optimalK r1 <= result_optimalK r2 /\
  result_selected r1 = firstn (result_optimalK r1) (result_selected r2).
Proof.
  assert (HK1 : result_optimalK
                  (lazyGreedySelectionWithSaturation Float64.scenarioA 0.75%float) = 2)
    by (vm_compute; reflexivity).
  assert (HK2 : result_optimalK
                  (lazyGreedySelectionWithSaturation Float64.scenarioA defaultThreshold) = 3)
    by (vm_compute; reflexivity).
  cbn zeta. split; [rewrite HK1, HK2; lia|].
  apply (threshold_only_cuts Float64.scenarioA 0.75%float defaultThreshold).
  rewrite HK1, HK2. lia.
Defined.

(** A request with [k = 1.5] passes the check and is answered two items. *)
Lemma deduplicate_strings_answer_witness :
  checkBearerToken (Some "key"%string) = None /\
  fourStrings <> [] /\
  validK (length fourStrings) (Some (Finite (3 # 2))) /\
  length Float64.scenarioA = length fourStrings /\
  exists items,
    AnyNumber.deduplicate_strings (fun _ => EmbeddingsOf Float64.scenarioA)
      (Some "key"%string) fourStrings (Some (Finite (3 # 2))) = inr items /\
    length items = 2.
Proof.
  assert (Hne : fourStrings <> []) by discriminate.
  assert (Hk : validK (length fourStrings) (Some (Finite (3 # 2)))) by reflexivity.
  split; [reflexivity|]. split; [exact Hne|]. split; [exact Hk|]. split; [reflexivity|].
  destruct (deduplicate_strings_answer (fun _ => EmbeddingsOf Float64.scenarioA)
              (Some "key"%string) fourStrings (Some (Finite (3 # 2))) Float64.scenarioA
              eq_refl Hne Hk eq_refl eq_refl) as (items & Heq & [Hcount _] & _).
  exists items. split; [exact Heq|exact Hcount].
Defined.

(** A request with [k = 2.5] passes the check and is answered three items. *)
Lemma deduplicate_images_answer_witness :
  checkBearerToken (Some "key"%string) = None /\
  fourImages <> [] /\
  validK (length fourImages) (Some (Finite (5 # 2))) /\
  length Float64.scenarioA = length fourImages /\
  exists content,
    AnyNumber.deduplicate_images (fun _ => EmbeddingsOf Float64.scenarioA)
      (fun _ _ => FetchOk "AAAA"%string) None (Some "key"%string) fourImages
      (Some (Finite (5 # 2)))
    = inr content /\
    length content = 3.
Proof.
  assert (Hne : fourImages <> []) by discriminate.
  assert (Hk : validK (length fourImages) (Some (Finite (5 # 2)))) by reflexivity.
  split; [reflexivity|]. split; [exact Hne|]. split; [exact Hk|]. split; [reflexivity|].
  destruct (deduplicate_images_answer (fun _ => EmbeddingsOf Float64.scenarioA)
              (fun _ _ => FetchOk "AAAA"%string) None
              (Some "key"%string) fourImages (Some (Finite (5 # 2))) Float64.scenarioA
              eq_refl Hne Hk eq_refl eq_refl) as [Hanswer _].
  destruct (Hanswer ltac:(discriminate)) as (content & Heq & [Hcount _] & _).
  exists content. split; [exact Heq|exact Hcount].
Defined.

(** Scenario A: the value after the second selection is not below the
    value after the first. *)
Lemma doubles_coverage_and_objective_monotone_witness :
  (Z.of_nat (length Float64.scenarioA) < 2 ^ 32)%Z /\
  1 < length (result_values
                (lazyGreedySelectionWithSaturation Float64.scenarioA defaultThreshold)) /\
  PrimFloat.leb
    (nth 0 (result_values
              (lazyGreedySelectionWithSaturation Float64.scenarioA defaultThreshold))
         0%float)
    (nth 1 (result_values
              (lazyGreedySelectionWithSaturation Float64.scenarioA defaultThreshold))
         0%float)
  = true.
Proof.
  assert (Hn : (Z.of_nat (length Float64.scenarioA) < 2 ^ 32)%Z) by (simpl; lia).
  assert (Hlen : 1 < length (result_values
                               (lazyGreedySelectionWithSaturation Float64.scenarioA
                                  defaultThreshold)))
    by (vm_compute; lia).
  split; [exact Hn|]. split; [exact Hlen|].
  apply (doubles_coverage_and_objective_monotone Float64.scenarioA defaultThreshold Hn).
  exact Hlen.
Defined.

Lemma doubles_duplicate_is_selected_last_witness :
  let r := lazyGreedySelectionWithSaturation Float64.scenarioB defaultThreshold in
  PrimFloat.ltb 0 defaultThreshold = true /\
  0 < 1 < result_optimalK r /\
  PrimFloat.is_finite (nth 1 (result_values r) 0%float) = true /\
  2 = result_optimalK r.
Proof.
  cbn zeta.
  assert (HK : result_optimalK
                 (lazyGreedySelectionWithSaturation Float64.scenarioB defaultThreshold) = 2)
    by (vm_compute; reflexivity).
  assert (Hthr : PrimFloat.ltb 0 defaultThreshold = true) by (vm_compute; reflexivity).
  assert (Hfin : PrimFloat.is_finite
                   (nth 1 (result_values
                             (lazyGreedySelectionWithSaturation Float64.scenarioB
                                defaultThreshold)) 0%float) = true)
    by (vm_compute; reflexivity).
  split; [exact Hthr|]. split; [rewrite HK; lia|]. split; [exact Hfin|].
  apply (doubles_duplicate_is_selected_last Float64.scenarioB defaultThreshold 0 1).
  - exact Hthr.
  - rewrite HK. lia.
  - vm_compute. reflexivity.
  - exact Hfin.
Defined.

Lemma doubles_larger_threshold_stops_no_later_witness :
  PrimFloat.leb defaultThreshold 0.75%float = true /\
  result_optimalK (lazyGreedySelectionWithSaturation Float64.scenarioA 0.75%float)
  <= result_optimalK (lazyGreedySelectionWithSaturation Float64.scenarioA defaultThreshold).
Proof.
  assert (Hthr : PrimFloat.leb defaultThreshold 0.75%float = true)
    by (vm_compute; reflexivity).
  split; [exact Hthr|].
  apply (doubles_larger_threshold_stops_no_later Float64.scenarioA
           defaultThreshold 0.75%float).
  exact Hthr.
Defined.

End Doubles.

(** * The objective in exact arithmetic: submodularity and the greedy bound *)

Module Optimality.

Import Exact.
Local Open Scope R_scope.

(** The sum of the coverage vector, the numerator of [functionValue]. *)
Definition total (cov : list R) : R := fold_left (fun sum val => sum + val) cov 0.

Lemma functionValue_total n (cov : list R) : functionValue n cov = total cov / INR n.
Proof. reflexivity. Qed.

Lemma sumOver_ext f g l a :
  (forall i, In i l -> f i = g i) -> sumOver f l a = sumOver g l a.
Proof.
  intros Hfg. apply Rle_antisym; (apply sumOver_le; [|lra]);
    intros i Hi; rewrite (Hfg i Hi); lra.
Qed.

Lemma sumOver_plus f g l a b :
  sumOver (fun i => f i + g i) l (a + b) = sumOver f l a + sumOver g l b.
Proof.
  unfold sumOver. revert a b. induction l as [|i l IH]; intros a b; simpl; [reflexivity|].
  rewrite <- IH. f_equal. lra.
Qed.

Lemma sumOver_cons f i l a : sumOver f (i :: l) a = f i + sumOver f l a.
Proof.
  unfold sumOver. simpl. fold (sumOver f l (a + f i)). fold (sumOver f l a).
  rewrite (sumOver_shift f l (a + f i)), (sumOver_shift f l a). lra.
Qed.

Lemma exp_pow_nat (x : R) (k : nat) : exp x ^ k = exp (INR k * x).
Proof.
  induction k as [|k IH].
  - simpl. now rewrite Rmult_0_l, exp_0.
  - rewrite S_INR, Rmult_plus_distr_r, Rmult_1_l, exp_plus. simpl. rewrite IH. lra.
Qed.

(** [(1 - 1/k)^k <= 1/e] *)
Lemma power_bound (k : nat) : (1 <= k)%nat -> (1 - / INR k) ^ k <= exp (-1).
Proof.
  intros Hk.
  assert (HK : 1 <= INR k) by (change 1 with (INR 1); apply le_INR; exact Hk).
  assert (Hinv : 0 < / INR k <= 1).
  { split; [apply Rinv_0_lt_compat; lra|].
    rewrite <- Rinv_1. apply Rinv_le_contravar; lra. }
  replace (-1) with (INR k * (- / INR k)) by (field; lra).
  rewrite <- exp_pow_nat. apply pow_incr. split; [lra|].
  pose proof (exp_ineq1_le (- / INR k)). lra.
Qed.

Section Objective.
Variable matrix : list (list R).
Variable n : nat.

(** The coverage after the items of [more] are added to the coverage [cov]. *)
Definition addAll (more : list nat) (cov : list R) : list R :=
  fold_left (fun cov i => updateCoverage n (nth i matrix []) cov) more cov.

Lemma coverageAfter_app (sel more : list nat) :
  coverageAfter matrix n (sel ++ more) = addAll more (coverageAfter matrix n sel).
Proof. unfold coverageAfter, addAll. apply fold_left_app. Qed.

Lemma coverageAfter_snoc (sel : list nat) i :
  coverageAfter matrix n (sel ++ [i])
  = updateCoverage n (nth i matrix []) (coverageAfter matrix n sel).
Proof. now rewrite coverageAfter_app. Qed.

Lemma addAll_length more cov : length cov = n -> length (addAll more cov) = n.
Proof.
  revert cov. induction more as [|i more IH]; intros cov Hlen; [exact Hlen|].
  apply IH, updateCoverage_length.
Qed.

Lemma coverageAfter_length (sel : list nat) : length (coverageAfter matrix n sel) = n.
Proof. apply addAll_length, repeat_length. Qed.

Lemma addAll_ge more cov j : (j < n)%nat -> nth j cov 0 <= nth j (addAll more cov) 0.
Proof.
  intros Hj. revert cov. induction more as [|i more IH]; intros cov; [simpl; lra|].
  etransitivity; [|apply IH]. now apply updateCoverage_ge.
Qed.

Lemma addAll_mono more cov cov' :
  (forall j, (j < n)%nat -> nth j cov 0 <= nth j cov' 0) ->
  forall j, (j < n)%nat -> nth j (addAll more cov) 0 <= nth j (addAll more cov') 0.
Proof.
  revert cov cov'. induction more as [|i more IH]; intros cov cov' Hle; [exact Hle|].
  apply IH. intros j Hj. rewrite !updateCoverage_nth by assumption.
  specialize (Hle j Hj). compare_cases; lra.
Qed.

Lemma zero_vector j : nth j (repeat (0 : R) n) 0 = 0.
Proof.
  destruct (Nat.lt_ge_cases j n) as [Hj|Hj].
  - now apply nth_repeat_lt.
  - apply nth_overflow. now rewrite repeat_length.
Qed.

Lemma coverageAfter_nonneg (sel : list nat) j :
  (j < n)%nat -> 0 <= nth j (coverageAfter matrix n sel) 0.
Proof.
  intros Hj. rewrite <- (zero_vector j) at 1. now apply (addAll_ge sel).
Qed.

(** The coverage of a selection is at least the row of each of its items. *)
Lemma coverageAfter_covers (sel : list nat) i j :
  In i sel -> (j < n)%nat ->
  nth j (nth i matrix []) 0 <= nth j (coverageAfter matrix n sel) 0.
Proof.
  intros (before & after & ->)%in_split Hj.
  change (before ++ i :: after) with (before ++ [i] ++ after).
  rewrite app_assoc, coverageAfter_app, coverageAfter_snoc.
  etransitivity; [|now apply addAll_ge].
  rewrite updateCoverage_nth by assumption. compare_cases; lra.
Qed.

Lemma total_sum (cov : list R) :
  length cov = n -> total cov = sumOver (fun j => nth j cov 0) (seq 0 n) 0.
Proof. intros Hlen. unfold total. now rewrite sum_by_index, Hlen. Qed.

Lemma total_zero : total (repeat 0 n) = 0.
Proof.
  rewrite total_sum by apply repeat_length.
  apply Rle_antisym.
  - pose proof (sumOver_upper (fun j => nth j (repeat 0 n) 0) (seq 0 n) 0 0) as Hup.
    rewrite Rmult_0_l, Rplus_0_l in Hup. apply Hup.
    intros j _. rewrite zero_vector. lra.
  - apply sumOver_nonneg. intros j _. rewrite zero_vector. lra.
Qed.

(** Adding an item raises the sum of the coverage by its marginal gain. *)
Lemma total_update i (cov : list R) :
  length matrix = n -> length cov = n ->
  total (updateCoverage n (nth i matrix []) cov)
  = total cov + computeMarginalGainDiversity i cov matrix.
Proof.
  intros Hmatrix Hlen.
  rewrite (total_sum cov Hlen), total_sum by apply updateCoverage_length.
  rewrite computeMarginalGainDiversity_sum, Hmatrix.
  rewrite <- sumOver_plus, Rplus_0_l.
  apply sumOver_ext. intros j Hj%in_seq.
  rewrite updateCoverage_nth by lia. unfold gainTerm. lra.
Qed.

Lemma gain_nonneg i (cov : list R) : 0 <= computeMarginalGainDiversity i cov matrix.
Proof.
  rewrite computeMarginalGainDiversity_sum. apply sumOver_nonneg.
  intros j _. apply gainTerm_nonneg.
Qed.

(** An item whose row the coverage already reaches adds nothing. *)
Lemma gain_covered i (cov : list R) :
  length matrix = n ->
  (forall j, (j < n)%nat -> nth j (nth i matrix []) 0 <= nth j cov 0) ->
  computeMarginalGainDiversity i cov matrix = 0.
Proof.
  intros Hmatrix Hle. apply Rle_antisym; [|apply gain_nonneg].
  rewrite computeMarginalGainDiversity_sum, Hmatrix.
  pose proof (sumOver_upper (gainTerm (nth i matrix []) cov) (seq 0 n) 0 0) as Hup.
  rewrite Rmult_0_l, Rplus_0_l in Hup. apply Hup.
  intros j Hj%in_seq. specialize (Hle j ltac:(lia)).
  unfold gainTerm. compare_cases; lra.
Qed.

(** The sum of the coverage of [sel] and [other] together is at most the sum of
    the coverage of [sel] plus the gains that the items of [other] have against
    [sel], one by one. *)
Lemma total_union (sel other : list nat) :
  length matrix = n ->
  total (coverageAfter matrix n (sel ++ other))
  <= total (coverageAfter matrix n sel)
     + sumOver (fun o => computeMarginalGainDiversity o (coverageAfter matrix n sel) matrix) other 0.
Proof.
  intros Hmatrix. revert sel. induction other as [|o other IH]; intros sel.
  - rewrite app_nil_r. unfold sumOver. simpl. lra.
  - change (sel ++ o :: other) with (sel ++ [o] ++ other). rewrite app_assoc.
    etransitivity; [apply IH|].
    rewrite coverageAfter_snoc, total_update
      by (try exact Hmatrix; apply coverageAfter_length).
    rewrite sumOver_cons.
    assert (Hle : sumOver
               (fun o' => computeMarginalGainDiversity o'
                            (updateCoverage n (nth o matrix []) (coverageAfter matrix n sel))
                            matrix) other 0
             <= sumOver
                  (fun o' => computeMarginalGainDiversity o' (coverageAfter matrix n sel)
                               matrix) other 0).
    { apply sumOver_le; [|lra]. intros o' _. apply gain_antitone.
      intros j Hj. apply updateCoverage_ge. lia. }
    lra.
Qed.

(** Monotonicity: a selection covers no more alone than after others. *)
Lemma total_alone (sel other : list nat) :
  total (coverageAfter matrix n other) <= total (coverageAfter matrix n (sel ++ other)).
Proof.
  rewrite !total_sum by apply coverageAfter_length.
  apply sumOver_le; [|lra]. intros j Hj%in_seq.
  rewrite coverageAfter_app. unfold coverageAfter at 1.
  apply (addAll_mono other); [|lia].
  intros j' Hj'. change (repeat zero n) with (repeat (0 : R) n).
  rewrite zero_vector. now apply coverageAfter_nonneg.
Qed.

(** One greedy step: the best item of the step, taken [k] times, would
    cover at least what any [k] items cover. *)
Lemma greedy_step (sel other : list nat) i k :
  length matrix = n ->
  (forall j, (j < n)%nat -> ~ In j sel ->
     computeMarginalGainDiversity j (coverageAfter matrix n sel) matrix
     <= computeMarginalGainDiversity i (coverageAfter matrix n sel) matrix) ->
  (forall o, In o other -> (o < n)%nat) -> (length other <= k)%nat ->
  total (coverageAfter matrix n other)
  <= total (coverageAfter matrix n sel)
     + INR k * computeMarginalGainDiversity i (coverageAfter matrix n sel) matrix.
Proof.
  intros Hmatrix Hbest Hother Hlen.
  set (g := computeMarginalGainDiversity i (coverageAfter matrix n sel) matrix).
  assert (Hg : 0 <= g) by apply gain_nonneg.
  etransitivity; [apply (total_alone sel other)|].
  etransitivity; [apply total_union, Hmatrix|].
  apply Rplus_le_compat_l.
  etransitivity; [apply (sumOver_upper _ other 0 g)|].
  - intros o Ho. destruct (in_dec Nat.eq_dec o sel) as [Hin|Hnot].
    + rewrite gain_covered; [exact Hg|exact Hmatrix|].
      intros j Hj. now apply coverageAfter_covers.
    + apply Hbest; [now apply Hother|exact Hnot].
  - apply le_INR in Hlen. nra.
Qed.

(** The gap to any [k] items shrinks by the factor [1 - 1/k] with every
    greedy step. *)
Lemma greedy_gap (sel other : list nat) k :
  length matrix = n ->
  naiveGreedy matrix n sel ->
  (forall o, In o other -> (o < n)%nat) -> (length other <= k)%nat -> (1 <= k)%nat ->
  total (coverageAfter matrix n other) - total (coverageAfter matrix n sel)
  <= (1 - / INR k) ^ length sel * total (coverageAfter matrix n other).
Proof.
  intros Hmatrix Hgreedy Hother Hlen Hk.
  assert (HK : 1 <= INR k) by (change 1 with (INR 1); apply le_INR; exact Hk).
  assert (Hinv : 0 < / INR k <= 1).
  { split; [apply Rinv_0_lt_compat; lra|].
    rewrite <- Rinv_1. apply Rinv_le_contravar; lra. }
  induction Hgreedy as [|sel i Hgreedy IH Hi Hnot Hbest].
  - change (coverageAfter matrix n []) with (repeat (0 : R) n).
    rewrite total_zero. simpl. lra.
  - rewrite length_app, Nat.add_1_r. cbn [pow].
    pose proof (greedy_step sel other i k Hmatrix Hbest Hother Hlen) as Hstep.
    rewrite coverageAfter_snoc, total_update
      by (try exact Hmatrix; apply coverageAfter_length).
    set (g := computeMarginalGainDiversity i (coverageAfter matrix n sel) matrix) in *.
    set (G := total (coverageAfter matrix n other)) in *.
    set (F := total (coverageAfter matrix n sel)) in *.
    set (rho := (1 - / INR k) ^ length sel) in *.
    assert (Hd : (G - F) * / INR k <= g).
    { apply (Rmult_le_reg_r (INR k)); [lra|].
      rewrite Rmult_assoc, Rinv_l by lra. lra. }
    assert (Hrho : (1 - / INR k) * (G - F) <= (1 - / INR k) * (rho * G))
      by (apply Rmult_le_compat_l; lra).
    lra.
Qed.

Lemma total_nonneg (sel : list nat) : 0 <= total (coverageAfter matrix n sel).
Proof.
  rewrite total_sum by apply coverageAfter_length.
  apply sumOver_nonneg. intros j Hj%in_seq. apply coverageAfter_nonneg. lia.
Qed.




(** All the items together cover at least what any of them cover. *)
Lemma total_full (other : list nat) :
  length matrix = n ->
  (forall o, In o other -> (o < n)%nat) ->
  total (coverageAfter matrix n other) <= total (coverageAfter matrix n (seq 0 n)).
Proof.
  intros Hmatrix Hother.
  etransitivity; [apply (total_alone (seq 0 n) other)|].
  etransitivity; [apply total_union, Hmatrix|].
  pose proof (sumOver_upper
                (fun o => computeMarginalGainDiversity o
                            (coverageAfter matrix n (seq 0 n)) matrix) other 0 0) as Hup.
  rewrite Rmult_0_l, Rplus_0_l in Hup.
  assert (Hzero : forall o, In o other ->
             computeMarginalGainDiversity o (coverageAfter matrix n (seq 0 n)) matrix <= 0).
  { intros o Ho. rewrite gain_covered; [lra|exact Hmatrix|].
    intros j Hj. apply coverageAfter_covers; [|exact Hj].
    apply in_seq. specialize (Hother o Ho). lia. }
  specialize (Hup Hzero). lra.
Qed.

End Objective.

(** ** The objective of the program *)

Lemma objective_total matrix n (sel : list nat) :
  objective matrix n sel = total (coverageAfter matrix n sel) / INR n.
Proof. reflexivity. Qed.

Lemma Rinv_INR_nonneg (n : nat) : 0 <= / INR n.
Proof.
  destruct n as [|n].
  - simpl. rewrite Rinv_0. lra.
  - left. apply Rinv_0_lt_compat, lt_0_INR. lia.
Qed.


(** ** The greedy bound *)

Lemma guarantee_from_gap (G F : R) (k : nat) :
  0 <= G -> (1 <= k)%nat -> G - F <= (1 - / INR k) ^ k * G ->
  (1 - (1 - / INR k) ^ k) * G <= F /\ (1 - exp (-1)) * G <= F.
Proof.
  intros HG Hk Hgap. pose proof (power_bound k Hk) as Hpow. split; nra.
Qed.

Lemma stateAfter_greedy (embeddings : list (list R)) (t : nat) :
  (t <= length embeddings)%nat ->
  naiveGreedy (similarityMatrix embeddings) (length embeddings)
    (selected (stateAfter (similarityMatrix embeddings) (length embeddings) t)) /\
  length (selected (stateAfter (similarityMatrix embeddings) (length embeddings) t)) = t.
Proof.
  intros Ht. split.
  - apply (gi_greedy _ _ (0 + t)).
    apply forLoop_greedy;
      [apply similarityMatrix_length|apply initialState_greedy|reflexivity|lia].
  - now apply stateAfter_selects.
Qed.

Lemma objective_scaled matrix n (sel other : list nat) (c : R) :
  c * total (coverageAfter matrix n other) <= total (coverageAfter matrix n sel) ->
  c * objective matrix n other <= objective matrix n sel.
Proof.
  intros Hle. rewrite !objective_total. unfold Rdiv. rewrite <- Rmult_assoc.
  apply Rmult_le_compat_r; [apply Rinv_INR_nonneg|exact Hle].
Qed.

(** X15.  The guarantee of greedy selection, in exact arithmetic: the [k]
    items that [lazyGreedySelection] returns reach at least the fraction
    [1 - (1 - 1/k)^k], which is more than [1 - 1/e], about 63%, of the
    objective that any [k] items reach, the best possible choice included.
    The same holds of the selection of [lazyGreedySelectionWithSaturation]
    against any [optimalK] items. *)
Theorem greedy_guarantee (embeddings : list (list R)) (k : Z) (threshold : R)
    (other : list nat) :
  let n := length embeddings in
  let matrix := similarityMatrix embeddings in
  let r := lazyGreedySelectionWithSaturation embeddings threshold in
  (forall o, In o other -> (o < n)%nat) ->
  ((1 <= k)%Z -> (Z.of_nat (length other) <= k)%Z ->
   (1 - (1 - / IZR k) ^ Z.to_nat k) * objective matrix n other
   <= objective matrix n (lazyGreedySelection embeddings k) /\
   (1 - exp (-1)) * objective matrix n other
   <= objective matrix n (lazyGreedySelection embeddings k)) /\
  ((length other <= result_optimalK r)%nat ->
   (1 - exp (-1)) * objective matrix n other <= objective matrix n (result_selected r)).
Proof.
  intros n matrix r Hother.
  assert (Hlen : length matrix = n) by apply similarityMatrix_length.
  pose proof (total_nonneg matrix n other) as HG.
  split.
  - intros Hk Hcard.
    replace (IZR k) with (INR (Z.to_nat k)) by (rewrite INR_IZR_INZ, Z2Nat.id; [reflexivity|lia]).
    assert (Hgap : total (coverageAfter matrix n other)
                   - total (coverageAfter matrix n (lazyGreedySelection embeddings k))
                   <= (1 - / INR (Z.to_nat k)) ^ Z.to_nat k
                      * total (coverageAfter matrix n other)).
    { unfold lazyGreedySelection. fold n matrix.
      destruct (Z.leb_spec (Z.of_nat n) k) as [Hge|Hlt].
      - pose proof (total_full matrix n other Hlen Hother) as Hfull.
        assert (Hrho : 0 <= (1 - / INR (Z.to_nat k)) ^ Z.to_nat k).
        { apply pow_le.
          assert (1 <= INR (Z.to_nat k))
            by (change 1 with (INR 1); apply le_INR; lia).
          assert (/ INR (Z.to_nat k) <= 1)
            by (rewrite <- Rinv_1; apply Rinv_le_contravar; lra).
          lra. }
        nra.
      - destruct (stateAfter_greedy embeddings (Z.to_nat k) ltac:(fold n; lia))
          as [Hgreedy Hsel].
        fold n matrix in Hgreedy, Hsel.
        pose proof (greedy_gap matrix n _ other (Z.to_nat k) Hlen Hgreedy Hother
                      ltac:(lia) ltac:(lia)) as Hgap.
        now rewrite Hsel in Hgap. }
    destruct (guarantee_from_gap _ _ (Z.to_nat k) HG ltac:(lia) Hgap) as [H1 H2].
    split; apply objective_scaled; assumption.
  - intros Hcard.
    destruct (saturation_trace embeddings threshold) as (HK & Hsel & _).
    fold n matrix r in HK, Hsel. rewrite Hsel.
    destruct (stateAfter_greedy embeddings (result_optimalK r) HK) as [Hgreedy Hlensel].
    fold n matrix in Hgreedy, Hlensel.
    apply objective_scaled.
    destruct (Nat.eq_dec (result_optimalK r) 0%nat) as [Hzero|Hpos].
    + assert (other = []) as -> by (apply length_zero_iff_nil; lia).
      rewrite Hzero. change (coverageAfter matrix n []) with (repeat (0 : R) n).
      change (selected (stateAfter matrix n 0)) with (@nil nat).
      change (coverageAfter matrix n []) with (repeat (0 : R) n).
      rewrite total_zero. lra.
    + pose proof (greedy_gap matrix n _ other (result_optimalK r) Hlen Hgreedy Hother
                    Hcard ltac:(lia)) as Hgap.
      rewrite Hlensel in Hgap.
      apply (guarantee_from_gap _ _ (result_optimalK r) HG ltac:(lia) Hgap).
Qed.

(** ** The bound at a concrete input *)

Lemma objective_guarantee_hypotheses :
  forall o : nat, In o [1%nat] -> (o < length twoAxes)%nat.
Proof. intros o [<-|[]]. simpl. lia. Qed.

Lemma greedy_guarantee_witness :
  (forall o : nat, In o [1%nat] -> (o < length twoAxes)%nat) /\
  (1 <= 1)%Z /\
  (1 - exp (-1)) * objective (similarityMatrix twoAxes) (length twoAxes) [1%nat]
  <= objective (similarityMatrix twoAxes) (length twoAxes) (lazyGreedySelection twoAxes 1).
Proof.
  split; [exact objective_guarantee_hypotheses|]. split; [lia|].
  apply (greedy_guarantee twoAxes 1 (1 / 100)%R [1%nat] objective_guarantee_hypotheses).
  - lia.
  - simpl. lia.
Defined.

End Optimality.

(** * The length of the embeddings does not matter, in exact arithmetic *)

Module Scaling.

Import Exact.
Local Open Scope R_scope.














End Scaling.
